(** * The ArangoDB logging engine (lib/Basics/logging.cpp, lib/Basics/Logger.h)

    A shallow embedding of the level gate, the per-level ring buffers, the
    appender registry, the file appender, the formatter and the queue
    worker, together with the properties the design document states about
    them.

    Conventions of the embedding.
    - C integers are [Z]; where the source relies on a fixed width the
      wrap-around is written out ([wrap64], [to_int64], [to_int]). The
      lengths that [snprintf] returns are taken to fit an [int].
    - A character buffer is a [string] holding its bytes; what a reader of
      a C string sees of it is [c_str].
    - The process-wide statics of logging.cpp are fields of explicit state
      records that every operation takes and returns. An access outside
      an array is a fault, [None].
    - Mutexes are not modelled: every operation is one atomic step, and
      the threads that enqueue messages act between two iterations of the
      queue worker.
    - What the environment decides (results of [write] and [open], the
      clock, the outcome of an allocation in the formatter) is an argument
      of the operation. Heap allocation inside the ring buffer and the
      history query is taken to succeed.
    - Loops without a bound in the source are unrolled over a fuel
      argument, [None] standing for a loop that is still running.
    - The POSIX build is modelled (the [_WIN32] branches are left out). *)

From Stdlib Require Import ZArith Lia Bool Ascii String.
From stdpp Require Import base decidable option list sorting strings gmap pretty.

Local Open Scope Z_scope.

(** ** Fixed-width integers *)

(** Reduction to an unsigned [w]-bit value: the casts [(size_t)] and
    [(uint64_t)], and unsigned arithmetic. *)
Definition wrap (w : Z) (z : Z) : Z := z mod 2 ^ w.

(** Reduction to a signed two's-complement [w]-bit value: the casts
    [(int64_t)] and [(int)]. *)
Definition to_signed (w : Z) (z : Z) : Z :=
  let m := z mod 2 ^ w in
  if m <? 2 ^ (w - 1) then m else m - 2 ^ w.

Definition wrap64 : Z -> Z := wrap 64.
Definition to_int64 : Z -> Z := to_signed 64.
Definition to_int : Z -> Z := to_signed 32.

(** ** C strings *)

(** ['\0'] *)
Definition NUL : ascii := Ascii.zero.

(** What a reader that stops at the terminating NUL sees of a buffer
    ([strlen], [TRI_DuplicateString] without a length, ["%s"]). *)
Fixpoint c_str (s : string) : string :=
  match s with
  | EmptyString => EmptyString
  | String c r => if Ascii.eqb c NUL then EmptyString else String c (c_str r)
  end.

(** [memcpy] of the first [n] bytes. *)
Definition str_take (n : nat) (s : string) : string := String.substring 0 n s.

(** ** Logger.h: levels, topics and the level gate *)

Module Logger.

(** [enum class LogLevel] *)
Inductive LogLevel : Set :=
| DEFAULT | FATAL | ERR | WARN | INFO | DEBUG | TRACE.

(** The enumerators' values, i.e. the cast [(int)level]. *)
Definition level_int (l : LogLevel) : Z :=
  match l with
  | DEFAULT => 0 | FATAL => 1 | ERR => 2 | WARN => 3
  | INFO => 4 | DEBUG => 5 | TRACE => 6
  end.

#[global] Instance LogLevel_eq_dec : EqDecision LogLevel.
Proof. solve_decision. Defined.

(** [class LogTopic]: the atomic [_level] is read with [level()]. *)
Record LogTopic := mkTopic {
  topic_id : nat;
  topic_name : string;
  topic_level : LogLevel
}.

Definition setLogLevel (t : LogTopic) (l : LogLevel) : LogTopic :=
  {| topic_id := topic_id t; topic_name := topic_name t; topic_level := l |}.

(** [Logger::isEnabled(LogLevel)]; [glob] is the static [Logger::_level]. *)
Definition isEnabled (glob : LogLevel) (level : LogLevel) : bool :=
  level_int level <=? level_int glob.

(** [Logger::isEnabled(LogLevel, LogTopic const&)] *)
Definition isEnabled_topic (glob : LogLevel) (level : LogLevel)
    (topic : LogTopic) : bool :=
  level_int level <=?
    level_int (if decide (topic_level topic = DEFAULT)
               then glob else topic_level topic).

End Logger.

(** ** logging.h: the C-level enumerations

    [TRI_log_level_e] and [TRI_log_severity_e] are declared in logging.h;
    a [TRI_log_level_e] is carried as the integer it is cast to. *)

Module Level.

(** Modelled from the spec: the enumerators of [TRI_log_level_e], which the
    design document gives as FATAL=1 ... TRACE=6. *)
Definition TRI_LOG_LEVEL_FATAL : Z := 1.
Definition TRI_LOG_LEVEL_ERROR : Z := 2.
Definition TRI_LOG_LEVEL_WARNING : Z := 3.
Definition TRI_LOG_LEVEL_INFO : Z := 4.
Definition TRI_LOG_LEVEL_DEBUG : Z := 5.
Definition TRI_LOG_LEVEL_TRACE : Z := 6.

(** Modelled from the spec: the tags of [TRI_log_severity_e]. *)
Inductive TRI_log_severity_e : Set :=
| TRI_LOG_SEVERITY_EXCEPTION
| TRI_LOG_SEVERITY_TECHNICAL
| TRI_LOG_SEVERITY_FUNCTIONAL
| TRI_LOG_SEVERITY_DEVELOPMENT
| TRI_LOG_SEVERITY_USAGE
| TRI_LOG_SEVERITY_HUMAN
| TRI_LOG_SEVERITY_UNKNOWN.

#[global] Instance severity_eq_dec : EqDecision TRI_log_severity_e.
Proof. solve_decision. Defined.

End Level.

(** ** logging.cpp: the ring buffers of recent messages *)

Module Buffer.

Definition OUTPUT_MAX_LENGTH : Z := 256.
Definition OUTPUT_BUFFER_SIZE : Z := 1024.
Definition OUTPUT_LOG_LEVELS : Z := 6.

(** [TRI_log_buffer_t]; [_text] is [None] for the null pointer. *)
Record TRI_log_buffer_t := mkBuf {
  _lid : Z;
  _level : Z;
  _timestamp : Z;
  _text : option string
}.

(** The statics [BufferLID], [BufferCurrent] and [BufferOutput]. *)
Record buffers := mkBuffers {
  BufferLID : Z;
  BufferCurrent : list Z;
  BufferOutput : list (list TRI_log_buffer_t)
}.

(** A zero-initialised slot of the static array. *)
Definition empty_slot : TRI_log_buffer_t :=
  {| _lid := 0; _level := 0; _timestamp := 0; _text := None |}.

(** The state the statics are initialised to. *)
Definition initial : buffers :=
  {| BufferLID := 1;
     BufferCurrent := replicate (Z.to_nat OUTPUT_LOG_LEVELS) 0;
     BufferOutput :=
       replicate (Z.to_nat OUTPUT_LOG_LEVELS)
                 (replicate (Z.to_nat OUTPUT_BUFFER_SIZE) empty_slot) |}.

(** Array reads and writes. An index outside the array is a fault: the
    read yields [None]. *)
Definition at_index {A} (l : list A) (i : Z) : option A :=
  if decide (0 <= i) then l !! Z.to_nat i else None.

Definition set_index {A} (l : list A) (i : Z) (x : A) : option (list A) :=
  if decide (0 <= i < Z.of_nat (length l))
  then Some (<[Z.to_nat i := x]> l) else None.

(** The copy of the text that [StoreOutput] keeps: messages longer than
    [OUTPUT_MAX_LENGTH] are cut to 252 bytes followed by [" ..."]. *)
Definition stored_text (text : string) : string :=
  if OUTPUT_MAX_LENGTH <? Z.of_nat (String.length text)
  then str_take (Z.to_nat (OUTPUT_MAX_LENGTH - 4)) text +:+ " ..."%string
  else text.

(** [StoreOutput(level, timestamp, text, length)]; [text] stands for the
    [length] bytes starting at the pointer. *)
Definition StoreOutput (level : Z) (timestamp : Z) (text : string)
    (st : buffers) : option buffers :=
  let pos := wrap64 level in
  if OUTPUT_LOG_LEVELS <=? pos then Some st
  else
    let msg := stored_text text in
    oldPos ← at_index (BufferCurrent st) pos;
    let cur := wrap64 (oldPos + 1) mod OUTPUT_BUFFER_SIZE in
    current' ← set_index (BufferCurrent st) pos cur;
    ring ← at_index (BufferOutput st) pos;
    let buf := {| _lid := BufferLID st; _level := level;
                  _timestamp := timestamp; _text := Some msg |} in
    ring' ← set_index ring cur buf;
    output' ← set_index (BufferOutput st) pos ring';
    Some {| BufferLID := wrap64 (BufferLID st + 1);
            BufferCurrent := current';
            BufferOutput := output' |}.

(** [LidCompare]: the comparator handed to [qsort]. *)
Definition LidCompare (left right : TRI_log_buffer_t) : Z :=
  to_int (to_int64 (to_int64 (_lid left) - to_int64 (_lid right))).

(** [qsort] of the C library, as an insertion sort driven by the
    comparator: an element goes before the first one it does not compare
    greater than. *)
Fixpoint qsort_insert {A} (cmp : A -> A -> Z) (x : A) (l : list A) : list A :=
  match l with
  | [] => [x]
  | y :: r => if cmp x y <=? 0 then x :: y :: r
              else y :: qsort_insert cmp x r
  end.

Fixpoint qsort {A} (cmp : A -> A -> Z) (l : list A) : list A :=
  match l with
  | [] => []
  | x :: r => qsort_insert cmp x (qsort cmp r)
  end.

(** The test [buf._lid >= start && buf._text != nullptr && *buf._text != 0]. *)
Definition selected (start : Z) (buf : TRI_log_buffer_t) : bool :=
  (start <=? _lid buf) &&
  match _text buf with
  | None => false
  | Some EmptyString => false
  | Some (String c _) => negb (Ascii.eqb c NUL)
  end.

(** The copy pushed to the result: the text is duplicated up to its NUL. *)
Definition duplicate (buf : TRI_log_buffer_t) : TRI_log_buffer_t :=
  {| _lid := _lid buf; _level := _level buf; _timestamp := _timestamp buf;
     _text := c_str <$> _text buf |}.

(** A [for] loop over the indices [idx] that appends what each round
    yields; a faulting round makes the loop fault. *)
Fixpoint collect {A} (f : Z -> option (list A)) (idx : list Z)
    : option (list A) :=
  match idx with
  | [] => Some []
  | i :: r => x ← f i; y ← collect f r; Some (x ++ y)
  end.

(** The body of the inner loop of [TRI_BufferLogging] for ring [i] and
    offset [j]. *)
Definition scan_slot (st : buffers) (start : Z) (i j : Z)
    : option (list TRI_log_buffer_t) :=
  c ← at_index (BufferCurrent st) i;
  let cur := wrap64 (c + j) mod OUTPUT_BUFFER_SIZE in
  ring ← at_index (BufferOutput st) i;
  buf ← at_index ring cur;
  Some (if selected start buf then [duplicate buf] else []).

(** The ring index a query level is mapped to. *)
Definition query_pos (level : Z) : Z :=
  let pos := wrap64 level in
  if OUTPUT_LOG_LEVELS <=? pos then OUTPUT_LOG_LEVELS - 1 else pos.

(** The entries a query gathers, in the order of the two loops. *)
Definition gather (level : Z) (start : Z) (useUpto : bool) (st : buffers)
    : option (list TRI_log_buffer_t) :=
  let pos := query_pos level in
  let begin := if useUpto then 0 else pos in
  collect (fun i => collect (scan_slot st start i)
                            (seqZ 0 OUTPUT_BUFFER_SIZE))
          (seqZ begin (pos - begin + 1)).

(** [TRI_BufferLogging(level, start, useUpto)] *)
Definition TRI_BufferLogging (level : Z) (start : Z) (useUpto : bool)
    (st : buffers) : option (list TRI_log_buffer_t) :=
  qsort LidCompare <$> gather level start useUpto st.

(** The clearing loop of [TRI_ShutdownLogging(true)]. *)
Definition clear_buffers (st : buffers) : buffers :=
  {| BufferLID := BufferLID st;
     BufferCurrent := BufferCurrent st;
     BufferOutput :=
       map (map (fun b => {| _lid := _lid b; _level := _level b;
                             _timestamp := _timestamp b; _text := None |}))
           (BufferOutput st) |}.

(** *** Shape of the statics and views of a ring *)

(** The arrays have their declared sizes, every cursor is inside its ring
    and the lid counter is a 64-bit value. *)
Definition wf (st : buffers) : Prop :=
  0 <= BufferLID st < 2 ^ 64 /\
  length (BufferCurrent st) = Z.to_nat OUTPUT_LOG_LEVELS /\
  Forall (fun c => 0 <= c < OUTPUT_BUFFER_SIZE) (BufferCurrent st) /\
  length (BufferOutput st) = Z.to_nat OUTPUT_LOG_LEVELS /\
  Forall (fun ring => length ring = Z.to_nat OUTPUT_BUFFER_SIZE)
         (BufferOutput st).

(** Ring [pos] and its cursor; an empty ring outside the array. *)
Definition ring_at (st : buffers) (pos : Z) : list TRI_log_buffer_t :=
  default [] (at_index (BufferOutput st) pos).

Definition cursor_at (st : buffers) (pos : Z) : Z :=
  default 0 (at_index (BufferCurrent st) pos).

(** The slots of ring [pos] from the one written longest ago to the one
    written last: the cursor points at the newest slot, the slot after it
    is the next to be overwritten. *)
Definition oldest_first (st : buffers) (pos : Z) : list TRI_log_buffer_t :=
  rotate (S (Z.to_nat (cursor_at st pos))) (ring_at st pos).

(** The slots of the rings that a query reads: all rings up to the
    query's ring when [useUpto] is set, that ring alone otherwise. *)
Definition merged_rings (level : Z) (useUpto : bool) (st : buffers)
    : list TRI_log_buffer_t :=
  let pos := query_pos level in
  let begin := if useUpto then 0 else pos in
  concat (ring_at st <$> seqZ begin (pos - begin + 1)).

(** Ascending order of lids. *)
Definition lid_le (a b : TRI_log_buffer_t) : Prop := _lid a <= _lid b.

(** The lids of two entries are less than [2 ^ 31] apart, so that their
    difference is an [int]. *)
Definition lids_close (a b : TRI_log_buffer_t) : Prop :=
  - 2 ^ 31 < _lid a - _lid b < 2 ^ 31.

(** *** Runs of [StoreOutput] *)

(** The arguments of one call of [StoreOutput]. *)
Record store_call := mkCall {
  call_level : Z;
  call_timestamp : Z;
  call_text : string
}.

(** The calls made one after the other. *)
Fixpoint StoreOutput_all (calls : list store_call) (st : buffers)
    : option buffers :=
  match calls with
  | [] => Some st
  | c :: rest =>
      st' ← StoreOutput (call_level c) (call_timestamp c) (call_text c) st;
      StoreOutput_all rest st'
  end.

(** The entry that a call is expected to write when the lid counter
    stands at [lid]. *)
Definition entry_of (lid : Z) (level timestamp : Z) (text : string)
    : TRI_log_buffer_t :=
  {| _lid := lid; _level := level; _timestamp := timestamp;
     _text := Some (stored_text text) |}.

(** The entries that a run of calls is expected to create, in call order,
    when the lid counter stands at [lid]: a call for a level outside the
    rings creates none and takes no lid. *)
Fixpoint entries_of (lid : Z) (calls : list store_call)
    : list TRI_log_buffer_t :=
  match calls with
  | [] => []
  | c :: rest =>
      if OUTPUT_LOG_LEVELS <=? wrap64 (call_level c) then entries_of lid rest
      else entry_of lid (call_level c) (call_timestamp c) (call_text c)
           :: entries_of (wrap64 (lid + 1)) rest
  end.

(** Whether an entry belongs to ring [pos]. *)
Definition in_ring (pos : Z) (buf : TRI_log_buffer_t) : bool :=
  wrap64 (_level buf) =? pos.

(** A run that puts two visible entries more than [2 ^ 31] lids apart:
    one ERROR message, then [n] INFO messages with an empty text, which
    the query skips, then one more INFO message. *)
Definition far_apart_calls (n : nat) : list store_call :=
  {| call_level := 2; call_timestamp := 0; call_text := "disk full" |}
  :: replicate n {| call_level := 4; call_timestamp := 0;
                    call_text := EmptyString |}
  ++ [{| call_level := 4; call_timestamp := 0; call_text := "started" |}].

End Buffer.

(** ** logging.cpp: the appender registry and the dispatch loop *)

Module Appender.
Import Level.

(** [TRI_log_appender_type_e] *)
Inductive TRI_log_appender_type_e : Set :=
| APPENDER_TYPE_FILE
| APPENDER_TYPE_SYSLOG.

(** The base structure [TRI_log_appender_t]; [_contentFilter] is [None]
    for the null pointer. *)
Record TRI_log_appender_t := mkAppender {
  type : TRI_log_appender_type_e;
  _contentFilter : option string;
  _severityFilter : TRI_log_severity_e;
  _consume : bool
}.

(** Modelled from the spec: [TRI_IsContainedString(full, part)] of
    tri-strings, the substring test behind the content filter. Both
    arguments are C strings. *)
Fixpoint is_substring (part full : string) : bool :=
  String.prefix part full ||
  match full with
  | EmptyString => false
  | String _ r => is_substring part r
  end.

Definition TRI_IsContainedString (full part : string) : bool :=
  is_substring (c_str part) (c_str full).

(** The two filter tests at the head of the loop body: [true] when the
    appender is not skipped by a [continue]. *)
Definition passes (it : TRI_log_appender_t) (severity : TRI_log_severity_e)
    (message : string) : bool :=
  if bool_decide (_severityFilter it <> TRI_LOG_SEVERITY_UNKNOWN)
     && bool_decide (_severityFilter it <> severity)
  then false
  else match _contentFilter it with
       | Some filter => TRI_IsContainedString message filter
       | None => true
       end.

(** The loop [for (auto& it : Appenders)] that [OutputMessage] and
    [MessageQueueWorker] both contain. [logMessage i it w] is the effect
    on [w] of the virtual call [it->logMessage(...)] on the appender
    registered at position [i]; the loop runs over the appenders from
    position [i] on. *)
Fixpoint dispatch_from {W} (logMessage : nat -> TRI_log_appender_t -> W -> W)
    (i : nat) (appenders : list TRI_log_appender_t)
    (severity : TRI_log_severity_e) (message : string) (w : W) : W :=
  match appenders with
  | [] => w
  | it :: rest =>
      if passes it severity message then
        let w' := logMessage i it w in
        if _consume it then w'
        else dispatch_from logMessage (S i) rest severity message w'
      else dispatch_from logMessage (S i) rest severity message w
  end.

Definition dispatch {W} (logMessage : nat -> TRI_log_appender_t -> W -> W)
    (appenders : list TRI_log_appender_t)
    (severity : TRI_log_severity_e) (message : string) (w : W) : W :=
  dispatch_from logMessage 0 appenders severity message w.

(** The loop run with a [logMessage] that only records at which position
    it was called: the positions of the appenders whose [logMessage] a
    record reaches, in call order. *)
Definition invoked (appenders : list TRI_log_appender_t)
    (severity : TRI_log_severity_e) (message : string) : list nat :=
  dispatch (fun i _ calls => calls ++ [i]) appenders severity message [].

End Appender.

(** ** logging.cpp: the file appender *)

Module FileAppender.
Import Appender.

Definition STDOUT_FILENO : Z := 1.
Definition STDERR_FILENO : Z := 2.

(** [log_appender_file_t] *)
Record log_appender_file_t := mkFileAppender {
  base : TRI_log_appender_t;
  _filename : string;
  _fd : Z;
  _fatal2stderr : bool
}.

(** The part of the operating system the appender acts on: which file
    (an inode number) each path names, and which file each open
    descriptor refers to. *)
Record os := mkOs {
  names : gmap string nat;
  open_fds : gmap Z nat;
  next_inode : nat
}.

(** [TRI_UnlinkFile(path)]; the appender ignores the result. *)
Definition TRI_UnlinkFile (path : string) (w : os) : os :=
  {| names := delete path (names w);
     open_fds := open_fds w;
     next_inode := next_inode w |}.

(** [TRI_RenameFile(old, new)]: fails, changing nothing, when [old] does
    not exist; the appender ignores the result. *)
Definition TRI_RenameFile (old new : string) (w : os) : os :=
  match names w !! old with
  | Some i =>
      {| names := <[new := i]> (delete old (names w));
         open_fds := open_fds w;
         next_inode := next_inode w |}
  | None => w
  end.

(** [TRI_CREATE(path, O_APPEND | O_CREAT | O_WRONLY | TRI_O_CLOEXEC, mode)].
    [ret] is what the system call returns: a negative value when the file
    cannot be opened, the new descriptor otherwise. *)
Definition TRI_CREATE (path : string) (ret : Z) (w : os) : Z * os :=
  if ret <? 0 then (ret, w)
  else
    match names w !! path with
    | Some i =>
        (ret, {| names := names w;
                 open_fds := <[ret := i]> (open_fds w);
                 next_inode := next_inode w |})
    | None =>
        (ret, {| names := <[path := next_inode w]> (names w);
                 open_fds := <[ret := next_inode w]> (open_fds w);
                 next_inode := S (next_inode w) |})
    end.

(** [TRI_CLOSE(fd)] *)
Definition TRI_CLOSE (fd : Z) (w : os) : os :=
  {| names := names w;
     open_fds := delete fd (open_fds w);
     next_inode := next_inode w |}.

(** [log_appender_file_t::reopenLog()]; [ret] is the result of the one
    [TRI_CREATE] call it may make. *)
Definition reopenLog (ret : Z) (a : log_appender_file_t) (w : os)
    : log_appender_file_t * os :=
  if bool_decide (_filename a = EmptyString) then (a, w)
  else if _fd a <=? STDERR_FILENO then (a, w)
  else
    let backup := (_filename a +:+ ".old")%string in
    let w := TRI_UnlinkFile backup w in
    let w := TRI_RenameFile (_filename a) backup w in
    let '(fd, w) := TRI_CREATE (_filename a) ret w in
    if fd <? 0 then
      let w := TRI_RenameFile backup (_filename a) w in
      (a, w)
    else
      let old := _fd a in
      let a := {| base := base a; _filename := _filename a; _fd := fd;
                  _fatal2stderr := _fatal2stderr a |} in
      (a, TRI_CLOSE old w).

(** [log_appender_file_t::closeLog()] *)
Definition closeLog (a : log_appender_file_t) (w : os)
    : log_appender_file_t * os :=
  let fd := _fd a in
  let a := {| base := base a; _filename := _filename a; _fd := -1;
              _fatal2stderr := _fatal2stderr a |} in
  if STDERR_FILENO <? fd then (a, TRI_CLOSE fd w) else (a, w).

(** What a call of [writeLogFile] has done when it returns. *)
Record write_report := mkReport {
  calls : nat;          (* calls of TRI_WRITE made *)
  remaining : Z;        (* the value of len at the return *)
  reported : bool       (* "cannot log data" was printed to stderr *)
}.

(** [log_appender_file_t::writeLogFile(fd, buffer, len)]. [TRI_WRITE k] is
    what the [k]-th call of [TRI_WRITE] (counted from 0) returns. The
    [while] loop is unrolled [fuel] times; [None] means that it is still
    running after [fuel] rounds. *)
Fixpoint writeLogFile_loop (fuel : nat) (TRI_WRITE : nat -> Z) (k : nat)
    (len : Z) (giveUp : bool) : option write_report :=
  match fuel with
  | O => None
  | S fuel =>
      if 0 <? len then
        let n := TRI_WRITE k in
        if n <? 0 then
          Some {| calls := S k; remaining := len; reported := true |}
        else if (n =? 0) && negb giveUp then
          writeLogFile_loop fuel TRI_WRITE (S k) len true
        else
          writeLogFile_loop fuel TRI_WRITE (S k) (len - n) giveUp
      else Some {| calls := k; remaining := len; reported := false |}
  end.

Definition writeLogFile (fuel : nat) (TRI_WRITE : nat -> Z) (len : Z)
    : option write_report :=
  writeLogFile_loop fuel TRI_WRITE 0 len false.

End FileAppender.

(** ** logging.cpp: formatting, emission and the queue worker *)

Module Engine.
Import Level Appender.

(** [log_message_t], the container of a queued message. *)
Record log_message_t := mkMessage {
  _level : Z;
  _severity : TRI_log_severity_e;
  _message : string;
  _length : Z
}.

(** The three ways [WriteStderr] prints a line. *)
Inductive colour : Set := RED | YELLOW | PLAIN.

(** The statics of logging.cpp together with what the engine has put out:
    [err] are the lines printed to stderr, [delivered] the calls of
    [logMessage] made so far, each with the position of the appender in
    the registry. *)
Record state := mkState {
  LoggingActive : bool;
  ThreadedLogging : bool;
  Appenders : list TRI_log_appender_t;
  LogMessageQueue : list log_message_t;
  Buffers : Buffer.buffers;
  OutputPrefix : option string;
  ShowThreadIdentifier : bool;
  ShowLineNumber : Z;
  err : list (colour * string);
  delivered : list (nat * log_message_t)
}.

(** What a call takes from outside the program: the clock, the
    formatted time prefix ([strftime]), the process and thread numbers,
    whether an allocation of a given size succeeds, and the text that
    [TRI_GetBacktrace] appends. *)
Record ambient := mkAmbient {
  now : Z;
  time_prefix : string;
  pid : Z;
  thread : Z;
  TRI_Allocate : Z -> bool;
  backtrace : string
}.

Definition set_err (e : list (colour * string)) (st : state) : state :=
  {| LoggingActive := LoggingActive st; ThreadedLogging := ThreadedLogging st;
     Appenders := Appenders st; LogMessageQueue := LogMessageQueue st;
     Buffers := Buffers st; OutputPrefix := OutputPrefix st;
     ShowThreadIdentifier := ShowThreadIdentifier st;
     ShowLineNumber := ShowLineNumber st;
     err := e; delivered := delivered st |}.

Definition set_delivered (d : list (nat * log_message_t)) (st : state)
    : state :=
  {| LoggingActive := LoggingActive st; ThreadedLogging := ThreadedLogging st;
     Appenders := Appenders st; LogMessageQueue := LogMessageQueue st;
     Buffers := Buffers st; OutputPrefix := OutputPrefix st;
     ShowThreadIdentifier := ShowThreadIdentifier st;
     ShowLineNumber := ShowLineNumber st;
     err := err st; delivered := d |}.

Definition set_queue (q : list log_message_t) (st : state) : state :=
  {| LoggingActive := LoggingActive st; ThreadedLogging := ThreadedLogging st;
     Appenders := Appenders st; LogMessageQueue := q;
     Buffers := Buffers st; OutputPrefix := OutputPrefix st;
     ShowThreadIdentifier := ShowThreadIdentifier st;
     ShowLineNumber := ShowLineNumber st;
     err := err st; delivered := delivered st |}.

Definition set_buffers (b : Buffer.buffers) (st : state) : state :=
  {| LoggingActive := LoggingActive st; ThreadedLogging := ThreadedLogging st;
     Appenders := Appenders st; LogMessageQueue := LogMessageQueue st;
     Buffers := b; OutputPrefix := OutputPrefix st;
     ShowThreadIdentifier := ShowThreadIdentifier st;
     ShowLineNumber := ShowLineNumber st;
     err := err st; delivered := delivered st |}.

Definition slen (s : string) : Z := Z.of_nat (String.length s).

(** [WriteStderr(level, msg)] *)
Definition WriteStderr (level : Z) (msg : string) (st : state) : state :=
  let line :=
    if (level =? TRI_LOG_LEVEL_FATAL) || (level =? TRI_LOG_LEVEL_ERROR)
    then (RED, c_str msg)
    else if level =? TRI_LOG_LEVEL_WARNING then (YELLOW, c_str msg)
    else (PLAIN, c_str msg) in
  set_err (err st ++ [line]) st.

(** The virtual call [it->logMessage(level, severity, message, length)] on
    the appender at position [i], recorded in [delivered]. *)
Definition logMessage (msg : log_message_t) (i : nat)
    (it : TRI_log_appender_t) (st : state) : state :=
  set_delivered (delivered st ++ [(i, msg)]) st.

(** [OutputMessage(level, severity, message, length, offset,
    claimOwnership)]. [None] is an out-of-range access to the ring
    buffers. *)
Definition OutputMessage (amb : ambient) (level : Z)
    (severity : TRI_log_severity_e) (message : string) (length offset : Z)
    (st : state) : option state :=
  if negb (LoggingActive st) then Some (WriteStderr level message st)
  else
    st ← (if bool_decide (severity = TRI_LOG_SEVERITY_HUMAN) then
            b ← Buffer.StoreOutput level (now amb)
                  (String.substring (Z.to_nat offset)
                                    (Z.to_nat (wrap64 (length - offset)))
                                    message)
                  (Buffers st);
            Some (set_buffers b st)
          else Some st);
    match Appenders st with
    | [] => Some (WriteStderr level message st)
    | _ =>
        let msg := {| _level := level; _severity := severity;
                      _message := message; _length := length |} in
        if ThreadedLogging st then
          Some (set_queue (LogMessageQueue st ++ [msg]) st)
        else
          Some (dispatch (logMessage msg) (Appenders st) severity message st)
    end.

(** One iteration of the [while (true)] loop of [MessageQueueWorker]
    with the idle interval [sl]: the queue is swapped out, its messages
    are dispatched, and the interval is adjusted. The third component
    tells whether the loop goes on. *)
Definition MessageQueueWorker_iteration (st : state) (sl : Z)
    : state * Z * bool :=
  let buffer := LogMessageQueue st in
  let st := set_queue [] st in
  let '(st, sl) :=
    match buffer with
    | [] =>
        let sl := to_int (sl + 1000) in
        (st, if 1000000 <? sl then 1000000 else sl)
    | _ =>
        (foldl (fun st msg =>
                  dispatch (logMessage msg) (Appenders st)
                           (_severity msg) (_message msg) st)
               st buffer,
         100)
    end in
  (st, sl,
   if LoggingActive st then true
   else negb (bool_decide (LogMessageQueue st = []))).

(** [MessageQueueWorker] through a run of iterations, entered with the
    interval [sl]; [arrivals] lists, for each iteration, the messages that
    the logging threads enqueue before it swaps the queue out. When the
    loop is left, the cleanup empties the queue. The result is the state
    and the interval after the last iteration. *)
Fixpoint MessageQueueWorker_from (arrivals : list (list log_message_t))
    (st : state) (sl : Z) : state * Z :=
  match arrivals with
  | [] => (st, sl)
  | batch :: rest =>
      let st := set_queue (LogMessageQueue st ++ batch) st in
      let '(st, sl, continue) := MessageQueueWorker_iteration st sl in
      if continue then MessageQueueWorker_from rest st sl
      else (set_queue [] st, sl)
  end.

(** [MessageQueueWorker], which starts with [int sl = 100]. *)
Definition MessageQueueWorker (arrivals : list (list log_message_t))
    (st : state) : state * Z :=
  MessageQueueWorker_from arrivals st 100.

(** The part of the state that the worker's deliveries leave alone. *)
Definition same_control (st st' : state) : Prop :=
  LoggingActive st' = LoggingActive st /\
  LogMessageQueue st' = LogMessageQueue st /\
  Appenders st' = Appenders st.

(** *** The formatter *)

(** The place of a log call: [func], [file] and [line]. *)
Record site := mkSite {
  func : string;
  file : string;
  line : Z
}.

(** What [GenerateMessage] leaves behind: its return value, [*offset] and
    the characters it has put into the buffer. *)
Record generated := mkGenerated {
  ret : Z;
  offset : Z;
  written : string
}.

(** The characters that [snprintf] stores in a buffer of [size] bytes
    when the complete output would be [s]. *)
Definition stored (size : Z) (s : string) : string :=
  str_take (Z.to_nat (size - 1)) s.

(** The [switch (level)] that picks the level's name. *)
Definition level_name (level : Z) : string :=
  if level =? TRI_LOG_LEVEL_FATAL then "FATAL"
  else if level =? TRI_LOG_LEVEL_ERROR then "ERROR"
  else if level =? TRI_LOG_LEVEL_WARNING then "WARNING"
  else if level =? TRI_LOG_LEVEL_INFO then "INFO"
  else if level =? TRI_LOG_LEVEL_DEBUG then "DEBUG"
  else if level =? TRI_LOG_LEVEL_TRACE then "TRACE"
  else "UNKNOWN".

(** ["%llu"] of a value cast to [unsigned long long], and ["%d"]. *)
Definition fmt_llu (z : Z) : string := pretty (wrap64 z).
Definition fmt_d (z : Z) : string := pretty (to_int z).

(** [GenerateMessage(buffer, size, &offset, func, file, line, level,
    currentProcessId, threadNumber, fmt, ap)]. [body] is what [vsnprintf]
    renders [fmt] and its arguments to, [None] when it reports an error
    (returns -1). *)
Definition GenerateMessage (st : state) (size : Z) (at_ : site) (level : Z)
    (currentProcessId threadNumber : Z) (body : option string) : generated :=
  let s0 :=
    match OutputPrefix st with
    | Some (String c r) => (String c r +:+ " ")%string
    | _ => EmptyString
    end in
  let n := slen s0 in
  if to_int size <=? n then
    {| ret := n; offset := 0; written := stored size s0 |}
  else
  let m := n in
  let s1 :=
    if ShowThreadIdentifier st
    then ("[" +:+ fmt_llu currentProcessId +:+ "-" +:+ fmt_llu threadNumber
              +:+ "] ")%string
    else ("[" +:+ fmt_llu currentProcessId +:+ "] ")%string in
  let n := slen s1 in
  if to_int size <=? m + n then
    {| ret := m + n; offset := 0; written := stored size (s0 +:+ s1) |}
  else
  let m := m + n in
  let s2 := (level_name level +:+ " ")%string in
  let n := slen s2 in
  if to_int size <=? m + n then
    {| ret := m + n; offset := 0; written := stored size (s0 +:+ s1 +:+ s2) |}
  else
  let m := m + n in
  let sln := (0 <? ShowLineNumber st)
             || (level =? TRI_LOG_LEVEL_DEBUG)
             || (level =? TRI_LOG_LEVEL_TRACE) in
  let s3 :=
    if sln then ("[" +:+ file at_ +:+ ":" +:+ fmt_d (line at_) +:+ "] ")%string
    else EmptyString in
  let n := slen s3 in
  if sln && (to_int size <=? m + n) then
    {| ret := m + n; offset := 0;
       written := stored size (s0 +:+ s1 +:+ s2 +:+ s3) |}
  else
  let m := if sln then m + n else m in
  match body with
  | None =>
      {| ret := -1; offset := m;
         written := stored size (s0 +:+ s1 +:+ s2 +:+ s3) |}
  | Some b =>
      {| ret := m + slen b; offset := m;
         written := stored size (s0 +:+ s1 +:+ s2 +:+ s3 +:+ b) |}
  end.

(** [DisarmFormatString] *)
Fixpoint DisarmFormatString (dangerousString : string) : string :=
  match dangerousString with
  | EmptyString => EmptyString
  | String c r =>
      String (if Ascii.eqb c "%" then "^"%char else c) (DisarmFormatString r)
  end.

(** How [LogThread] ends: by a call of [OutputMessage], by a call of
    [TRI_Log] with a message of its own, or by a plain [return]. *)
Inductive action : Type :=
| Emit (level : Z) (severity : TRI_log_severity_e) (message : string)
       (length offset : Z)
| Again (level : Z) (severity : TRI_log_severity_e) (fmt : string)
        (body : option string)
| Return.

Definition maxSize : Z := 100 * 1024.

(** The warning about a corrupt format string; it is handed to [TRI_Log]
    as a format without arguments, which renders as itself once every
    ['%'] has been replaced. *)
Definition corrupt_format (amb : ambient) (fmt suffix : string) : action :=
  let message :=
    DisarmFormatString
      ("format string is corrupt: [" +:+ fmt +:+ suffix +:+ backtrace amb) in
  Again TRI_LOG_LEVEL_WARNING TRI_LOG_SEVERITY_HUMAN message
        (Some (c_str message)).

(** The loop [while (n < maxSize)] of [LogThread], unrolled [fuel]
    times; [None] means that it is still running after [fuel] rounds. *)
Fixpoint LogThread_grow (fuel : nat) (st : state) (amb : ambient)
    (at_ : site) (level : Z) (severity : TRI_log_severity_e)
    (fmt : string) (body : option string) (len n : Z) : option action :=
  match fuel with
  | O => None
  | S fuel =>
      if n <? maxSize then
        if negb (TRI_Allocate amb (wrap64 (n + len + 2))) then
          Some (Again TRI_LOG_LEVEL_ERROR TRI_LOG_SEVERITY_HUMAN
                  "log message is too large (%d bytes)"
                  (Some ("log message is too large (" +:+ fmt_d (n + len)
                           +:+ " bytes)")%string))
        else
          let g := GenerateMessage st (wrap64 (n + 1)) at_ level
                     (pid amb) (thread amb) body in
          let m := ret g in
          if m =? -1 then Some (corrupt_format amb fmt "] ")
          else if n <? m then
            LogThread_grow fuel st amb at_ level severity fmt body len m
          else if 0 <? wrap64 (m + len - 1) then
            Some (Emit level severity (time_prefix amb +:+ written g)
                       (wrap64 (m + len)) (wrap64 (offset g + len)))
          else Some Return
      else Some Return
  end.

(** [LogThread(func, file, line, level, severity, processId,
    threadNumber, fmt, ap)] *)
Definition LogThread (st : state) (amb : ambient) (at_ : site) (level : Z)
    (severity : TRI_log_severity_e) (fmt : string) (body : option string)
    : option action :=
  let len := slen (time_prefix amb) in
  let g := GenerateMessage st (wrap64 (2048 - len)) at_ level
             (pid amb) (thread amb) body in
  let n := ret g in
  if n =? -1 then Some (corrupt_format amb fmt "] - GenerateMessage failed")
  else if n <? to_int (wrap64 (2048 - len)) then
    Some (Emit level severity (time_prefix amb +:+ written g)
               (wrap64 (n + len)) (wrap64 (offset g + len)))
  else
    LogThread_grow (Z.to_nat maxSize) st amb at_ level severity fmt body
                   len n.

(** [TRI_Log(func, file, line, level, severity, fmt, ...)]. The calls of
    [TRI_Log] that [LogThread] makes are unrolled [fuel] deep; [None] is
    a bound that was reached or an out-of-range access. *)
Fixpoint TRI_Log (fuel : nat) (amb : ambient) (at_ : site) (level : Z)
    (severity : TRI_log_severity_e) (fmt : string) (body : option string)
    (st : state) : option state :=
  match fuel with
  | O => None
  | S fuel =>
      if negb (LoggingActive st) then Some st
      else
        a ← LogThread st amb at_ level severity fmt body;
        match a with
        | Emit level severity message length offset =>
            OutputMessage amb level severity message length offset st
        | Again level severity fmt body =>
            TRI_Log fuel amb at_ level severity fmt body st
        | Return => Some st
        end
  end.

(** *** What a complete rendering looks like *)

(** A text of [n] bytes. *)
Fixpoint filler (n : nat) : string :=
  match n with
  | O => EmptyString
  | S n => String "x" (filler n)
  end.

(** The prefix that [GenerateMessage] puts before the caller's text when
    the buffer is large enough: output prefix, process (and thread)
    number, level name and, where it is shown, the place of the call. *)
Definition message_prefix (st : state) (at_ : site) (level : Z)
    (currentProcessId threadNumber : Z) : string :=
  let s0 :=
    match OutputPrefix st with
    | Some (String c r) => (String c r +:+ " ")%string
    | _ => EmptyString
    end in
  let s1 :=
    if ShowThreadIdentifier st
    then ("[" +:+ fmt_llu currentProcessId +:+ "-" +:+ fmt_llu threadNumber
              +:+ "] ")%string
    else ("[" +:+ fmt_llu currentProcessId +:+ "] ")%string in
  let s2 := (level_name level +:+ " ")%string in
  let s3 :=
    if (0 <? ShowLineNumber st)
       || (level =? TRI_LOG_LEVEL_DEBUG)
       || (level =? TRI_LOG_LEVEL_TRACE)
    then ("[" +:+ file at_ +:+ ":" +:+ fmt_d (line at_) +:+ "] ")%string
    else EmptyString in
  (s0 +:+ s1 +:+ s2 +:+ s3)%string.

(** The number of bytes that the complete rendering of a call with the
    text [b] takes, without the time prefix. *)
Definition required_size (st : state) (amb : ambient) (at_ : site)
    (level : Z) (b : string) : Z :=
  slen (message_prefix st at_ level (pid amb) (thread amb)) + slen b.

(** The complete record of a call with the text [b]: time prefix, message
    prefix and text. *)
Definition complete_message (st : state) (amb : ambient) (at_ : site)
    (level : Z) (b : string) : string :=
  (time_prefix amb
   +:+ message_prefix st at_ level (pid amb) (thread amb) +:+ b)%string.

End Engine.

(** ** logging.cpp: runs of emissions *)

Module Runs.
Import Level Appender Engine.

(** The arguments of one call of [OutputMessage]. *)
Record emission := mkEmission {
  e_level : Z;
  e_severity : TRI_log_severity_e;
  e_message : string;
  e_length : Z;
  e_offset : Z
}.

(** The calls made one after the other. *)
Fixpoint OutputMessage_all (amb : ambient) (emissions : list emission)
    (st : state) : option state :=
  match emissions with
  | [] => Some st
  | e :: rest =>
      st' ← OutputMessage amb (e_level e) (e_severity e) (e_message e)
              (e_length e) (e_offset e) st;
      OutputMessage_all amb rest st'
  end.

(** The assignment [ThreadedLogging = threaded] of
    [TRI_InitializeLogging]. *)
Definition set_threaded (threaded : bool) (st : state) : state :=
  {| LoggingActive := LoggingActive st; ThreadedLogging := threaded;
     Appenders := Appenders st; LogMessageQueue := LogMessageQueue st;
     Buffers := Buffers st; OutputPrefix := OutputPrefix st;
     ShowThreadIdentifier := ShowThreadIdentifier st;
     ShowLineNumber := ShowLineNumber st;
     err := err st; delivered := delivered st |}.

(** The [log_message_t] that [OutputMessage] builds from its arguments. *)
Definition message_of (e : emission) : log_message_t :=
  {| _level := e_level e; _severity := e_severity e;
     _message := e_message e; _length := e_length e |}.

(** The calls of [logMessage] that dispatching one message makes: the
    message paired with each position the loop reaches. *)
Definition calls_of (appenders : list TRI_log_appender_t)
    (msg : log_message_t) : list (nat * log_message_t) :=
  (fun i => (i, msg)) <$> invoked appenders (_severity msg) (_message msg).

(** The text that [OutputMessage] hands to [StoreOutput]: the message
    from [offset] on. *)
Definition buffered_text (e : emission) : string :=
  String.substring (Z.to_nat (e_offset e))
                   (Z.to_nat (wrap64 (e_length e - e_offset e)))
                   (e_message e).

(** The calls of [StoreOutput] that a run of emissions makes at the time
    [now]: one for each record of severity HUMAN. *)
Definition stores_of (now : Z) (emissions : list emission)
    : list Buffer.store_call :=
  (fun e => Buffer.mkCall (e_level e) now (buffered_text e))
    <$> filter (fun e => e_severity e = TRI_LOG_SEVERITY_HUMAN) emissions.

End Runs.

(** ** logging.cpp: what a run of writes has transferred *)
Module Transfer.

(** The number of bytes that the first [k] calls of [TRI_WRITE] report
    as written. *)
Fixpoint transferred (TRI_WRITE : nat -> Z) (k : nat) : Z :=
  match k with
  | O => 0
  | S k => transferred TRI_WRITE k + TRI_WRITE k
  end.

End Transfer.

(** ** logging.cpp: the appender objects and the life cycle *)
Module Lifecycle.
Import Level Appender FileAppender Engine.

(** The error codes that the functions below return. *)
Inductive TRI_error : Set :=
| TRI_ERROR_NO_ERROR
| TRI_ERROR_INTERNAL
| TRI_ERROR_OUT_OF_MEMORY.

(** The priorities that the syslog appender uses. *)
Inductive syslog_priority : Set :=
| LOG_CRIT | LOG_ERR | LOG_WARNING | LOG_NOTICE | LOG_INFO | LOG_DEBUG.

(** [log_appender_syslog_t], of the build with [TRI_ENABLE_SYSLOG]. *)
Record log_appender_syslog_t := mkSyslogAppender {
  syslog_base : TRI_log_appender_t;
  _opened : bool
}.

(** An object that an element of [Appenders] points to. *)
Inductive appender_object : Type :=
| FileObject (a : log_appender_file_t)
| SyslogObject (a : log_appender_syslog_t).

Definition base_of (o : appender_object) : TRI_log_appender_t :=
  match o with
  | FileObject a => base a
  | SyslogObject a => syslog_base a
  end.

(** All the statics of logging.cpp, with the files of the process and
    what the appenders have put out. [engine] holds the statics that
    the emission uses; its registry [Appenders] lists the base part of
    each appender, and [objects] lists the appenders themselves, at the
    same positions. [atexit] counts the registrations of
    [TRI_ShutdownLogging] as an exit handler, [written] lists the calls
    of [writeLogFile] (descriptor and buffer) and [syslogged] the calls
    of [syslog]. *)
Record process := mkProcess {
  engine : state;
  objects : list appender_object;
  system : os;
  Initialized : Z;
  ShutdownInitalized : bool;
  atexit : nat;
  LogfileName : option string;
  LoggingThreadActive : bool;
  written : list (Z * string);
  syslogged : list (syslog_priority * string)
}.

(** The statics as the program starts. *)
Definition boot (w : os) : process :=
  {| engine := mkState false false [] [] Buffer.initial None false 0 [] [];
     objects := []; system := w; Initialized := 0;
     ShutdownInitalized := false; atexit := 0; LogfileName := None;
     LoggingThreadActive := false; written := []; syslogged := [] |}.

Definition set_active (active : bool) (st : state) : state :=
  {| LoggingActive := active; ThreadedLogging := ThreadedLogging st;
     Appenders := Appenders st; LogMessageQueue := LogMessageQueue st;
     Buffers := Buffers st; OutputPrefix := OutputPrefix st;
     ShowThreadIdentifier := ShowThreadIdentifier st;
     ShowLineNumber := ShowLineNumber st;
     err := err st; delivered := delivered st |}.

Definition set_appenders (appenders : list TRI_log_appender_t) (st : state)
    : state :=
  {| LoggingActive := LoggingActive st; ThreadedLogging := ThreadedLogging st;
     Appenders := appenders; LogMessageQueue := LogMessageQueue st;
     Buffers := Buffers st; OutputPrefix := OutputPrefix st;
     ShowThreadIdentifier := ShowThreadIdentifier st;
     ShowLineNumber := ShowLineNumber st;
     err := err st; delivered := delivered st |}.

Definition set_prefix (prefix : option string) (st : state) : state :=
  {| LoggingActive := LoggingActive st; ThreadedLogging := ThreadedLogging st;
     Appenders := Appenders st; LogMessageQueue := LogMessageQueue st;
     Buffers := Buffers st; OutputPrefix := prefix;
     ShowThreadIdentifier := ShowThreadIdentifier st;
     ShowLineNumber := ShowLineNumber st;
     err := err st; delivered := delivered st |}.

Definition set_engine (e : state) (p : process) : process :=
  {| engine := e; objects := objects p; system := system p;
     Initialized := Initialized p;
     ShutdownInitalized := ShutdownInitalized p; atexit := atexit p;
     LogfileName := LogfileName p;
     LoggingThreadActive := LoggingThreadActive p;
     written := written p; syslogged := syslogged p |}.

(** *** Creating appenders *)

(** [TRI_CreateLogAppenderFile(filename, contentFilter, severityFilter,
    consume, fatal2stderr)], with the constructor of
    [log_appender_file_t] in it; the pointers are [None] when null,
    and [ret] is the result of the one [TRI_CREATE] call that may be
    made. The allocations of the appender and of its copies of the
    strings are taken to succeed. *)
Definition TRI_CreateLogAppenderFile (ret : Z)
    (filename contentFilter : option string)
    (severityFilter : TRI_log_severity_e) (consume fatal2stderr : bool)
    (p : process) : TRI_error * process :=
  match c_str <$> filename with
  | None | Some EmptyString => (TRI_ERROR_INTERNAL, p)
  | Some name =>
      let b := {| type := APPENDER_TYPE_FILE;
                  _contentFilter := c_str <$> contentFilter;
                  _severityFilter := severityFilter;
                  _consume := consume |} in
      (* the constructor; [None] when it throws *)
      let made :=
        if String.eqb name "+" then
          Some ({| base := b; _filename := EmptyString;
                   _fd := STDOUT_FILENO; _fatal2stderr := fatal2stderr |},
                system p)
        else if String.eqb name "-" then
          Some ({| base := b; _filename := EmptyString;
                   _fd := STDERR_FILENO; _fatal2stderr := fatal2stderr |},
                system p)
        else
          let '(fd, w) := TRI_CREATE name ret (system p) in
          if fd <? 0 then None
          else Some ({| base := b; _filename := name; _fd := fd;
                        _fatal2stderr := fatal2stderr |}, w) in
      match made with
      | None => (TRI_ERROR_OUT_OF_MEMORY, p)
      | Some (a, w) =>
          (TRI_ERROR_NO_ERROR,
           {| engine := set_appenders (Appenders (engine p) ++ [b]) (engine p);
              objects := objects p ++ [FileObject a];
              system := w;
              Initialized := Initialized p;
              ShutdownInitalized := ShutdownInitalized p;
              atexit := atexit p;
              LogfileName := match LogfileName p with
                             | None => Some name
                             | Some first => Some first
                             end;
              LoggingThreadActive := LoggingThreadActive p;
              written := written p; syslogged := syslogged p |})
      end
  end.

(** [TRI_CreateLogAppenderSyslog(name, facility, contentFilter,
    severityFilter, consume)]; the constructor calls [openlog], which
    has no result. [name] and [facility] only reach [openlog] and are
    left out. *)
Definition TRI_CreateLogAppenderSyslog
    (contentFilter : option string) (severityFilter : TRI_log_severity_e)
    (consume : bool) (p : process) : TRI_error * process :=
  let b := {| type := APPENDER_TYPE_SYSLOG;
              _contentFilter := c_str <$> contentFilter;
              _severityFilter := severityFilter;
              _consume := consume |} in
  (TRI_ERROR_NO_ERROR,
   {| engine := set_appenders (Appenders (engine p) ++ [b]) (engine p);
      objects := objects p
                 ++ [SyslogObject {| syslog_base := b; _opened := true |}];
      system := system p;
      Initialized := Initialized p;
      ShutdownInitalized := ShutdownInitalized p;
      atexit := atexit p;
      LogfileName := LogfileName p;
      LoggingThreadActive := LoggingThreadActive p;
      written := written p; syslogged := syslogged p |}).

(** [TRI_GetFilenameLogging()] *)
Definition TRI_GetFilenameLogging (p : process) : option string :=
  LogfileName p.

(** *** What the appenders do with a message *)

(** [log_appender_file_t::details()] *)
Definition file_details (a : log_appender_file_t) : string :=
  if bool_decide (_filename a = EmptyString) then EmptyString
  else if negb (_fd a =? STDOUT_FILENO) && negb (_fd a =? STDERR_FILENO)
       then ("More error details may be provided in the logfile '"
               +:+ _filename a +:+ "'")%string
       else EmptyString.

(** The virtual [details()]. *)
Definition details (o : appender_object) : string :=
  match o with
  | FileObject a => file_details a
  | SyslogObject _ => "More error details may be provided in the syslog"
  end.

(** [log_appender_file_t::logMessage(level, severity, msg, length)].
    [escape] is [TRI_EscapeControlsCString], with [None] for the null
    pointer it returns when it cannot allocate. *)
Definition file_logMessage (escape : string -> Z -> option string)
    (a : log_appender_file_t) (level : Z) (severity : TRI_log_severity_e)
    (msg : string) (length : Z) (p : process) : process :=
  let fd := _fd a in
  if fd <? 0 then p
  else
    let fatal := (level =? TRI_LOG_LEVEL_FATAL) && _fatal2stderr a in
    let p :=
      if fatal then
        let e := WriteStderr level msg (engine p) in
        let e := foldl (fun e it =>
                          let d := details it in
                          if bool_decide (d = EmptyString) then e
                          else WriteStderr TRI_LOG_LEVEL_INFO d e)
                       e (objects p) in
        set_engine e p
      else p in
    if fatal && bool_decide (_filename a = EmptyString)
       && ((fd =? STDOUT_FILENO) || (fd =? STDERR_FILENO))
    then p
    else
      match escape msg length with
      | Some escaped =>
          {| engine := engine p; objects := objects p; system := system p;
             Initialized := Initialized p;
             ShutdownInitalized := ShutdownInitalized p; atexit := atexit p;
             LogfileName := LogfileName p;
             LoggingThreadActive := LoggingThreadActive p;
             written := written p ++ [(fd, escaped)];
             syslogged := syslogged p |}
      | None => p
      end.

(** The two [switch] statements of the syslog appender. *)
Definition priority_of (level : Z) (severity : TRI_log_severity_e)
    : syslog_priority :=
  let priority :=
    match severity with
    | TRI_LOG_SEVERITY_EXCEPTION => LOG_CRIT
    | TRI_LOG_SEVERITY_FUNCTIONAL => LOG_NOTICE
    | TRI_LOG_SEVERITY_USAGE => LOG_INFO
    | TRI_LOG_SEVERITY_TECHNICAL => LOG_INFO
    | TRI_LOG_SEVERITY_DEVELOPMENT => LOG_DEBUG
    | _ => LOG_DEBUG
    end in
  if bool_decide (severity = TRI_LOG_SEVERITY_HUMAN) then
    if level =? TRI_LOG_LEVEL_FATAL then LOG_CRIT
    else if level =? TRI_LOG_LEVEL_ERROR then LOG_ERR
    else if level =? TRI_LOG_LEVEL_WARNING then LOG_WARNING
    else if level =? TRI_LOG_LEVEL_INFO then LOG_NOTICE
    else if level =? TRI_LOG_LEVEL_DEBUG then LOG_INFO
    else if level =? TRI_LOG_LEVEL_TRACE then LOG_DEBUG
    else priority
  else priority.

(** [strchr(s, c)] for a [c] other than NUL: the buffer from the first
    [c] of the C string on, [None] for the null pointer. *)
Fixpoint strchr (s : string) (c : ascii) : option string :=
  match s with
  | EmptyString => None
  | String d r =>
      if Ascii.eqb d NUL then None
      else if Ascii.eqb d c then Some s
      else strchr r c
  end.

(** The text that the syslog appender hands to [syslog] with ["%s"]. *)
Definition syslog_text (msg : string) : string :=
  match strchr msg "]" with
  | None => c_str msg
  | Some ptr =>
      match ptr with
      | String _ (String d r) =>
          if Ascii.eqb d NUL then c_str ptr else c_str r
      | _ => c_str ptr
      end
  end.

(** Whether a text holds neither a [']'] nor a NUL. *)
Fixpoint no_bracket (s : string) : bool :=
  match s with
  | EmptyString => true
  | String c r =>
      negb (Ascii.eqb c NUL) && negb (Ascii.eqb c "]") && no_bracket r
  end.

(** [log_appender_syslog_t::logMessage(level, severity, msg, length)] *)
Definition syslog_logMessage (a : log_appender_syslog_t) (level : Z)
    (severity : TRI_log_severity_e) (msg : string) (length : Z)
    (p : process) : process :=
  if _opened a then
    {| engine := engine p; objects := objects p; system := system p;
       Initialized := Initialized p;
       ShutdownInitalized := ShutdownInitalized p; atexit := atexit p;
       LogfileName := LogfileName p;
       LoggingThreadActive := LoggingThreadActive p;
       written := written p;
       syslogged := syslogged p
                    ++ [(priority_of level severity, syslog_text msg)] |}
  else p.

(** The virtual [logMessage]. *)
Definition object_logMessage (escape : string -> Z -> option string)
    (o : appender_object) (level : Z) (severity : TRI_log_severity_e)
    (msg : string) (length : Z) (p : process) : process :=
  match o with
  | FileObject a => file_logMessage escape a level severity msg length p
  | SyslogObject a => syslog_logMessage a level severity msg length p
  end.

(** *** Start and end *)

(** [TRI_InitializeLogging(threaded)]. The logging thread it starts
    runs [MessageQueueWorker], which reports itself active. *)
Definition TRI_InitializeLogging (threaded : bool) (p : process) : process :=
  if 0 <? Initialized p then p
  else
    {| engine := Runs.set_threaded threaded (set_active true (engine p));
       objects := objects p; system := system p;
       Initialized := 1;
       ShutdownInitalized := true;
       atexit := if ShutdownInitalized p then atexit p else S (atexit p);
       LogfileName := LogfileName p;
       LoggingThreadActive :=
         if threaded then true else LoggingThreadActive p;
       written := written p; syslogged := syslogged p |}.

(** What is left of [MessageQueueWorker] once nothing is enqueued any
    more: the iterations until the loop is left, then the cleanup. The
    loop is unrolled [fuel] times, and [sl] is the worker's interval as
    it stands. *)
Fixpoint MessageQueueWorker_finish (fuel : nat) (st : state) (sl : Z)
    : option state :=
  match fuel with
  | O => None
  | S fuel =>
      let '(st, sl, continue) := MessageQueueWorker_iteration st sl in
      if continue then MessageQueueWorker_finish fuel st sl
      else Some (set_queue [] st)
  end.

(** The virtual [closeLog()], which the destructors call. *)
Definition closeLog_object (o : appender_object) (w : os)
    : appender_object * os :=
  match o with
  | FileObject a => let '(a, w) := closeLog a w in (FileObject a, w)
  | SyslogObject a =>
      (SyslogObject {| syslog_base := syslog_base a; _opened := false |}, w)
  end.

(** [CloseLogging()]: every appender is deleted, which closes its log,
    and the registry is cleared. *)
Definition CloseLogging (p : process) : process :=
  {| engine := set_appenders [] (engine p);
     objects := [];
     system := foldl (fun w o => (closeLog_object o w).2)
                     (system p) (objects p);
     Initialized := Initialized p;
     ShutdownInitalized := ShutdownInitalized p; atexit := atexit p;
     LogfileName := LogfileName p;
     LoggingThreadActive := LoggingThreadActive p;
     written := written p; syslogged := syslogged p |}.

(** [TRI_ShutdownLogging(clearBuffers)]. Joining the logging thread lets
    the worker finish, in at most [fuel] iterations from its interval
    [sl]; [None] when it has not finished by then. *)
Definition TRI_ShutdownLogging (fuel : nat) (sl : Z) (clearBuffers : bool)
    (p : process) : option (bool * process) :=
  if negb (Initialized p =? 1) then
    if Initialized p =? 0 then Some (ThreadedLogging (engine p), p)
    else
      Some (false,
            set_engine
              (WriteStderr TRI_LOG_LEVEL_ERROR
                 "race condition detected in logger" (engine p)) p)
  else
    let e := set_active false (engine p) in
    e ← (if ThreadedLogging e then MessageQueueWorker_finish fuel e sl
         else Some e);
    let p :=
      CloseLogging
        {| engine := e; objects := objects p; system := system p;
           Initialized := 1;
           ShutdownInitalized := ShutdownInitalized p; atexit := atexit p;
           LogfileName := None;
           LoggingThreadActive :=
             if ThreadedLogging e then false else LoggingThreadActive p;
           written := written p; syslogged := syslogged p |} in
    let e := set_prefix None (engine p) in
    let e := if clearBuffers
             then set_buffers (Buffer.clear_buffers (Buffers e)) e
             else e in
    Some (ThreadedLogging e,
          {| engine := e; objects := objects p; system := system p;
             Initialized := 0;
             ShutdownInitalized := ShutdownInitalized p; atexit := atexit p;
             LogfileName := LogfileName p;
             LoggingThreadActive := LoggingThreadActive p;
             written := written p; syslogged := syslogged p |}).

(** *** Reopening and flushing *)

(** The virtual [reopenLog()]; the syslog appender's does nothing. *)
Definition reopenLog_object (ret : Z) (o : appender_object) (w : os)
    : appender_object * os :=
  match o with
  | FileObject a => let '(a, w) := reopenLog ret a w in (FileObject a, w)
  | SyslogObject _ => (o, w)
  end.

(** The loop of [TRI_ReopenLogging] from position [i] on; [rets i] is
    what [TRI_CREATE] returns to the appender at position [i]. *)
Fixpoint reopen_from (rets : nat -> Z) (i : nat)
    (objs : list appender_object) (w : os)
    : list appender_object * os :=
  match objs with
  | [] => ([], w)
  | o :: rest =>
      let '(o, w) := reopenLog_object (rets i) o w in
      let '(rest, w) := reopen_from rets (S i) rest w in
      (o :: rest, w)
  end.

(** [TRI_ReopenLogging()] *)
Definition TRI_ReopenLogging (rets : nat -> Z) (p : process) : process :=
  let '(objs, w) := reopen_from rets 0 (objects p) (system p) in
  {| engine := engine p; objects := objs; system := w;
     Initialized := Initialized p;
     ShutdownInitalized := ShutdownInitalized p; atexit := atexit p;
     LogfileName := LogfileName p;
     LoggingThreadActive := LoggingThreadActive p;
     written := written p; syslogged := syslogged p |}.

(** The loop [while (++tries < 500)] of [TRI_FlushLogging], unrolled
    [fuel] times. [empty k] tells whether the caller finds the queue
    empty when it looks for the [k]-th time (counted from 0): the worker
    empties it meanwhile. The result is the number of calls of
    [usleep(10000)]. *)
Fixpoint flush_loop (fuel : nat) (tries : Z) (empty : nat -> bool)
    (k : nat) : option nat :=
  match fuel with
  | O => None
  | S fuel =>
      let tries := to_int (tries + 1) in
      if tries <? 500 then
        if empty k then Some k
        else flush_loop fuel tries empty (S k)
      else Some k
  end.

(** [TRI_FlushLogging()] *)
Definition TRI_FlushLogging (fuel : nat) (empty : nat -> bool) (p : process)
    : option nat :=
  if negb (Initialized p =? 1) then Some 0%nat
  else if ThreadedLogging (engine p) then flush_loop fuel 0 empty 0
  else Some 0%nat.

(** *** Runs of the life cycle *)

(** A call of one of the functions above. *)
Inductive call : Type :=
| Initialize (threaded : bool)
| Shutdown (sl : Z) (clearBuffers : bool)
| CreateFile (ret : Z) (filename contentFilter : option string)
             (severityFilter : TRI_log_severity_e)
             (consume fatal2stderr : bool)
| CreateSyslog (contentFilter : option string)
               (severityFilter : TRI_log_severity_e) (consume : bool)
| Reopen (rets : nat -> Z)
| Emission (amb : ambient) (e : Runs.emission)
| Work (sl : Z).

(** The effect of a call: [Emission] is a record that reaches
    [OutputMessage], [Work] one iteration of the logging thread, if
    there is one, with the interval [sl]. The worker is given [fuel]
    iterations to finish at a shutdown. *)
Definition run_call (fuel : nat) (c : call) (p : process) : option process :=
  match c with
  | Initialize threaded => Some (TRI_InitializeLogging threaded p)
  | Shutdown sl clearBuffers =>
      snd <$> TRI_ShutdownLogging fuel sl clearBuffers p
  | CreateFile ret filename contentFilter severityFilter consume
               fatal2stderr =>
      Some (TRI_CreateLogAppenderFile ret filename contentFilter
              severityFilter consume fatal2stderr p).2
  | CreateSyslog contentFilter severityFilter consume =>
      Some (TRI_CreateLogAppenderSyslog contentFilter severityFilter
              consume p).2
  | Reopen rets => Some (TRI_ReopenLogging rets p)
  | Emission amb e =>
      e' ← OutputMessage amb (Runs.e_level e) (Runs.e_severity e)
             (Runs.e_message e) (Runs.e_length e) (Runs.e_offset e)
             (engine p);
      Some (set_engine e' p)
  | Work sl =>
      Some (if LoggingThreadActive p
            then set_engine (MessageQueueWorker_iteration (engine p) sl).1.1 p
            else p)
  end.

(** The calls made one after the other. *)
Fixpoint run (fuel : nat) (calls : list call) (p : process) : option process :=
  match calls with
  | [] => Some p
  | c :: rest => p' ← run_call fuel c p; run fuel rest p'
  end.

(** What holds of the statics between any two calls: the registry and
    the appender objects are in step, the state is either initialised
    or not, logging is active exactly when it is initialised, the exit
    handler has been registered once after the first initialisation and
    never before, the logging thread exists exactly while threaded
    logging is initialised, messages are queued only while it exists,
    and the ring buffers have their shape. *)
Definition consistent (p : process) : Prop :=
  Appenders (engine p) = base_of <$> objects p
  /\ (Initialized p = 0 \/ Initialized p = 1)
  /\ LoggingActive (engine p) = (Initialized p =? 1)
  /\ atexit p = (if ShutdownInitalized p then 1 else 0)%nat
  /\ (Initialized p = 1 -> ShutdownInitalized p = true)
  /\ LoggingThreadActive p
     = (Initialized p =? 1) && ThreadedLogging (engine p)
  /\ (LoggingThreadActive p = false -> LogMessageQueue (engine p) = [])
  /\ Buffer.wf (Buffers (engine p)).

End Lifecycle.

(* ===================================================================== *)
(** * Properties *)
(* ===================================================================== *)

(** ** Strings and fixed-width integers *)

Lemma string_length_app (s1 s2 : string) :
  String.length (s1 +:+ s2) = (String.length s1 + String.length s2)%nat.
Proof. induction s1 as [|c s1 IH]; simpl; [done | by rewrite IH]. Qed.

Lemma wrap64_small z : 0 <= z < 2 ^ 64 -> wrap64 z = z.
Proof. intros Hz. unfold wrap64, wrap. by apply Z.mod_small. Qed.

Lemma to_int_small z : - 2 ^ 31 <= z < 2 ^ 31 -> to_int z = z.
Proof.
  intros Hz. unfold to_int, to_signed.
  destruct (Z.le_gt_cases 0 z) as [Hnn|Hneg].
  - rewrite Z.mod_small by lia.
    destruct (Z.ltb_spec z (2 ^ (32 - 1))); [done | lia].
  - replace (z mod 2 ^ 32) with (z + 2 ^ 32).
    + destruct (Z.ltb_spec (z + 2 ^ 32) (2 ^ (32 - 1))); lia.
    + apply Z.mod_unique with (q := -1); lia.
Qed.

Lemma to_int64_small z : - 2 ^ 63 <= z < 2 ^ 63 -> to_int64 z = z.
Proof.
  intros Hz. unfold to_int64, to_signed.
  destruct (Z.le_gt_cases 0 z) as [Hnn|Hneg].
  - rewrite Z.mod_small by lia.
    destruct (Z.ltb_spec z (2 ^ (64 - 1))); [done | lia].
  - replace (z mod 2 ^ 64) with (z + 2 ^ 64).
    + destruct (Z.ltb_spec (z + 2 ^ 64) (2 ^ (64 - 1))); lia.
    + apply Z.mod_unique with (q := -1); lia.
Qed.

(** ** The level gate *)

Section LevelGate.
Import Logger.

Lemma level_int_inj l1 l2 : level_int l1 = level_int l2 -> l1 = l2.
Proof. destruct l1, l2; simpl; intros H; try discriminate H; reflexivity. Qed.

(** C3. With a topic override other than DEFAULT the two-argument gate
    compares the level against the override; with DEFAULT it compares
    against the global level; the one-argument gate always compares
    against the global level. *)
Theorem isEnabled_spec (glob L : LogLevel) (T : LogTopic) :
  (topic_level T <> DEFAULT ->
     (isEnabled_topic glob L T = true <->
      level_int L <= level_int (topic_level T)))
  /\ (topic_level T = DEFAULT ->
     (isEnabled_topic glob L T = true <-> level_int L <= level_int glob))
  /\ (isEnabled glob L = true <-> level_int L <= level_int glob).
Proof.
  unfold isEnabled_topic, isEnabled.
  split; [|split].
  - intros Hne. rewrite decide_False by exact Hne. apply Z.leb_le.
  - intros Hdef. rewrite decide_True by exact Hdef. apply Z.leb_le.
  - apply Z.leb_le.
Qed.

End LevelGate.

(** ** The dispatch loop *)

Section Dispatch.
Import Level Appender.

Context {W : Type} (logMessage : nat -> TRI_log_appender_t -> W -> W).
Variable severity : TRI_log_severity_e.
Variable message : string.

(** The recording [logMessage] of [invoked]. *)
Local Abbreviation record :=
  (fun (i : nat) (_ : TRI_log_appender_t) (calls : list nat) => calls ++ [i]).

Lemma dispatch_from_record_app i appenders calls :
  dispatch_from record i appenders severity message calls =
  calls ++ dispatch_from record i appenders severity message [].
Proof.
  revert i calls. induction appenders as [|it rest IH]; intros i calls; simpl.
  - by rewrite app_nil_r.
  - destruct (passes it severity message); [|apply IH].
    destruct (_consume it); [done|].
    rewrite (IH (S i) (calls ++ [i])), (IH (S i) [i]).
    by rewrite <- app_assoc.
Qed.

(** The positions recorded from position [i] on, by recursion on the
    registry. *)
Lemma dispatch_from_record_cons i it rest :
  dispatch_from record i (it :: rest) severity message [] =
  if passes it severity message then
    i :: (if _consume it then []
          else dispatch_from record (S i) rest severity message [])
  else dispatch_from record (S i) rest severity message [].
Proof.
  simpl. destruct (passes it severity message); [|done].
  destruct (_consume it); [done|].
  by rewrite dispatch_from_record_app.
Qed.

Lemma dispatch_from_record_ge i appenders k :
  k ∈ dispatch_from record i appenders severity message [] -> (i <= k)%nat.
Proof.
  revert i. induction appenders as [|it rest IH]; intros i.
  - simpl. by intros ?%elem_of_nil.
  - rewrite dispatch_from_record_cons.
    destruct (passes it severity message).
    + intros [->|Hk]%elem_of_cons; [lia|].
      destruct (_consume it); [by apply elem_of_nil in Hk|].
      apply IH in Hk. lia.
    + intros Hk%IH. lia.
Qed.

Lemma dispatch_from_record_sorted i appenders :
  StronglySorted lt (dispatch_from record i appenders severity message []).
Proof.
  revert i. induction appenders as [|it rest IH]; intros i.
  - constructor.
  - rewrite dispatch_from_record_cons.
    destruct (passes it severity message); [|apply IH].
    constructor.
    + destruct (_consume it); [constructor | apply IH].
    + destruct (_consume it); [constructor|].
      apply Forall_forall. intros k Hk%dispatch_from_record_ge. lia.
Qed.

(** Position [i + k] is recorded exactly when the appender there passes
    both filters and no passing appender before it consumes. *)
Lemma dispatch_from_record_elem i appenders k :
  (i + k)%nat ∈ dispatch_from record i appenders severity message [] <->
  exists it, appenders !! k = Some it /\ passes it severity message = true /\
    forall j jt, (j < k)%nat -> appenders !! j = Some jt ->
      passes jt severity message = true -> _consume jt = false.
Proof.
  revert i k. induction appenders as [|it rest IH]; intros i k.
  - simpl. split; [by intros ?%elem_of_nil|]. by intros (? & ? & _).
  - rewrite dispatch_from_record_cons. destruct k as [|k].
    + rewrite Nat.add_0_r. simpl. split.
      * intros Hin. exists it. split; [done|]. split; [|intros; lia].
        destruct (passes it severity message); [done|].
        apply dispatch_from_record_ge in Hin. lia.
      * intros (it' & [= <-] & -> & _). apply elem_of_cons. by left.
    + replace (i + S k)%nat with (S i + k)%nat by lia. split.
      * intros Hin.
        assert (Hrest : (S i + k)%nat ∈
                  dispatch_from record (S i) rest severity message [] /\
                (passes it severity message = true -> _consume it = false)).
        { destruct (passes it severity message); [|done].
          apply elem_of_cons in Hin as [?|Hin]; [lia|].
          destruct (_consume it); [by apply elem_of_nil in Hin|done]. }
        destruct Hrest as [(jt & Hjt & Hp & Hbefore)%IH Hit].
        exists jt. split; [done|]. split; [done|].
        intros [|j] jt' Hlt; simpl.
        -- by intros [= <-].
        -- apply Hbefore. lia.
      * intros (jt & Hjt & Hp & Hbefore). simpl in Hjt.
        assert (Hin : (S i + k)%nat ∈
                  dispatch_from record (S i) rest severity message []).
        { apply IH. exists jt. split; [done|]. split; [done|].
          intros j jt' Hlt Hj. apply (Hbefore (S j)); [lia|done]. }
        destruct (passes it severity message) eqn:Hpit; [|done].
        rewrite (Hbefore 0%nat it); [|lia|done|done].
        apply elem_of_cons. by right.
Qed.

(** Whatever [logMessage] does, the loop applies it at the recorded
    positions, in their order, and does nothing else. *)
Lemma dispatch_from_calls i appenders w :
  dispatch_from logMessage i appenders severity message w =
  foldl (fun w k =>
           match appenders !! (k - i)%nat with
           | Some it => logMessage k it w
           | None => w
           end)
        w (dispatch_from record i appenders severity message []).
Proof.
  revert i w. induction appenders as [|it rest IH]; intros i w.
  - done.
  - rewrite dispatch_from_record_cons. simpl.
    assert (Hshift : forall w' l,
      Forall (fun k => (S i <= k)%nat) l ->
      foldl (fun w k => match (it :: rest) !! (k - i)%nat with
                        | Some it => logMessage k it w | None => w end) w' l =
      foldl (fun w k => match rest !! (k - S i)%nat with
                        | Some it => logMessage k it w | None => w end) w' l).
    { intros w' l. revert w'. induction l as [|k l IHl]; intros w' Hl; [done|].
      apply Forall_cons in Hl as [Hk Hl]. simpl. rewrite <- IHl by done.
      replace (k - i)%nat with (S (k - S i)) by lia. done. }
    destruct (passes it severity message).
    + simpl. rewrite Nat.sub_diag. simpl.
      destruct (_consume it); [done|].
      rewrite IH. symmetry. apply Hshift.
      apply Forall_forall. intros k Hk%dispatch_from_record_ge. lia.
    + rewrite IH. symmetry. apply Hshift.
      apply Forall_forall. intros k Hk%dispatch_from_record_ge. lia.
Qed.

End Dispatch.

(** An appender is skipped exactly when its severity filter is set and
    differs from the record's severity, or its content filter is set and
    is not contained in the message. *)
Lemma passes_false_iff (it : Appender.TRI_log_appender_t)
    (severity : Level.TRI_log_severity_e) (message : string) :
  Appender.passes it severity message = false <->
  (Appender._severityFilter it <> Level.TRI_LOG_SEVERITY_UNKNOWN /\
   Appender._severityFilter it <> severity)
  \/ (exists filter, Appender._contentFilter it = Some filter /\
        Appender.TRI_IsContainedString message filter = false).
Proof.
  unfold Appender.passes.
  destruct (bool_decide_reflect
              (Appender._severityFilter it <> Level.TRI_LOG_SEVERITY_UNKNOWN))
    as [Hset|Hunset];
  destruct (bool_decide_reflect (Appender._severityFilter it <> severity))
    as [Hne|Heq]; simpl.
  - split; [by left | done].
  - destruct (Appender._contentFilter it) as [filter|].
    + split; [intros ?; right; by exists filter|].
      intros [[_ ?]|(f & [= <-] & ?)]; [contradiction | done].
    + split; [done|]. intros [[_ ?]|(f & [=] & _)]. contradiction.
  - destruct (Appender._contentFilter it) as [filter|].
    + split; [intros ?; right; by exists filter|].
      intros [[? _]|(f & [= <-] & ?)]; [contradiction | done].
    + split; [done|]. intros [[? _]|(f & [=] & _)]. contradiction.
  - destruct (Appender._contentFilter it) as [filter|].
    + split; [intros ?; right; by exists filter|].
      intros [[? _]|(f & [= <-] & ?)]; [contradiction | done].
    + split; [done|]. intros [[? _]|(f & [=] & _)]. contradiction.
Qed.

(** C2. Dispatch runs through the registry in registration order: the
    positions at which [logMessage] is called are increasing, a position
    is called exactly when its appender passes the severity and content
    filters and no passing appender before it has the consume flag set,
    an appender fails the filters exactly when its severity filter is
    set and differs from the record's severity or its content filter is
    set and not contained in the message, any [logMessage] is applied at
    exactly the called positions, and of two passing appenders the second
    is called iff the first does not consume. *)
Theorem dispatch_registration_order_consume
    (appenders : list Appender.TRI_log_appender_t)
    (severity : Level.TRI_log_severity_e) (message : string) :
  StronglySorted lt (Appender.invoked appenders severity message)
  /\ (forall k, k ∈ Appender.invoked appenders severity message <->
        exists it, appenders !! k = Some it /\
          Appender.passes it severity message = true /\
          forall j jt, (j < k)%nat -> appenders !! j = Some jt ->
            Appender.passes jt severity message = true ->
            Appender._consume jt = false)
  /\ (forall it, Appender.passes it severity message = false <->
        (Appender._severityFilter it <> Level.TRI_LOG_SEVERITY_UNKNOWN /\
         Appender._severityFilter it <> severity)
        \/ (exists filter, Appender._contentFilter it = Some filter /\
              Appender.TRI_IsContainedString message filter = false))
  /\ (forall W (logMessage : nat -> Appender.TRI_log_appender_t -> W -> W) w,
        Appender.dispatch logMessage appenders severity message w =
        foldl (fun w k => match appenders !! k with
                          | Some it => logMessage k it w
                          | None => w
                          end)
              w (Appender.invoked appenders severity message))
  /\ (forall a b, appenders = [a; b] ->
        Appender.passes a severity message = true ->
        Appender.passes b severity message = true ->
        (1%nat ∈ Appender.invoked appenders severity message <->
         Appender._consume a = false)).
Proof.
  unfold Appender.invoked, Appender.dispatch.
  split; [apply dispatch_from_record_sorted|].
  split; [intros k; apply (dispatch_from_record_elem severity message 0)|].
  split; [intros it; apply passes_false_iff|].
  split.
  - intros W logMessage w. rewrite dispatch_from_calls.
    generalize (Appender.dispatch_from
                  (fun (i : nat) (_ : Appender.TRI_log_appender_t) calls =>
                     calls ++ [i]) 0 appenders severity message []).
    intros l. revert w. induction l as [|k l IH]; intros w; [done|].
    simpl. rewrite Nat.sub_0_r. apply IH.
  - intros a b -> Ha Hb. simpl. rewrite Ha, Hb.
    destruct (Appender._consume a); simpl.
    + split; [|done]. intros Hin.
      apply elem_of_cons in Hin as [Hin|Hin]; [lia | by apply elem_of_nil in Hin].
    + split; [done|]. intros _.
      destruct (Appender._consume b);
        (apply elem_of_cons; right; apply elem_of_cons; by left).
Qed.

(** A property of the world that every [logMessage] call keeps is kept by
    the whole loop. *)
Lemma dispatch_from_invariant {W} (P : W -> Prop)
    (logMessage : nat -> Appender.TRI_log_appender_t -> W -> W)
    i appenders severity message w :
  (forall k it w, P w -> P (logMessage k it w)) ->
  P w -> P (Appender.dispatch_from logMessage i appenders severity message w).
Proof.
  intros Hlog. revert i w.
  induction appenders as [|it rest IH]; intros i w Hw; simpl; [done|].
  destruct (Appender.passes it severity message); [|by apply IH].
  destruct (Appender._consume it); [by apply Hlog|].
  apply IH. by apply Hlog.
Qed.

(** ** The idle interval of the queue worker *)

Section Backoff.
Import Engine.

Lemma deliver_batch_same_control buffer st :
  same_control st
    (foldl (fun st msg =>
              Appender.dispatch (logMessage msg) (Appenders st)
                                (_severity msg) (_message msg) st)
           st buffer).
Proof.
  revert st. induction buffer as [|msg buffer IH]; intros st; simpl.
  - by repeat split.
  - set (st1 := Appender.dispatch _ _ _ _ st).
    assert (H1 : same_control st st1).
    { subst st1. unfold Appender.dispatch.
      apply (dispatch_from_invariant (same_control st)); [|by repeat split].
      intros k it w (? & ? & ?). by repeat split. }
    destruct H1 as (Ha & Hq & Hp). destruct (IH st1) as (Ha' & Hq' & Hp').
    repeat split; congruence.
Qed.

(** One iteration: an empty buffer adds 1000 microseconds, up to the
    ceiling of one second; a non-empty one resets the interval. *)
Lemma iteration_interval st sl :
  100 <= sl <= 1000000 ->
  (MessageQueueWorker_iteration st sl).1.2 =
    if bool_decide (LogMessageQueue st = [])
    then Z.min (sl + 1000) 1000000 else 100.
Proof.
  intros Hsl. unfold MessageQueueWorker_iteration.
  destruct (LogMessageQueue st) as [|msg q] eqn:Hq; simpl.
  - unfold to_int, to_signed.
    rewrite Z.mod_small by lia.
    replace (sl + 1000 <? 2 ^ (32 - 1)) with true by (symmetry; apply Z.ltb_lt; lia).
    destruct (Z.ltb_spec 1000000 (sl + 1000)); lia.
  - done.
Qed.

Lemma iteration_queue_empty st sl :
  LogMessageQueue (MessageQueueWorker_iteration st sl).1.1 = [].
Proof.
  unfold MessageQueueWorker_iteration.
  destruct (LogMessageQueue st) as [|msg q] eqn:Hq; simpl; [done|].
  set (st0 := set_queue [] st).
  pose proof (deliver_batch_same_control (msg :: q) st0) as (_ & Hq' & _).
  simpl in Hq'. exact Hq'.
Qed.

Lemma iteration_active st sl :
  LoggingActive st = true ->
  LoggingActive (MessageQueueWorker_iteration st sl).1.1 = true /\
  (MessageQueueWorker_iteration st sl).2 = true.
Proof.
  intros Hact. unfold MessageQueueWorker_iteration.
  destruct (LogMessageQueue st) as [|msg q] eqn:Hq; simpl.
  - by rewrite Hact.
  - set (st0 := set_queue [] st).
    pose proof (deliver_batch_same_control (msg :: q) st0) as (Ha & _ & _).
    simpl in Ha. rewrite Ha. simpl. by rewrite Hact.
Qed.

Lemma iteration_interval_range st sl :
  100 <= sl <= 1000000 ->
  100 <= (MessageQueueWorker_iteration st sl).1.2 <= 1000000.
Proof.
  intros Hsl. rewrite iteration_interval by done. case_bool_decide; lia.
Qed.

(** A run over [l1 ++ l2] is a run over [l1] followed by one over [l2],
    as long as logging stays active. *)
Lemma worker_from_app l1 l2 st sl :
  LoggingActive st = true ->
  MessageQueueWorker_from (l1 ++ l2) st sl =
  MessageQueueWorker_from l2 (MessageQueueWorker_from l1 st sl).1
                             (MessageQueueWorker_from l1 st sl).2.
Proof.
  revert st sl. induction l1 as [|batch l1 IH]; intros st sl Hact; [done|].
  simpl.
  set (st1 := set_queue (LogMessageQueue st ++ batch) st).
  assert (Hact1 : LoggingActive st1 = true) by done.
  destruct (iteration_active st1 sl Hact1) as [Hact2 Hgo].
  destruct (MessageQueueWorker_iteration st1 sl) as [[st2 sl2] go].
  simpl in *. subst go. by apply IH.
Qed.

Lemma worker_from_active l st sl :
  LoggingActive st = true ->
  LoggingActive (MessageQueueWorker_from l st sl).1 = true.
Proof.
  revert st sl. induction l as [|batch l IH]; intros st sl Hact; [done|].
  simpl.
  set (st1 := set_queue (LogMessageQueue st ++ batch) st).
  assert (Hact1 : LoggingActive st1 = true) by done.
  destruct (iteration_active st1 sl Hact1) as [Hact2 Hgo].
  destruct (MessageQueueWorker_iteration st1 sl) as [[st2 sl2] go].
  simpl in *. subst go. by apply IH.
Qed.

(** [k] idle iterations in a row, entered with an empty queue. *)
Lemma worker_from_idle k st sl :
  LoggingActive st = true -> LogMessageQueue st = [] ->
  100 <= sl <= 1000000 ->
  (MessageQueueWorker_from (replicate k []) st sl).2 =
  Z.min (sl + 1000 * Z.of_nat k) 1000000.
Proof.
  revert st sl. induction k as [|k IH]; intros st sl Hact Hq Hsl.
  - simpl. lia.
  - simpl replicate. simpl MessageQueueWorker_from.
    set (st1 := set_queue (LogMessageQueue st ++ []) st).
    assert (Hact1 : LoggingActive st1 = true) by done.
    assert (Hq1 : LogMessageQueue st1 = []) by (subst st1; simpl; by rewrite Hq).
    pose proof (iteration_active st1 sl Hact1) as [Hact2 Hgo].
    pose proof (iteration_queue_empty st1 sl) as Hq2.
    pose proof (iteration_interval st1 sl Hsl) as Hsl2.
    rewrite bool_decide_true in Hsl2 by done.
    destruct (MessageQueueWorker_iteration st1 sl) as [[st2 sl2] go].
    simpl in *. subst go sl2.
    rewrite IH by (done || lia). lia.
Qed.

(** After an iteration that found a non-empty batch the interval is 100
    and the queue is empty. *)
Lemma worker_from_batch batch st sl :
  LoggingActive st = true -> batch <> [] ->
  (MessageQueueWorker_from [batch] st sl).2 = 100 /\
  LogMessageQueue (MessageQueueWorker_from [batch] st sl).1 = [] /\
  LoggingActive (MessageQueueWorker_from [batch] st sl).1 = true.
Proof.
  intros Hact Hne. simpl.
  set (st1 := set_queue (LogMessageQueue st ++ batch) st).
  assert (Hact1 : LoggingActive st1 = true) by done.
  assert (Hq1 : LogMessageQueue st1 <> []).
  { subst st1. simpl. intros [_ ?]%app_eq_nil. done. }
  pose proof (iteration_active st1 sl Hact1) as [Hact2 Hgo].
  pose proof (iteration_queue_empty st1 sl) as Hq2.
  assert (Hsl2 : (MessageQueueWorker_iteration st1 sl).1.2 = 100).
  { unfold MessageQueueWorker_iteration.
    destruct (LogMessageQueue st1); [done|]. done. }
  destruct (MessageQueueWorker_iteration st1 sl) as [[st2 sl2] go].
  simpl in *. subst go. done.
Qed.

End Backoff.

(** C8 (as the code has it). The worker's idle interval starts at 100
    microseconds; an iteration whose swapped-out batch is empty adds 1000
    microseconds to it, up to the ceiling of one second; an iteration that
    processed a non-empty batch resets it to 100. So after [k] idle
    iterations from the start, or following a non-empty batch, the
    interval is [min (100 + 1000 k) 1000000]. *)
Theorem worker_interval_additive (st : Engine.state)
    (arrivals : list (list Engine.log_message_t))
    (batch : list Engine.log_message_t) (k : nat) :
  Engine.LoggingActive st = true ->
  Engine.LogMessageQueue st = [] ->
  batch <> [] ->
  (Engine.MessageQueueWorker [] st).2 = 100
  /\ (Engine.MessageQueueWorker (replicate k []) st).2 =
       Z.min (100 + 1000 * Z.of_nat k) 1000000
  /\ (Engine.MessageQueueWorker (arrivals ++ [batch]) st).2 = 100
  /\ (Engine.MessageQueueWorker (arrivals ++ [batch] ++ replicate k []) st).2 =
       Z.min (100 + 1000 * Z.of_nat k) 1000000.
Proof.
  intros Hact Hq Hne. unfold Engine.MessageQueueWorker.
  split; [done|].
  split; [by apply worker_from_idle|].
  pose proof (worker_from_active arrivals st 100 Hact) as Hact1.
  pose proof (worker_from_batch batch
                (Engine.MessageQueueWorker_from arrivals st 100).1
                (Engine.MessageQueueWorker_from arrivals st 100).2
                Hact1 Hne) as (Hsl & Hq2 & Hact2).
  split.
  - rewrite worker_from_app by done. exact Hsl.
  - rewrite app_assoc.
    rewrite (worker_from_app (arrivals ++ [batch])) by done.
    rewrite (worker_from_app arrivals [batch]) by done.
    rewrite worker_from_idle; [by rewrite Hsl | done | done | lia].
Qed.

(** The interval after two idle iterations and after a batch of one
    message followed by two idle iterations, in a state with logging
    active, no appenders and an empty queue. *)
Lemma worker_interval_additive_witness :
  let st := Engine.mkState true true [] [] Buffer.initial None false 0 [] [] in
  let msg := Engine.mkMessage 4 Level.TRI_LOG_SEVERITY_HUMAN "m" 1 in
  (Engine.MessageQueueWorker [] st).2 = 100
  /\ (Engine.MessageQueueWorker (replicate 2 []) st).2 =
       Z.min (100 + 1000 * Z.of_nat 2) 1000000
  /\ (Engine.MessageQueueWorker ([[]] ++ [[msg]]) st).2 = 100
  /\ (Engine.MessageQueueWorker ([[]] ++ [[msg]] ++ replicate 2 []) st).2 =
       Z.min (100 + 1000 * Z.of_nat 2) 1000000.
Proof.
  intros st msg.
  apply (worker_interval_additive st [[]] [msg] 2); [reflexivity..|discriminate].
Defined.

(** The interval does not double: after the first idle iteration it is
    1100 microseconds, not 200. *)
Lemma worker_interval_not_doubled :
  let st := Engine.mkState true true [] [] Buffer.initial None false 0 [] [] in
  (Engine.MessageQueueWorker [[]] st).2 = 1100
  /\ (Engine.MessageQueueWorker [[]] st).2 <> 2 * 100.
Proof. split; [reflexivity | discriminate]. Qed.

(** ** The write loop of the file appender *)

Section WriteLoop.
Import FileAppender.

(** A negative result of [TRI_WRITE] ends the loop at once, with the
    failure reported on stderr. *)
Lemma writeLogFile_loop_negative fuel TRI_WRITE k len giveUp :
  0 < len -> TRI_WRITE k < 0 ->
  writeLogFile_loop (S fuel) TRI_WRITE k len giveUp =
  Some {| calls := S k; remaining := len; reported := true |}.
Proof.
  intros Hlen Hneg. simpl.
  replace (0 <? len) with true by (symmetry; by apply Z.ltb_lt).
  replace (TRI_WRITE k <? 0) with true by (symmetry; by apply Z.ltb_lt).
  done.
Qed.

(** As long as every write makes progress, the loop returns after at most
    [len] rounds. *)
Lemma writeLogFile_loop_progress TRI_WRITE fuel k len giveUp :
  (forall i, TRI_WRITE i <> 0) ->
  (Z.to_nat len < fuel)%nat ->
  is_Some (writeLogFile_loop fuel TRI_WRITE k len giveUp).
Proof.
  intros Hnz. revert k len. induction fuel as [|fuel IH]; intros k len Hfuel.
  - lia.
  - simpl. destruct (Z.ltb_spec 0 len) as [Hlen|Hlen]; [|by eexists].
    destruct (Z.ltb_spec (TRI_WRITE k) 0) as [Hneg|Hnn]; [by eexists|].
    destruct (Z.eqb_spec (TRI_WRITE k) 0) as [Hz|_]; [by apply Hnz in Hz|].
    simpl. apply IH. specialize (Hnz k). lia.
Qed.

(** Once [giveUp] is set, a write of zero bytes changes neither [len] nor
    the flag: the loop is back where it was. *)
Lemma writeLogFile_loop_zero fuel k len giveUp :
  0 < len ->
  writeLogFile_loop fuel (fun _ => 0) k len giveUp = None.
Proof.
  intros Hlen. revert k giveUp.
  induction fuel as [|fuel IH]; intros k giveUp; [done|].
  simpl. replace (0 <? len) with true by (symmetry; by apply Z.ltb_lt).
  destruct giveUp; simpl; rewrite ?Z.sub_0_r; apply IH.
Qed.

End WriteLoop.

(** One zero-length write is followed by a retry, after which the loop
    goes on as usual. *)
Example writeLogFile_one_zero_write :
  FileAppender.writeLogFile 3 (fun k => if decide (k = 0%nat) then 0 else 1) 1
  = Some {| FileAppender.calls := 2; FileAppender.remaining := 0;
            FileAppender.reported := false |}.
Proof. reflexivity. Qed.

(** C9 (failing input). For a buffer of one byte and a descriptor on
    which every write returns 0, the loop has not returned after any
    number of rounds: the [giveUp] flag is set by the first zero-length
    write and never makes the loop give up. *)
Theorem writeLogFile_zero_writes_never_returns (fuel : nat) :
  FileAppender.writeLogFile fuel (fun _ => 0) 1 = None.
Proof. unfold FileAppender.writeLogFile. by apply writeLogFile_loop_zero. Qed.

(** ** Reopening the file appender *)

Section Reopen.
Import FileAppender.

Lemma backup_name_differs (filename : string) :
  filename <> (filename +:+ ".old")%string.
Proof.
  intros Heq. apply (f_equal String.length) in Heq.
  rewrite string_length_app in Heq. simpl in Heq. lia.
Qed.

(** What the three file operations of a failed reopen amount to: the
    stale backup is gone and every other name is as before. *)
Lemma failed_reopen_names (filename : string) (ret : Z) (w : os) :
  ret < 0 ->
  let backup := (filename +:+ ".old")%string in
  let w1 := TRI_RenameFile filename backup (TRI_UnlinkFile backup w) in
  let w2 := TRI_RenameFile backup filename (TRI_CREATE filename ret w1).2 in
  (TRI_CREATE filename ret w1).1 = ret /\
  names w2 = delete backup (names w) /\
  open_fds w2 = open_fds w /\
  next_inode w2 = next_inode w.
Proof.
  intros Hret backup w1 w2.
  pose proof (backup_name_differs filename) as Hne. fold backup in Hne.
  assert (Hne' : backup <> filename) by (intros Heq; by apply Hne).
  assert (Hcreate : TRI_CREATE filename ret w1 = (ret, w1)).
  { unfold TRI_CREATE.
    replace (ret <? 0) with true by (symmetry; by apply Z.ltb_lt). done. }
  subst w2. rewrite Hcreate. simpl. split; [done|].
  subst w1. unfold TRI_RenameFile, TRI_UnlinkFile. simpl.
  rewrite lookup_delete_ne by done.
  destruct (names w !! filename) as [i|] eqn:Hfile; simpl.
  - rewrite lookup_insert_eq. simpl.
    split; [|done]. apply map_eq. intros p.
    destruct (decide (p = filename)) as [->|Hp].
    + rewrite lookup_insert_eq, lookup_delete_ne by done. done.
    + rewrite lookup_insert_ne by done.
      destruct (decide (p = backup)) as [->|Hpb].
      * by rewrite !lookup_delete_eq.
      * rewrite lookup_delete_ne, lookup_insert_ne by done.
        by rewrite !lookup_delete_ne by done.
  - rewrite lookup_delete_eq. done.
Qed.

End Reopen.

(** C7. When the new file cannot be opened, a reopen of a file appender
    with a file name leaves the appender as it was, its descriptor
    included; every open descriptor stays open; the log file is back
    under its own name, no backup name is left, and no other file name
    is touched. For an appender without a file name (stdout or stderr)
    a reopen changes nothing at all. *)
Theorem reopenLog_failed_open_restores
    (a : FileAppender.log_appender_file_t) (w : FileAppender.os) (ret : Z) :
  ret < 0 ->
  let backup := (FileAppender._filename a +:+ ".old")%string in
  let a' := (FileAppender.reopenLog ret a w).1 in
  let w' := (FileAppender.reopenLog ret a w).2 in
  (FileAppender._filename a <> EmptyString ->
     a' = a
     /\ FileAppender.open_fds w' = FileAppender.open_fds w
     /\ FileAppender.names w' !! FileAppender._filename a =
        FileAppender.names w !! FileAppender._filename a
     /\ (FileAppender.STDERR_FILENO < FileAppender._fd a ->
         FileAppender.names w' !! backup = None)
     /\ (forall path, path <> backup ->
         FileAppender.names w' !! path = FileAppender.names w !! path))
  /\ (FileAppender._filename a = EmptyString ->
      forall ret', FileAppender.reopenLog ret' a w = (a, w)).
Proof.
  intros Hret backup a' w'. split.
  - intros Hname. subst a' w'. unfold FileAppender.reopenLog.
    rewrite bool_decide_false by done.
    destruct (Z.leb_spec (FileAppender._fd a) FileAppender.STDERR_FILENO)
      as [Hfd|Hfd].
    { simpl. repeat split; try done. intros; lia. }
    pose proof (failed_reopen_names (FileAppender._filename a) ret w Hret)
      as (Hfst & Hnames & Hfds & _).
    fold backup in Hfst, Hnames, Hfds. fold backup.
    destruct (FileAppender.TRI_CREATE _ ret _) as [fd w1] eqn:Hcreate.
    simpl in Hfst, Hnames, Hfds. subst fd.
    replace (ret <? 0) with true by (symmetry; by apply Z.ltb_lt).
    simpl. rewrite Hnames.
    split; [done|]. split; [done|].
    split; [apply lookup_delete_ne; symmetry; apply backup_name_differs|].
    split; [intros _; apply lookup_delete_eq|].
    intros path Hpath. by apply lookup_delete_ne.
  - intros Hname ret'. unfold FileAppender.reopenLog.
    by rewrite bool_decide_true.
Qed.

(** A failed reopen of an appender writing to [/var/log/db.log] on
    descriptor 5, while an older backup exists. *)
Lemma reopenLog_failed_open_restores_witness :
  let a := FileAppender.mkFileAppender
             (Appender.mkAppender Appender.APPENDER_TYPE_FILE None
                Level.TRI_LOG_SEVERITY_UNKNOWN false)
             "/var/log/db.log" 5 true in
  let w := FileAppender.mkOs
             (<["/var/log/db.log.old"%string := 3%nat]>
                (<["/var/log/db.log"%string := 7%nat]> ∅))
             (<[5 := 7%nat]> ∅) 8 in
  (FileAppender.reopenLog (-1) a w).1 = a
  /\ FileAppender.open_fds (FileAppender.reopenLog (-1) a w).2 =
     FileAppender.open_fds w
  /\ FileAppender.names (FileAppender.reopenLog (-1) a w).2
       !! "/var/log/db.log"%string = Some 7%nat
  /\ FileAppender.names (FileAppender.reopenLog (-1) a w).2
       !! "/var/log/db.log.old"%string = None.
Proof.
  intros a w.
  destruct (reopenLog_failed_open_restores a w (-1)) as [Hfile _]; [lia|].
  destruct Hfile as (Ha & Hfds & Hname & Hbackup & _); [discriminate|].
  split; [exact Ha|]. split; [exact Hfds|].
  split; [etrans; [exact Hname | reflexivity]|].
  apply Hbackup. reflexivity.
Defined.

(** ** The ring buffers *)

Section Rings.
Import Buffer.

Lemma at_index_lookup {A} (l : list A) (i : Z) :
  0 <= i -> at_index l i = l !! Z.to_nat i.
Proof. intros Hi. unfold at_index. by rewrite decide_True. Qed.

Lemma at_index_is_Some {A} (l : list A) (i : Z) :
  0 <= i < Z.of_nat (length l) -> is_Some (at_index l i).
Proof.
  intros Hi. rewrite at_index_lookup by lia. apply lookup_lt_is_Some. lia.
Qed.

Lemma set_index_Some {A} (l : list A) (i : Z) (x : A) :
  0 <= i < Z.of_nat (length l) ->
  set_index l i x = Some (<[Z.to_nat i := x]> l).
Proof. intros Hi. unfold set_index. by rewrite decide_True. Qed.

(** Writing the slot after the cursor turns the oldest-first view into
    its tail followed by the new entry. *)
Lemma rotate_overwrite_oldest {A} (ring : list A) (k : nat) (e : A) :
  (k < length ring)%nat ->
  rotate (S k) (<[k := e]> ring) = drop 1 (rotate k ring) ++ [e].
Proof.
  intros Hk. unfold rotate. rewrite length_insert.
  rewrite (Nat.mod_small k) by done.
  assert (Htake : take (S k) (<[k := e]> ring) = take k ring ++ [e]).
  { rewrite (take_S_r _ _ e) by (by apply list_lookup_insert_eq).
    by rewrite take_insert_ge by lia. }
  destruct (decide (S k = length ring)) as [Hlast|Hmore].
  - rewrite Hlast, Nat.Div0.mod_same. rewrite drop_0, take_0, app_nil_r.
    rewrite <- (take_drop (S k) (<[k := e]> ring)).
    rewrite (drop_ge (<[k := e]> ring)) by (rewrite length_insert; lia).
    rewrite app_nil_r, Htake.
    rewrite skipn_app, length_drop.
    replace (1 - (length ring - k))%nat with 0%nat by lia.
    rewrite (drop_ge (drop k ring)) by (rewrite length_drop; lia).
    done.
  - rewrite (Nat.mod_small (S k)) by lia. rewrite Htake.
    rewrite drop_insert_lt by lia.
    rewrite skipn_app, drop_drop, length_drop.
    replace (1 - (length ring - k))%nat with 0%nat by lia. simpl.
    rewrite Nat.add_1_r. by rewrite app_assoc.
Qed.


Lemma wf_ring_at st pos :
  wf st -> 0 <= pos < OUTPUT_LOG_LEVELS ->
  at_index (BufferOutput st) pos = Some (ring_at st pos) /\
  length (ring_at st pos) = Z.to_nat OUTPUT_BUFFER_SIZE.
Proof.
  intros (_ & _ & _ & Hlen & Hrings) Hpos. unfold ring_at.
  destruct (at_index_is_Some (BufferOutput st) pos) as [ring Hring];
    [rewrite Hlen; lia|].
  rewrite Hring. simpl. split; [done|].
  rewrite at_index_lookup in Hring by lia.
  by apply (Forall_lookup_1 _ _ _ _ Hrings Hring).
Qed.

Lemma wf_cursor_at st pos :
  wf st -> 0 <= pos < OUTPUT_LOG_LEVELS ->
  at_index (BufferCurrent st) pos = Some (cursor_at st pos) /\
  0 <= cursor_at st pos < OUTPUT_BUFFER_SIZE.
Proof.
  intros (_ & Hlen & Hcur & _) Hpos. unfold cursor_at.
  destruct (at_index_is_Some (BufferCurrent st) pos) as [c Hc];
    [rewrite Hlen; lia|].
  rewrite Hc. simpl. split; [done|].
  rewrite at_index_lookup in Hc by lia.
  by apply (Forall_lookup_1 _ _ _ _ Hcur Hc).
Qed.

(** What one call does to a well-formed state when its level falls on
    ring [pos]: the slot after the cursor is overwritten, the cursor moves
    there, the lid counter goes up by one, the other rings stay. *)
Lemma StoreOutput_effect level timestamp text st :
  wf st -> wrap64 level < OUTPUT_LOG_LEVELS ->
  let pos := wrap64 level in
  let cur := (cursor_at st pos + 1) mod OUTPUT_BUFFER_SIZE in
  exists st',
    StoreOutput level timestamp text st = Some st' /\
    wf st' /\
    BufferLID st' = wrap64 (BufferLID st + 1) /\
    cursor_at st' pos = cur /\
    ring_at st' pos =
      <[Z.to_nat cur := entry_of (BufferLID st) level timestamp text]>
        (ring_at st pos) /\
    (forall q, q <> pos ->
       cursor_at st' q = cursor_at st q /\ ring_at st' q = ring_at st q).
Proof.
  intros Hwf Hlt pos cur.
  assert (Hpos : 0 <= pos < OUTPUT_LOG_LEVELS).
  { split; [|done]. subst pos. unfold wrap64, wrap.
    apply Z.mod_pos_bound. lia. }
  destruct (wf_ring_at st pos Hwf Hpos) as [Hring Hringlen].
  destruct (wf_cursor_at st pos Hwf Hpos) as [Hcur Hcurrange].
  assert (Hcurlt : 0 <= cur < OUTPUT_BUFFER_SIZE).
  { subst cur. apply Z.mod_pos_bound. unfold OUTPUT_BUFFER_SIZE. lia. }
  assert (Hwrapcur : wrap64 (cursor_at st pos + 1) = cursor_at st pos + 1).
  { apply wrap64_small. unfold OUTPUT_BUFFER_SIZE in Hcurrange. lia. }
  destruct Hwf as (Hlid & Hclen & Hcall & Holen & Hoall).
  unfold StoreOutput. fold pos.
  destruct (Z.leb_spec OUTPUT_LOG_LEVELS pos) as [Hge|_]; [lia|].
  rewrite Hcur. simpl. rewrite Hwrapcur. fold cur.
  rewrite set_index_Some by (rewrite Hclen; unfold OUTPUT_LOG_LEVELS in *; lia).
  simpl. rewrite Hring. simpl.
  rewrite set_index_Some
    by (rewrite Hringlen; unfold OUTPUT_BUFFER_SIZE in *; lia).
  simpl.
  rewrite set_index_Some by (rewrite Holen; unfold OUTPUT_LOG_LEVELS in *; lia).
  simpl. eexists. split; [reflexivity|].
  assert (Hposnat : (Z.to_nat pos < length (BufferCurrent st))%nat)
    by (rewrite Hclen; lia).
  assert (Hposnat' : (Z.to_nat pos < length (BufferOutput st))%nat)
    by (rewrite Holen; lia).
  split; [|split; [done|split; [|split]]].
  - unfold wf. simpl. rewrite !length_insert.
    split; [unfold wrap64, wrap; apply Z.mod_pos_bound; lia|].
    split; [done|]. split; [by apply Forall_insert|].
    split; [done|]. apply Forall_insert; [done|].
    by rewrite length_insert.
  - unfold cursor_at. simpl. rewrite at_index_lookup by lia.
    by rewrite list_lookup_insert_eq.
  - unfold ring_at at 1. simpl. rewrite at_index_lookup by lia.
    by rewrite list_lookup_insert_eq.
  - intros q Hq. unfold cursor_at, ring_at, at_index. simpl.
    destruct (decide (0 <= q)) as [Hq0|]; [|done].
    rewrite !list_lookup_insert_ne by lia. done.
Qed.

(** A call for a level outside the rings changes nothing. *)
Lemma StoreOutput_outside level timestamp text st :
  OUTPUT_LOG_LEVELS <= wrap64 level ->
  StoreOutput level timestamp text st = Some st.
Proof.
  intros Hge. unfold StoreOutput.
  by destruct (Z.leb_spec OUTPUT_LOG_LEVELS (wrap64 level)); [|lia].
Qed.

(** In the oldest-first view a call drops the oldest entry of its ring
    and appends the new one. *)
Lemma StoreOutput_oldest_first level timestamp text st :
  wf st -> wrap64 level < OUTPUT_LOG_LEVELS ->
  exists st',
    StoreOutput level timestamp text st = Some st' /\
    wf st' /\
    BufferLID st' = wrap64 (BufferLID st + 1) /\
    oldest_first st' (wrap64 level) =
      drop 1 (oldest_first st (wrap64 level))
      ++ [entry_of (BufferLID st) level timestamp text] /\
    (forall q, q <> wrap64 level -> oldest_first st' q = oldest_first st q).
Proof.
  intros Hwf Hlt.
  destruct (StoreOutput_effect level timestamp text st Hwf Hlt)
    as (st' & Hst' & Hwf' & Hlid & Hcur & Hring & Hother).
  exists st'. split; [done|]. split; [done|]. split; [done|].
  assert (Hpos : 0 <= wrap64 level < OUTPUT_LOG_LEVELS).
  { split; [|done]. unfold wrap64, wrap. apply Z.mod_pos_bound. lia. }
  destruct (wf_ring_at st _ Hwf Hpos) as [_ Hringlen].
  destruct (wf_cursor_at st _ Hwf Hpos) as [_ Hcurrange].
  split.
  - unfold oldest_first. rewrite Hcur, Hring.
    set (k := Z.to_nat ((cursor_at st (wrap64 level) + 1)
                          mod OUTPUT_BUFFER_SIZE)).
    assert (Hk : (k < length (ring_at st (wrap64 level)))%nat).
    { subst k. rewrite Hringlen.
      pose proof (Z.mod_pos_bound (cursor_at st (wrap64 level) + 1)
                    OUTPUT_BUFFER_SIZE) as Hb.
      unfold OUTPUT_BUFFER_SIZE in *. lia. }
    rewrite rotate_overwrite_oldest by done. do 2 f_equal.
    unfold rotate. f_equal; f_equal.
    all: rewrite Hringlen; subst k.
    all: rewrite Z2Nat.inj_mod by (unfold OUTPUT_BUFFER_SIZE; lia).
    all: rewrite Z2Nat.inj_add by lia.
    all: rewrite Nat.Div0.mod_mod.
    all: f_equal; lia.
  - intros q Hq. unfold oldest_first.
    destruct (Hother q Hq) as [-> ->]. done.
Qed.

Lemma wf_oldest_first_length st pos :
  wf st -> 0 <= pos < OUTPUT_LOG_LEVELS ->
  length (oldest_first st pos) = Z.to_nat OUTPUT_BUFFER_SIZE.
Proof.
  intros Hwf Hpos. unfold oldest_first. rewrite length_rotate.
  by apply wf_ring_at.
Qed.

(** The newest [OUTPUT_BUFFER_SIZE] elements of a list. *)
Local Abbreviation newest l :=
  (drop (length l - Z.to_nat OUTPUT_BUFFER_SIZE) l).

Lemma newest_shift {A} (w : list A) (e : A) (rest : list A) :
  length w = Z.to_nat OUTPUT_BUFFER_SIZE ->
  newest ((drop 1 w ++ [e]) ++ rest) = newest (w ++ e :: rest).
Proof.
  intros Hw.
  replace (w ++ e :: rest) with (take 1 w ++ ((drop 1 w ++ [e]) ++ rest)).
  - rewrite (drop_app_ge (take 1 w)).
    + f_equal. rewrite !length_app, length_take, length_drop. simpl.
      rewrite Hw. unfold OUTPUT_BUFFER_SIZE. lia.
    + rewrite !length_app, length_take, length_drop. simpl.
      rewrite Hw. unfold OUTPUT_BUFFER_SIZE. lia.
  - rewrite <- !app_assoc. rewrite (app_assoc (take 1 w)), take_drop. done.
Qed.

Lemma entries_of_length lid lid' calls :
  length (entries_of lid calls) = length (entries_of lid' calls).
Proof.
  revert lid lid'. induction calls as [|c rest IH]; intros lid lid'; [done|].
  simpl. destruct (OUTPUT_LOG_LEVELS <=? wrap64 (call_level c)); [apply IH|].
  simpl. f_equal. apply IH.
Qed.

Lemma entries_of_length_le lid calls :
  (length (entries_of lid calls) <= length calls)%nat.
Proof.
  revert lid. induction calls as [|c rest IH]; intros lid; [done|].
  simpl. destruct (OUTPUT_LOG_LEVELS <=? wrap64 (call_level c)).
  - specialize (IH lid). lia.
  - simpl. specialize (IH (wrap64 (lid + 1))). lia.
Qed.

(** A run of calls on a well-formed state goes through; afterwards each
    ring holds, oldest first, the newest [OUTPUT_BUFFER_SIZE] items of
    what it held before followed by the entries made for it, and the lid
    counter has advanced by the number of entries made. *)
Lemma StoreOutput_all_oldest_first calls st :
  wf st ->
  exists st',
    StoreOutput_all calls st = Some st' /\
    wf st' /\
    BufferLID st' =
      wrap64 (BufferLID st
              + Z.of_nat (length (entries_of (BufferLID st) calls))) /\
    forall pos, 0 <= pos < OUTPUT_LOG_LEVELS ->
      oldest_first st' pos =
      newest (oldest_first st pos
              ++ filter (fun e => in_ring pos e = true)
                        (entries_of (BufferLID st) calls)).
Proof.
  revert st. induction calls as [|c rest IH]; intros st Hwf.
  - exists st. split; [done|]. split; [done|]. split.
    { simpl. rewrite Z.add_0_r. symmetry. apply wrap64_small.
      by destruct Hwf as [? _]. }
    intros pos Hpos. simpl. rewrite app_nil_r.
    rewrite wf_oldest_first_length by done.
    by rewrite Nat.sub_diag.
  - simpl.
    destruct (Z.leb_spec OUTPUT_LOG_LEVELS (wrap64 (call_level c)))
      as [Hout|Hin].
    + rewrite StoreOutput_outside by done. simpl. by apply IH.
    + destruct (StoreOutput_oldest_first (call_level c) (call_timestamp c)
                  (call_text c) st Hwf Hin)
        as (st1 & Hst1 & Hwf1 & Hlid1 & Hsame & Hother).
      rewrite Hst1. simpl.
      destruct (IH st1 Hwf1) as (st' & Hst' & Hwf' & Hlid' & Hview).
      exists st'. split; [done|]. split; [done|]. split.
      { rewrite Hlid', Hlid1. unfold wrap64, wrap.
        rewrite Zplus_mod_idemp_l. f_equal.
        rewrite (entries_of_length _ (BufferLID st)). lia. }
      intros pos Hpos. rewrite Hview by done. rewrite Hlid1.
      rewrite filter_cons.
      destruct (decide (pos = wrap64 (call_level c))) as [->|Hne].
      * rewrite Hsame.
        rewrite decide_True by (unfold in_ring; simpl; apply Z.eqb_refl).
        apply newest_shift. by apply wf_oldest_first_length.
      * rewrite Hother by done.
        rewrite decide_False; [done|].
        unfold in_ring. simpl. intros Heq%Z.eqb_eq. by symmetry in Heq.
Qed.

(** The lids handed out by a run increase with the call order, as long as
    the 64-bit counter does not wrap around. *)
Lemma entries_of_lid_bounds lid calls e :
  0 <= lid -> lid + Z.of_nat (length calls) <= 2 ^ 64 ->
  e ∈ entries_of lid calls ->
  lid <= _lid e < lid + Z.of_nat (length (entries_of lid calls)).
Proof.
  revert lid. induction calls as [|c rest IH]; intros lid Hlid Hfit Hin.
  - by apply elem_of_nil in Hin.
  - simpl in Hin, Hfit. simpl.
    destruct (OUTPUT_LOG_LEVELS <=? wrap64 (call_level c)).
    + apply IH; [done | lia | done].
    + apply elem_of_cons in Hin as [->|Hin]; [simpl; lia|].
      assert (Hrest : 0 < Z.of_nat (length rest)).
      { destruct rest; [by apply elem_of_nil in Hin | simpl; lia]. }
      rewrite wrap64_small in Hin by lia.
      rewrite wrap64_small by lia.
      destruct (IH (lid + 1)) as [Hlo Hhi]; [lia | lia | done |].
      rewrite length_cons. lia.
Qed.

Lemma entries_of_lid_sorted lid calls :
  0 <= lid -> lid + Z.of_nat (length calls) <= 2 ^ 64 ->
  StronglySorted (fun a b => _lid a < _lid b) (entries_of lid calls).
Proof.
  revert lid. induction calls as [|c rest IH]; intros lid Hlid Hfit.
  - constructor.
  - simpl in *. destruct (OUTPUT_LOG_LEVELS <=? wrap64 (call_level c)).
    + apply IH; lia.
    + destruct rest as [|c' rest'].
      { simpl. repeat constructor. }
      rewrite wrap64_small by (simpl in Hfit; lia).
      constructor.
      * apply IH; [lia | simpl in *; lia].
      * apply Forall_forall. intros e He.
        apply entries_of_lid_bounds in He; simpl in *; lia.
Qed.

Lemma StronglySorted_filter {A} (R : A -> A -> Prop) (P : A -> Prop)
    `{forall x, Decision (P x)} (l : list A) :
  StronglySorted R l -> StronglySorted R (filter P l).
Proof.
  induction 1 as [|x l Hsorted IH Hall]; [constructor|].
  rewrite filter_cons. case_decide; [|done].
  constructor; [done|].
  apply Forall_forall. intros y [_ Hy]%list_elem_of_filter.
  by apply (proj1 (Forall_forall _ _) Hall).
Qed.

Lemma StronglySorted_drop {A} (R : A -> A -> Prop) (n : nat) (l : list A) :
  StronglySorted R l -> StronglySorted R (drop n l).
Proof.
  intros Hl. rewrite <- (take_drop n l) in Hl.
  by apply StronglySorted_app in Hl as (_ & _ & ?).
Qed.

End Rings.


Lemma initial_wf : Buffer.wf Buffer.initial.
Proof.
  unfold Buffer.wf, Buffer.initial. simpl.
  split; [lia|]. split; [done|].
  split; [repeat constructor; lia|]. split; [done|].
  repeat constructor.
Qed.


(** ** The history query *)

Section Query.
Import Buffer.

(** A loop whose rounds all succeed yields their results in order. *)
Lemma collect_all_Some {A} (f : Z -> option (list A)) (g : Z -> list A)
    (idx : list Z) :
  (forall i, i ∈ idx -> f i = Some (g i)) ->
  collect f idx = Some (concat (g <$> idx)).
Proof.
  induction idx as [|i rest IH]; intros Hf; [done|].
  simpl. rewrite Hf by (apply elem_of_cons; by left). simpl.
  rewrite IH; [done|]. intros j Hj. apply Hf. apply elem_of_cons. by right.
Qed.

(** A loop over the positions of a list. *)
Lemma collect_over_list {A B} (f : Z -> option (list A)) (g : B -> list A)
    (l : list B) (k : Z) :
  (forall j x, l !! j = Some x -> f (k + Z.of_nat j) = Some (g x)) ->
  collect f (seqZ k (Z.of_nat (length l))) = Some (concat (g <$> l)).
Proof.
  revert k. induction l as [|x l IH]; intros k Hf; [done|].
  rewrite seqZ_cons by (simpl; lia). simpl collect.
  pose proof (Hf 0%nat x eq_refl) as Hfirst. rewrite Z.add_0_r in Hfirst.
  rewrite Hfirst. simpl.
  replace (Z.pred (Z.of_nat (S (length l))))
    with (Z.of_nat (length l)) by lia.
  rewrite (IH (Z.succ k)); [done|].
  intros j y Hj. rewrite <- (Hf (S j) y) by done. f_equal. lia.
Qed.

Lemma concat_selected start (l : list TRI_log_buffer_t) :
  concat ((fun buf => if selected start buf then [duplicate buf] else [])
            <$> l) =
  duplicate <$> filter (fun buf => selected start buf = true) l.
Proof.
  induction l as [|buf l IH]; [done|].
  rewrite fmap_cons, filter_cons. change (concat (?x :: ?r)) with (x ++ concat r).
  rewrite IH. destruct (selected start buf).
  - by rewrite decide_True.
  - by rewrite decide_False.
Qed.

(** The inner loop reads ring [i] once around, starting at the cursor. *)
Lemma scan_ring st start i :
  wf st -> 0 <= i < OUTPUT_LOG_LEVELS ->
  collect (scan_slot st start i) (seqZ 0 OUTPUT_BUFFER_SIZE) =
  Some (duplicate <$>
        filter (fun buf => selected start buf = true)
               (rotate (Z.to_nat (cursor_at st i)) (ring_at st i))).
Proof.
  intros Hwf Hi.
  destruct (wf_ring_at st i Hwf Hi) as [Hring Hlen].
  destruct (wf_cursor_at st i Hwf Hi) as [Hcur Hrange].
  rewrite <- concat_selected.
  replace OUTPUT_BUFFER_SIZE
    with (Z.of_nat (length (rotate (Z.to_nat (cursor_at st i))
                                   (ring_at st i)))).
  2:{ rewrite length_rotate, Hlen. unfold OUTPUT_BUFFER_SIZE. lia. }
  apply collect_over_list. intros j buf Hj.
  apply lookup_rotate_r_Some in Hj as [Hbuf Hjlt].
  unfold scan_slot. rewrite Hcur. simpl. rewrite Hring. simpl.
  rewrite Z.add_0_l.
  assert (Hidx : wrap64 (cursor_at st i + Z.of_nat j) mod OUTPUT_BUFFER_SIZE
                 = Z.of_nat (rotate_nat_add (Z.to_nat (cursor_at st i)) j
                                            (length (ring_at st i)))).
  { rewrite wrap64_small
      by (rewrite Hlen in Hjlt; unfold OUTPUT_BUFFER_SIZE in *; lia).
    unfold rotate_nat_add. rewrite Hlen.
    rewrite Z2Nat.id by (apply Z.mod_pos_bound; unfold OUTPUT_BUFFER_SIZE; lia).
    rewrite !Z2Nat.id by (unfold OUTPUT_BUFFER_SIZE; lia). done. }
  rewrite Hidx, at_index_lookup by lia. rewrite Nat2Z.id, Hbuf. done.
Qed.

(** The ring a query level is mapped to is one of the six. *)
Lemma query_pos_range level : 0 <= query_pos level < OUTPUT_LOG_LEVELS.
Proof.
  unfold query_pos.
  pose proof (Z.mod_pos_bound level (2 ^ 64)) as Hb.
  unfold wrap64, wrap, OUTPUT_LOG_LEVELS in *.
  destruct (Z.leb_spec 6 (level mod 2 ^ 64)); lia.
Qed.

(** What the two loops gather, ring by ring. *)
Lemma gather_rings level start useUpto st :
  wf st ->
  gather level start useUpto st =
  Some (concat
          ((fun i => duplicate <$>
                     filter (fun buf => selected start buf = true)
                            (rotate (Z.to_nat (cursor_at st i))
                                    (ring_at st i)))
           <$> seqZ (if useUpto then 0 else query_pos level)
                    (query_pos level - (if useUpto then 0 else query_pos level)
                     + 1))).
Proof.
  intros Hwf. unfold gather. apply collect_all_Some.
  intros i Hi. apply scan_ring; [done|].
  apply list_elem_of_lookup in Hi as [k Hk].
  apply lookup_seqZ in Hk as [-> Hk].
  pose proof (query_pos_range level). destruct useUpto; lia.
Qed.

(** The gathered entries are the selected slots of the merged rings, up
    to their order. *)
Lemma gather_merged level start useUpto st :
  wf st ->
  exists gathered,
    gather level start useUpto st = Some gathered /\
    gathered ≡ₚ duplicate <$>
                filter (fun buf => selected start buf = true)
                       (merged_rings level useUpto st).
Proof.
  intros Hwf. eexists. split; [by apply gather_rings|].
  unfold merged_rings.
  generalize (seqZ (if useUpto then 0 else query_pos level)
                (query_pos level - (if useUpto then 0 else query_pos level)
                 + 1)).
  intros idx. induction idx as [|i idx IH]; [done|].
  simpl. rewrite filter_app, fmap_app. apply Permutation_app; [|done].
  apply fmap_Permutation.
  apply (filter_Permutation (fun buf => selected start buf = true)).
  unfold rotate. rewrite Permutation_app_comm. by rewrite take_drop.
Qed.

(** [qsort] rearranges its input, whatever the comparator says. *)
Lemma qsort_insert_Permutation {A} (cmp : A -> A -> Z) x (l : list A) :
  qsort_insert cmp x l ≡ₚ x :: l.
Proof.
  induction l as [|y l IH]; [done|].
  simpl. destruct (cmp x y <=? 0); [done|].
  rewrite IH. apply Permutation_swap.
Qed.

Lemma qsort_Permutation {A} (cmp : A -> A -> Z) (l : list A) :
  qsort cmp l ≡ₚ l.
Proof.
  induction l as [|x l IH]; [done|].
  simpl. rewrite qsort_insert_Permutation. by rewrite IH.
Qed.

(** With a comparator that agrees with an order on the elements at hand,
    [qsort] sorts. *)
Lemma qsort_insert_Sorted {A} (cmp : A -> A -> Z) (le : A -> A -> Prop)
    x (l : list A) :
  (forall y, y ∈ l -> (cmp x y <= 0 -> le x y) /\ (0 < cmp x y -> le y x)) ->
  Sorted le l -> Sorted le (qsort_insert cmp x l).
Proof.
  intros Hcmp Hsorted. induction l as [|y l IH]; [by repeat constructor|].
  simpl. destruct (Z.leb_spec (cmp x y) 0) as [Hle|Hgt].
  - constructor; [done|]. constructor.
    apply (Hcmp y); [apply elem_of_cons; by left | done].
  - apply Sorted_inv in Hsorted as [Hsorted Hhd].
    constructor.
    + apply IH; [|done]. intros z Hz. apply Hcmp. apply elem_of_cons. by right.
    + destruct l as [|z l]; simpl.
      * constructor. apply (Hcmp y); [apply elem_of_cons; by left | done].
      * destruct (cmp x z <=? 0); constructor.
        -- apply (Hcmp y); [apply elem_of_cons; by left | done].
        -- by apply HdRel_inv in Hhd.
Qed.

Lemma qsort_Sorted {A} (cmp : A -> A -> Z) (le : A -> A -> Prop)
    (l : list A) :
  (forall x y, x ∈ l -> y ∈ l ->
     (cmp x y <= 0 -> le x y) /\ (0 < cmp x y -> le y x)) ->
  Sorted le (qsort cmp l).
Proof.
  induction l as [|x l IH]; intros Hcmp; [constructor|].
  simpl. apply qsort_insert_Sorted.
  - intros y Hy. apply Hcmp; [apply elem_of_cons; by left|].
    apply elem_of_cons. right. by rewrite <- (qsort_Permutation cmp l).
  - apply IH. intros y z Hy Hz. apply Hcmp; apply elem_of_cons; by right.
Qed.

(** The signed reading of a value depends on the value modulo [2 ^ w]
    only. *)
Lemma to_signed_mod w z : to_signed w (z mod 2 ^ w) = to_signed w z.
Proof. unfold to_signed. by rewrite Zmod_mod. Qed.

Lemma to_int64_sub a b :
  to_int64 (to_int64 a - to_int64 b) = to_int64 (a - b).
Proof.
  unfold to_int64. rewrite <- (to_signed_mod 64 (_ - _)).
  rewrite <- (to_signed_mod 64 (a - b)). f_equal.
  assert (Hs : forall z, to_signed 64 z mod 2 ^ 64 = z mod 2 ^ 64).
  { intros z. unfold to_signed.
    destruct (z mod 2 ^ 64 <? 2 ^ (64 - 1)).
    - by rewrite Zmod_mod.
    - rewrite <- (Z.mod_add _ 1) by lia.
      replace (z mod 2 ^ 64 - 2 ^ 64 + 1 * 2 ^ 64) with (z mod 2 ^ 64) by lia.
      by rewrite Zmod_mod. }
  rewrite Zminus_mod, !Hs, <- Zminus_mod. done.
Qed.

(** On lids less than [2 ^ 31] apart the comparator is their difference. *)
Lemma LidCompare_close a b :
  lids_close a b -> LidCompare a b = _lid a - _lid b.
Proof.
  unfold lids_close, LidCompare. intros Hclose.
  rewrite to_int64_sub, to_int64_small by lia. apply to_int_small. lia.
Qed.

End Query.

(** The query on a well-formed state never reads outside the arrays; it
    returns the selected slots of the merged rings, rearranged by
    [qsort]. *)
Lemma TRI_BufferLogging_entries level start useUpto st :
  Buffer.wf st ->
  exists result,
    Buffer.TRI_BufferLogging level start useUpto st = Some result /\
    result ≡ₚ Buffer.duplicate <$>
              filter (fun buf => Buffer.selected start buf = true)
                     (Buffer.merged_rings level useUpto st).
Proof.
  intros Hwf.
  destruct (gather_merged level start useUpto st Hwf)
    as (gathered & Hgather & Hperm).
  exists (Buffer.qsort Buffer.LidCompare gathered).
  unfold Buffer.TRI_BufferLogging. rewrite Hgather. split; [done|].
  by rewrite qsort_Permutation.
Qed.

(** When the lids of the selected entries are pairwise less than [2 ^ 31]
    apart, the result is in ascending order of lids. *)
Lemma TRI_BufferLogging_sorted level start useUpto st :
  Buffer.wf st ->
  (forall a b,
     a ∈ filter (fun buf => Buffer.selected start buf = true)
                (Buffer.merged_rings level useUpto st) ->
     b ∈ filter (fun buf => Buffer.selected start buf = true)
                (Buffer.merged_rings level useUpto st) ->
     Buffer.lids_close a b) ->
  exists result,
    Buffer.TRI_BufferLogging level start useUpto st = Some result /\
    result ≡ₚ Buffer.duplicate <$>
              filter (fun buf => Buffer.selected start buf = true)
                     (Buffer.merged_rings level useUpto st) /\
    Sorted Buffer.lid_le result.
Proof.
  intros Hwf Hclose.
  destruct (gather_merged level start useUpto st Hwf)
    as (gathered & Hgather & Hperm).
  exists (Buffer.qsort Buffer.LidCompare gathered).
  unfold Buffer.TRI_BufferLogging. rewrite Hgather. split; [done|].
  split; [by rewrite qsort_Permutation|].
  apply qsort_Sorted. intros x y Hx Hy.
  rewrite Hperm in Hx, Hy.
  apply list_elem_of_fmap in Hx as (a & -> & Ha).
  apply list_elem_of_fmap in Hy as (b & -> & Hb).
  assert (Hab : Buffer.lids_close (Buffer.duplicate a) (Buffer.duplicate b))
    by exact (Hclose a b Ha Hb).
  rewrite (LidCompare_close _ _ Hab). unfold Buffer.lid_le. lia.
Qed.

(** Slots that are not selected contribute nothing to a query. *)
Lemma filter_none_selected start (l : list Buffer.TRI_log_buffer_t) :
  Forall (fun buf => Buffer.selected start buf = false) l ->
  filter (fun buf => Buffer.selected start buf = true) l = [].
Proof.
  induction 1 as [|buf l Hbuf _ IH]; [done|].
  rewrite filter_cons_False; [done|]. by rewrite Hbuf.
Qed.

(** Clearing the rings at shutdown keeps the state well formed, and a
    query after it returns nothing. *)
Lemma clear_buffers_wf st : Buffer.wf st -> Buffer.wf (Buffer.clear_buffers st).
Proof.
  intros (Hlid & Hclen & Hcur & Holen & Hrings).
  unfold Buffer.wf, Buffer.clear_buffers. simpl.
  split; [done|]. split; [done|]. split; [done|].
  split; [by rewrite length_map|].
  apply Forall_map. eapply Forall_impl; [exact Hrings|].
  intros ring Hring. simpl. by rewrite length_map.
Qed.

Lemma TRI_BufferLogging_after_clear level start useUpto st :
  Buffer.wf st ->
  Buffer.TRI_BufferLogging level start useUpto (Buffer.clear_buffers st)
  = Some [].
Proof.
  intros Hwf.
  destruct (TRI_BufferLogging_entries level start useUpto
              (Buffer.clear_buffers st) (clear_buffers_wf st Hwf))
    as (result & -> & Hperm).
  f_equal. apply Permutation_nil_r. rewrite Hperm.
  rewrite (filter_none_selected start); [done|].
  apply Forall_forall. intros buf Hbuf.
  unfold Buffer.merged_rings in Hbuf.
  apply list_elem_of_In, in_concat in Hbuf as (ring & Hring & Hbuf).
  apply list_elem_of_In in Hring, Hbuf.
  apply list_elem_of_fmap in Hring as (i & -> & _).
  unfold Buffer.ring_at, Buffer.at_index in Hbuf.
  destruct (decide (0 <= i)); [|by apply elem_of_nil in Hbuf].
  unfold Buffer.clear_buffers in Hbuf. cbn [Buffer.BufferOutput] in Hbuf.
  rewrite list_lookup_fmap in Hbuf.
  destruct (Buffer.BufferOutput st !! Z.to_nat i) as [ring|];
    [|by apply elem_of_nil in Hbuf].
  simpl in Hbuf. apply list_elem_of_fmap in Hbuf as (slot & -> & _).
  unfold Buffer.selected. simpl. by rewrite andb_false_r.
Qed.

(** C10. On a well-formed state a query with a level at or beyond the
    number of rings reads ring 5, the last one, never a slot outside the
    arrays, and returns what the query at level TRACE returns, which is
    what the query for ring 5 itself returns. *)
Theorem TRI_BufferLogging_level_clamped
    (st : Buffer.buffers) (level start : Z) (useUpto : bool) :
  Buffer.wf st ->
  Buffer.OUTPUT_LOG_LEVELS <= wrap64 level ->
  Buffer.query_pos level = Buffer.OUTPUT_LOG_LEVELS - 1
  /\ is_Some (Buffer.TRI_BufferLogging level start useUpto st)
  /\ Buffer.TRI_BufferLogging level start useUpto st =
     Buffer.TRI_BufferLogging Level.TRI_LOG_LEVEL_TRACE start useUpto st
  /\ Buffer.TRI_BufferLogging level start useUpto st =
     Buffer.TRI_BufferLogging (Buffer.OUTPUT_LOG_LEVELS - 1) start useUpto st.
Proof.
  intros Hwf Hlevel.
  assert (Hpos : Buffer.query_pos level = Buffer.OUTPUT_LOG_LEVELS - 1).
  { unfold Buffer.query_pos.
    by destruct (Z.leb_spec Buffer.OUTPUT_LOG_LEVELS (wrap64 level)); [|lia]. }
  split; [done|]. split.
  - destruct (TRI_BufferLogging_entries level start useUpto st Hwf)
      as (result & -> & _). by eexists.
  - split; unfold Buffer.TRI_BufferLogging, Buffer.gather; by rewrite Hpos.
Qed.

(** A query at level 9, and one at level -1, on the rings after three
    messages. *)
Lemma TRI_BufferLogging_level_clamped_witness :
  let st := {| Buffer.BufferLID := 4;
               Buffer.BufferCurrent := [0; 0; 1; 0; 1; 1];
               Buffer.BufferOutput :=
                 <[2%nat := <[1%nat := Buffer.entry_of 1 2 10 "disk full"]>
                              (replicate 1024 Buffer.empty_slot)]>
                 (<[4%nat := <[1%nat := Buffer.entry_of 2 4 11 "started"]>
                               (replicate 1024 Buffer.empty_slot)]>
                 (<[5%nat := <[1%nat := Buffer.entry_of 3 5 12 "tick"]>
                               (replicate 1024 Buffer.empty_slot)]>
                    (replicate 6 (replicate 1024 Buffer.empty_slot)))) |} in
  Buffer.TRI_BufferLogging 9 0 true st =
    Buffer.TRI_BufferLogging Level.TRI_LOG_LEVEL_TRACE 0 true st
  /\ Buffer.TRI_BufferLogging (-1) 2 false st =
    Buffer.TRI_BufferLogging Level.TRI_LOG_LEVEL_TRACE 2 false st.
Proof.
  intros st.
  assert (Hwf : Buffer.wf st).
  { unfold Buffer.wf. simpl.
    split; [lia|]. split; [done|].
    split; [repeat constructor; unfold Buffer.OUTPUT_BUFFER_SIZE; lia|].
    split; [done|]. repeat constructor. }
  split.
  - destruct (TRI_BufferLogging_level_clamped st 9 0 true Hwf)
      as (_ & _ & Hsame & _); [vm_compute; discriminate | exact Hsame].
  - destruct (TRI_BufferLogging_level_clamped st (-1) 2 false Hwf)
      as (_ & _ & Hsame & _); [vm_compute; discriminate | exact Hsame].
Defined.

(** ** Entries whose lids are far apart *)

Section FarApart.
Import Buffer.

Lemma rotate_Permutation {A} (n : nat) (l : list A) : rotate n l ≡ₚ l.
Proof. unfold rotate. rewrite Permutation_app_comm. by rewrite take_drop. Qed.

Lemma entries_of_app lid calls1 calls2 :
  0 <= lid < 2 ^ 64 ->
  entries_of lid (calls1 ++ calls2) =
  entries_of lid calls1
  ++ entries_of (wrap64 (lid + Z.of_nat (length (entries_of lid calls1))))
                calls2.
Proof.
  revert lid. induction calls1 as [|c rest IH]; intros lid Hlid.
  - simpl. by rewrite Z.add_0_r, wrap64_small.
  - simpl. destruct (OUTPUT_LOG_LEVELS <=? wrap64 (call_level c)).
    + by apply IH.
    + simpl. f_equal.
      rewrite IH by (unfold wrap64, wrap; apply Z.mod_pos_bound; lia).
      do 2 f_equal. unfold wrap64, wrap. rewrite Zplus_mod_idemp_l.
      f_equal. lia.
Qed.

(** The entries made by [n] calls with the same arguments. *)
Lemma entries_of_replicate lid n c :
  wrap64 (call_level c) < OUTPUT_LOG_LEVELS ->
  length (entries_of lid (replicate n c)) = n /\
  Forall (fun e => _level e = call_level c /\
                   _text e = Some (stored_text (call_text c)))
         (entries_of lid (replicate n c)).
Proof.
  intros Hin. revert lid. induction n as [|n IH]; intros lid.
  - by split.
  - simpl.
    destruct (Z.leb_spec OUTPUT_LOG_LEVELS (wrap64 (call_level c))); [lia|].
    destruct (IH (wrap64 (lid + 1))) as [Hlen Hall].
    split; [simpl; by rewrite Hlen|]. by constructor.
Qed.

Lemma filter_none {A} (P : A -> Prop) `{forall x, Decision (P x)}
    (l : list A) :
  Forall (fun x => ~ P x) l -> filter P l = [].
Proof.
  induction 1 as [|x l Hx _ IH]; [done|].
  by rewrite filter_cons_False.
Qed.

Lemma filter_all {A} (P : A -> Prop) `{forall x, Decision (P x)}
    (l : list A) :
  Forall P l -> filter P l = l.
Proof.
  induction 1 as [|x l Hx _ IH]; [done|].
  rewrite filter_cons_True by done. by rewrite IH.
Qed.

(** Of a view whose last entry alone is selected, the query keeps that
    entry. *)
Lemma filter_selected_newest_last start
    (old : list TRI_log_buffer_t) (e : TRI_log_buffer_t) :
  Forall (fun buf => ~ selected start buf = true) old ->
  selected start e = true ->
  filter (fun buf => selected start buf = true)
         (drop (length (old ++ [e]) - Z.to_nat OUTPUT_BUFFER_SIZE)
               (old ++ [e])) = [e].
Proof.
  intros Hold He. rewrite length_app. simpl.
  rewrite drop_app_le by (unfold OUTPUT_BUFFER_SIZE; lia).
  rewrite filter_app, filter_none by (by apply Forall_drop).
  by rewrite filter_cons_True.
Qed.

Lemma filter_selected_newest_none start (old : list TRI_log_buffer_t) :
  Forall (fun buf => ~ selected start buf = true) old ->
  filter (fun buf => selected start buf = true)
         (drop (length old - Z.to_nat OUTPUT_BUFFER_SIZE) old) = [].
Proof. intros Hold. apply filter_none. by apply Forall_drop. Qed.

(** Every slot of the initial rings is zero-initialised, and so not
    selected. *)
Lemma initial_slots pos buf :
  buf ∈ oldest_first initial pos -> buf = empty_slot.
Proof.
  intros Hbuf. unfold oldest_first in Hbuf. apply elem_of_rotate in Hbuf.
  unfold ring_at, at_index in Hbuf.
  destruct (decide (0 <= pos)); [|by apply elem_of_nil in Hbuf].
  destruct (BufferOutput initial !! Z.to_nat pos) as [ring|] eqn:Hring;
    [|by apply elem_of_nil in Hbuf].
  unfold default in Hbuf. unfold initial in Hring.
  cbn [BufferOutput] in Hring.
  apply lookup_replicate in Hring as [-> _].
  by apply elem_of_replicate in Hbuf as [-> _].
Qed.

Lemma initial_unselected start pos :
  Forall (fun buf => ~ selected start buf = true)
         (oldest_first initial pos).
Proof.
  apply Forall_forall. intros buf ->%initial_slots.
  unfold selected, empty_slot. simpl.
  rewrite andb_false_r. discriminate.
Qed.

(** What the query selects from a ring does not depend on where the
    reading starts. *)
Lemma selected_of_ring start st pos :
  filter (fun buf => selected start buf = true)
         (rotate (Z.to_nat (cursor_at st pos)) (ring_at st pos))
  ≡ₚ filter (fun buf => selected start buf = true) (oldest_first st pos).
Proof.
  apply (filter_Permutation (fun buf => selected start buf = true)).
  unfold oldest_first. by rewrite !rotate_Permutation.
Qed.

(** The run [far_apart_calls n] with [n = 2 ^ 31], and the cumulative
    query at level INFO after it. *)
Lemma far_apart_query (n : nat) :
  Z.of_nat n = 2 ^ 31 ->
  exists st,
    StoreOutput_all (far_apart_calls n) initial = Some st /\
    TRI_BufferLogging 4 0 true st =
      Some [ {| _lid := 2 ^ 31 + 2; _level := 4; _timestamp := 0;
                _text := Some "started"%string |};
             {| _lid := 1; _level := 2; _timestamp := 0;
                _text := Some "disk full"%string |} ].
Proof.
  intros Hn.
  destruct (StoreOutput_all_oldest_first (far_apart_calls n) initial
              initial_wf) as (st & Hrun & Hwf & _ & Hview).
  exists st. split; [done|].
  set (quiet := {| call_level := 4; call_timestamp := 0;
                   call_text := EmptyString |}).
  set (first := entry_of 1 2 0 "disk full").
  set (last := entry_of (2 ^ 31 + 2) 4 0 "started").
  destruct (entries_of_replicate 2 n quiet) as [Hlen Hquiet];
    [vm_compute; reflexivity|].
  assert (Hentries : entries_of (BufferLID initial) (far_apart_calls n) =
            first :: entries_of 2 (replicate n quiet) ++ [last]).
  { unfold far_apart_calls. fold quiet.
    change (BufferLID initial) with 1.
    change (entries_of 1 (?c :: ?rest))
      with (entry_of 1 (call_level c) (call_timestamp c) (call_text c)
            :: entries_of 2 rest).
    fold first. f_equal.
    rewrite entries_of_app by lia. f_equal. rewrite Hlen, Hn.
    reflexivity. }
  assert (Hquiet_ring : Forall (fun e => in_ring 4 e = true)
                               (entries_of 2 (replicate n quiet))).
  { eapply Forall_impl; [exact Hquiet|]. intros e [He _].
    unfold in_ring. by rewrite He. }
  assert (Hquiet_unselected :
            Forall (fun e => ~ selected 0 e = true)
                   (entries_of 2 (replicate n quiet))).
  { eapply Forall_impl; [exact Hquiet|]. intros e [_ He].
    unfold selected. rewrite He. simpl. rewrite andb_false_r. discriminate. }
  assert (Hmade2 : filter (fun e => in_ring 2 e = true)
                          (first :: entries_of 2 (replicate n quiet) ++ [last])
                   = [first]).
  { rewrite filter_cons_True by reflexivity.
    rewrite filter_app, filter_cons_False, filter_nil, app_nil_r
      by (vm_compute; discriminate).
    rewrite filter_none; [done|].
    eapply Forall_impl; [exact Hquiet|]. intros e [He _].
    unfold in_ring. rewrite He. vm_compute. discriminate. }
  assert (Hmade4 : filter (fun e => in_ring 4 e = true)
                          (first :: entries_of 2 (replicate n quiet) ++ [last])
                   = entries_of 2 (replicate n quiet) ++ [last]).
  { rewrite filter_cons_False by (vm_compute; discriminate).
    rewrite filter_app, filter_cons_True, filter_nil by reflexivity.
    by rewrite filter_all. }
  assert (Hmade : forall pos, pos <> 2 -> pos <> 4 ->
            filter (fun e => in_ring pos e = true)
                   (first :: entries_of 2 (replicate n quiet) ++ [last])
            = []).
  { intros pos Hne2 Hne4.
    rewrite filter_cons_False
      by (unfold in_ring; intros Heq%Z.eqb_eq; by vm_compute in Heq).
    rewrite filter_app, filter_cons_False, filter_nil, app_nil_r
      by (unfold in_ring; intros Heq%Z.eqb_eq; by vm_compute in Heq).
    apply filter_none.
    eapply Forall_impl; [exact Hquiet|]. intros e [He _].
    unfold in_ring. rewrite He. intros Heq%Z.eqb_eq.
    by vm_compute in Heq. }
  assert (Hring2 : filter (fun buf => selected 0 buf = true)
                          (oldest_first st 2) = [first]).
  { rewrite Hview by (unfold OUTPUT_LOG_LEVELS; lia).
    rewrite Hentries, Hmade2.
    apply filter_selected_newest_last;
      [apply initial_unselected | reflexivity]. }
  assert (Hring4 : filter (fun buf => selected 0 buf = true)
                          (oldest_first st 4) = [last]).
  { rewrite Hview by (unfold OUTPUT_LOG_LEVELS; lia).
    rewrite Hentries, Hmade4. rewrite app_assoc.
    apply filter_selected_newest_last; [|reflexivity].
    apply Forall_app. split; [apply initial_unselected | done]. }
  assert (Hother : forall pos, 0 <= pos < OUTPUT_LOG_LEVELS ->
            pos <> 2 -> pos <> 4 ->
            filter (fun buf => selected 0 buf = true)
                   (oldest_first st pos) = []).
  { intros pos Hpos Hne2 Hne4. rewrite Hview by done.
    rewrite Hentries, Hmade by done.
    rewrite app_nil_r. apply filter_selected_newest_none.
    apply initial_unselected. }
  unfold TRI_BufferLogging. rewrite gather_rings by done.
  assert (Hseq : seqZ (if true then 0 else query_pos 4)
                      (query_pos 4 - (if true then 0 else query_pos 4) + 1)
                 = [0; 1; 2; 3; 4]) by reflexivity.
  rewrite Hseq.
  assert (Hslots : forall pos l,
            filter (fun buf => selected 0 buf = true) (oldest_first st pos) = l ->
            (length l <= 1)%nat ->
            filter (fun buf => selected 0 buf = true)
                   (rotate (Z.to_nat (cursor_at st pos)) (ring_at st pos)) = l).
  { intros pos l Hl Hshort.
    pose proof (selected_of_ring 0 st pos) as Hperm. rewrite Hl in Hperm.
    destruct l as [|x [|y l]]; [| |simpl in Hshort; lia].
    - by apply Permutation_nil_r in Hperm.
    - by apply Permutation_singleton_r in Hperm. }
  cbn [fmap list_fmap concat].
  rewrite (Hslots 0 []), (Hslots 1 []), (Hslots 2 [first]), (Hslots 3 []),
          (Hslots 4 [last]);
    try (simpl; lia);
    try (apply Hother; unfold OUTPUT_LOG_LEVELS; lia);
    try assumption.
  reflexivity.
Qed.

End FarApart.

(** As long as fewer than [2 ^ 31 - 1] calls of [StoreOutput] have been
    made since the start, every lid in the rings is below [2 ^ 31] and
    every query returns its entries in ascending order of lids. *)
Lemma TRI_BufferLogging_sorted_early calls st level start useUpto :
  Buffer.StoreOutput_all calls Buffer.initial = Some st ->
  Z.of_nat (length calls) < 2 ^ 31 - 1 ->
  exists result,
    Buffer.TRI_BufferLogging level start useUpto st = Some result /\
    result ≡ₚ Buffer.duplicate <$>
              filter (fun buf => Buffer.selected start buf = true)
                     (Buffer.merged_rings level useUpto st) /\
    Sorted Buffer.lid_le result.
Proof.
  intros Hrun Hfew.
  destruct (StoreOutput_all_oldest_first calls Buffer.initial initial_wf)
    as (st' & Hrun' & Hwf & _ & Hview).
  rewrite Hrun in Hrun'. injection Hrun' as <-.
  assert (Hlids : forall buf,
            buf ∈ Buffer.merged_rings level useUpto st ->
            0 <= Buffer._lid buf < 2 ^ 31).
  { intros buf Hbuf. unfold Buffer.merged_rings in Hbuf.
    apply list_elem_of_In, in_concat in Hbuf as (ring & Hring & Hbuf).
    apply list_elem_of_In in Hring, Hbuf.
    apply list_elem_of_fmap in Hring as (i & -> & Hi).
    apply list_elem_of_lookup in Hi as [k Hk].
    apply lookup_seqZ in Hk as [-> Hk].
    pose proof (query_pos_range level) as Hpos.
    set (i := (if useUpto then 0 else Buffer.query_pos level) + Z.of_nat k)
      in *.
    assert (Hi : 0 <= i < Buffer.OUTPUT_LOG_LEVELS)
      by (subst i; destruct useUpto; lia).
    assert (Hold : buf ∈ Buffer.oldest_first st i)
      by (unfold Buffer.oldest_first; by apply elem_of_rotate).
    rewrite (Hview i Hi) in Hold.
    apply subseteq_drop in Hold.
    apply elem_of_app in Hold as [->%initial_slots|Hnew]; [simpl; lia|].
    apply list_elem_of_filter in Hnew as [_ Hnew].
    apply entries_of_lid_bounds in Hnew;
      [|unfold Buffer.initial; simpl; lia..].
    pose proof (entries_of_length_le (Buffer.BufferLID Buffer.initial) calls).
    unfold Buffer.initial in *. simpl in *. lia. }
  apply TRI_BufferLogging_sorted; [done|].
  intros a c [_ Ha%Hlids]%list_elem_of_filter [_ Hc%Hlids]%list_elem_of_filter.
  unfold Buffer.lids_close. lia.
Qed.

(** C5 (failing input). After one ERROR message, [2 ^ 31] INFO messages
    with an empty text and one more INFO message, all logged from the
    initial state, the cumulative query at level INFO returns the entry
    with lid [2 ^ 31 + 2] before the entry with lid 1: the comparator
    cuts the difference of the two lids down to an [int] and so reports
    the smaller lid as the greater one. *)
Theorem TRI_BufferLogging_far_lids_descending :
  Buffer.LidCompare (Buffer.entry_of 1 2 0 "disk full")
                    (Buffer.entry_of (2 ^ 31 + 2) 4 0 "started") = 2 ^ 31 - 1
  /\ exists st,
       Buffer.StoreOutput_all (Buffer.far_apart_calls (Z.to_nat (2 ^ 31)))
                              Buffer.initial = Some st /\
       Buffer.TRI_BufferLogging 4 0 true st =
         Some [ {| Buffer._lid := 2 ^ 31 + 2; Buffer._level := 4;
                   Buffer._timestamp := 0;
                   Buffer._text := Some "started"%string |};
                {| Buffer._lid := 1; Buffer._level := 2;
                   Buffer._timestamp := 0;
                   Buffer._text := Some "disk full"%string |} ].
Proof.
  split; [reflexivity|].
  apply far_apart_query. apply Z2Nat.id. discriminate.
Qed.

(** ** The formatter *)

Section Formatter.
Import Level Engine.

Lemma string_app_assoc (a b c : string) :
  ((a +:+ b) +:+ c = a +:+ (b +:+ c))%string.
Proof.
  induction a as [|x a IH]; [done|].
  change (String x ((a +:+ b) +:+ c) = String x (a +:+ (b +:+ c)))%string.
  by rewrite IH.
Qed.

Lemma slen_app (a b : string) : slen (a +:+ b) = slen a + slen b.
Proof. unfold slen. rewrite string_length_app. lia. Qed.

Lemma slen_nonneg (a : string) : 0 <= slen a.
Proof. unfold slen. lia. Qed.

Lemma str_take_all (n : nat) (s : string) :
  (String.length s <= n)%nat -> str_take n s = s.
Proof.
  unfold str_take. revert n. induction s as [|c s IH]; intros n Hn.
  - by destruct n.
  - destruct n as [|n]; simpl in *; [lia|]. rewrite IH; [done | lia].
Qed.

Lemma stored_all (size : Z) (s : string) : slen s < size -> stored size s = s.
Proof. intros Hs. unfold stored. apply str_take_all. unfold slen in Hs. lia. Qed.

Variable st : state.
Variable at_ : site.
Variable level : Z.
Variables currentProcessId threadNumber : Z.
Variable b : string.

(** [GenerateMessage] on a format that renders to [b]: with room for the
    complete rendering it returns its length and leaves it in the buffer;
    without, it returns a length that does not fit and is at most the
    complete one. *)
Lemma GenerateMessage_rendered (size : Z) :
  0 <= size < 2 ^ 31 ->
  let pre := message_prefix st at_ level currentProcessId threadNumber in
  let g := GenerateMessage st size at_ level currentProcessId threadNumber
             (Some b) in
  (slen pre + slen b < size ->
     ret g = slen pre + slen b /\ offset g = slen pre /\
     written g = (pre +:+ b)%string)
  /\ (size <= slen pre + slen b -> size <= ret g <= slen pre + slen b).
Proof.
  intros Hsize pre g. subst pre g.
  unfold GenerateMessage, message_prefix.
  set (s0 := match OutputPrefix st with
             | Some (String c r) => (String c r +:+ " ")%string
             | _ => EmptyString
             end).
  set (s1 := if ShowThreadIdentifier st then _ else _).
  set (s2 := (level_name level +:+ " ")%string).
  set (sln := (0 <? ShowLineNumber st) || (level =? TRI_LOG_LEVEL_DEBUG)
              || (level =? TRI_LOG_LEVEL_TRACE)).
  set (s3 := if sln then _ else _).
  rewrite to_int_small by lia.
  rewrite !slen_app.
  pose proof (slen_nonneg s0). pose proof (slen_nonneg s1).
  pose proof (slen_nonneg s2). pose proof (slen_nonneg s3).
  pose proof (slen_nonneg b).
  assert (Hs3 : sln = false -> slen s3 = 0) by (intros Hf; subst s3; by rewrite Hf).
  destruct (Z.leb_spec size (slen s0)); [simpl; lia|].
  destruct (Z.leb_spec size (slen s0 + slen s1)); [simpl; lia|].
  destruct (Z.leb_spec size (slen s0 + slen s1 + slen s2)); [simpl; lia|].
  destruct sln eqn:Hsln; simpl.
  - destruct (Z.leb_spec size (slen s0 + slen s1 + slen s2 + slen s3));
      simpl; [lia|].
    split; [|lia]. intros Hfit. split; [lia|]. split; [lia|].
    rewrite stored_all by (rewrite !slen_app; lia).
    by rewrite !string_app_assoc.
  - specialize (Hs3 eq_refl).
    split; [|lia]. intros Hfit. split; [lia|]. split; [lia|].
    rewrite stored_all by (rewrite !slen_app; lia).
    by rewrite !string_app_assoc.
Qed.

End Formatter.

Section Growth.
Import Level Engine.

Variable st : state.
Variable amb : ambient.
Variable at_ : site.
Variable level : Z.
Variable severity : TRI_log_severity_e.
Variable fmt : string.
Variable b : string.

Hypothesis time_prefix_short : slen (time_prefix amb) <= 31.

Local Abbreviation len := (slen (time_prefix amb)).
Local Abbreviation total := (required_size st amb at_ level b).
Local Abbreviation prefix := (message_prefix st at_ level (pid amb) (thread amb)).

(** The record that a successful rendering hands to [OutputMessage]. *)
Local Abbreviation emitted :=
  (Emit level severity (complete_message st amb at_ level b)
        (total + len) (slen prefix + len)).

(** The growth loop with an allocator that never fails: it ends with the
    complete record when that is below the ceiling, and with a plain
    return otherwise. *)
Lemma LogThread_grow_result (fuel : nat) (n : Z) :
  (forall size, TRI_Allocate amb size = true) ->
  2048 - len <= n <= total ->
  (Z.to_nat (maxSize - n) < fuel)%nat ->
  LogThread_grow fuel st amb at_ level severity fmt (Some b) len n =
  Some (if total <? maxSize then emitted else Return).
Proof.
  intros Halloc. revert n. induction fuel as [|fuel IH]; intros n Hn Hfuel.
  - lia.
  - pose proof (slen_nonneg (time_prefix amb)) as Hlen.
    assert (Hpre : 0 <= slen prefix <= total).
    { unfold required_size. pose proof (slen_nonneg prefix).
      pose proof (slen_nonneg b). lia. }
    cbn [LogThread_grow]. unfold maxSize in *.
    destruct (Z.ltb_spec n (100 * 1024)) as [Hbelow|Hreached].
    + rewrite Halloc. cbn [negb].
      rewrite (wrap64_small (n + 1)) by lia.
      destruct (GenerateMessage_rendered st at_ level (pid amb) (thread amb) b
                  (n + 1)) as [Hfits Hshort]; [lia|].
      fold (required_size st amb at_ level b) in Hfits, Hshort.
      destruct (Z.lt_ge_cases total (n + 1)) as [Hdone|Hmore].
      * destruct (Hfits Hdone) as (Hret & Hoff & Hwritten).
        rewrite Hret, Hoff, Hwritten.
        destruct (Z.eqb_spec total (-1)); [lia|].
        destruct (Z.ltb_spec n total); [lia|].
        rewrite !wrap64_small by lia.
        destruct (Z.ltb_spec 0 (total + len - 1)); [|lia].
        destruct (Z.ltb_spec total (100 * 1024)); [done | lia].
      * specialize (Hshort Hmore).
        destruct (Z.eqb_spec (ret (GenerateMessage st (n + 1) at_ level
                                     (pid amb) (thread amb) (Some b))) (-1));
          [lia|].
        destruct (Z.ltb_spec n (ret (GenerateMessage st (n + 1) at_ level
                                       (pid amb) (thread amb) (Some b))));
          [|lia].
        apply IH; lia.
    + destruct (Z.ltb_spec total (100 * 1024)); [lia | done].
Qed.

(** A rendering that fits the stack buffer is emitted without any
    allocation. *)
Lemma LogThread_stack :
  total < 2048 - len ->
  LogThread st amb at_ level severity fmt (Some b) = Some emitted.
Proof.
  intros Hstack. pose proof (slen_nonneg (time_prefix amb)) as Hlen.
  unfold LogThread.
  rewrite (wrap64_small (2048 - len)) by lia.
  rewrite to_int_small by lia.
  destruct (GenerateMessage_rendered st at_ level (pid amb) (thread amb) b
              (2048 - len)) as [Hfits _]; [lia|].
  fold (required_size st amb at_ level b) in Hfits.
  destruct (Hfits Hstack) as (Hret & Hoff & Hwritten).
  rewrite Hret, Hoff, Hwritten.
  pose proof (slen_nonneg prefix). pose proof (slen_nonneg b).
  unfold required_size in *.
  destruct (Z.eqb_spec (slen prefix + slen b) (-1)); [lia|].
  destruct (Z.ltb_spec (slen prefix + slen b) (2048 - len)); [|lia].
  by rewrite !wrap64_small by lia.
Qed.

(** [LogThread] with an allocator that never fails. *)
Lemma LogThread_result :
  (forall size, TRI_Allocate amb size = true) ->
  LogThread st amb at_ level severity fmt (Some b) =
  Some (if total <? maxSize then emitted else Return).
Proof.
  intros Halloc. pose proof (slen_nonneg (time_prefix amb)) as Hlen.
  unfold LogThread.
  rewrite (wrap64_small (2048 - len)) by lia.
  rewrite to_int_small by lia.
  destruct (GenerateMessage_rendered st at_ level (pid amb) (thread amb) b
              (2048 - len)) as [Hfits Hshort]; [lia|].
  fold (required_size st amb at_ level b) in Hfits, Hshort.
  destruct (Z.lt_ge_cases total (2048 - len)) as [Hstack|Hheap].
  - destruct (Hfits Hstack) as (Hret & Hoff & Hwritten).
    rewrite Hret, Hoff, Hwritten.
    pose proof (slen_nonneg prefix). pose proof (slen_nonneg b).
    unfold required_size in *.
    destruct (Z.eqb_spec (slen prefix + slen b) (-1)); [lia|].
    destruct (Z.ltb_spec (slen prefix + slen b) (2048 - len)); [|lia].
    rewrite !wrap64_small by lia.
    unfold maxSize.
    destruct (Z.ltb_spec (slen prefix + slen b) (100 * 1024)); [done | lia].
  - specialize (Hshort Hheap).
    destruct (Z.eqb_spec (ret (GenerateMessage st (2048 - len) at_ level
                                 (pid amb) (thread amb) (Some b))) (-1));
      [lia|].
    destruct (Z.ltb_spec (ret (GenerateMessage st (2048 - len) at_ level
                                 (pid amb) (thread amb) (Some b)))
                         (2048 - len)); [lia|].
    apply LogThread_grow_result; [done | lia |].
    unfold maxSize. lia.
Qed.

(** [TRI_Log] while logging is active, with an allocator that never
    fails: a call whose complete rendering reaches the ceiling returns
    without any effect; any other call hands the complete record to
    [OutputMessage]. *)
Lemma TRI_Log_result (fuel : nat) :
  LoggingActive st = true ->
  (forall size, TRI_Allocate amb size = true) ->
  TRI_Log (S fuel) amb at_ level severity fmt (Some b) st =
  if total <? maxSize
  then OutputMessage amb level severity (complete_message st amb at_ level b)
                     (total + len) (slen prefix + len) st
  else Some st.
Proof.
  intros Hactive Halloc. cbn [TRI_Log]. rewrite Hactive. cbn [negb].
  rewrite LogThread_result by done.
  by destruct (total <? maxSize).
Qed.

(** When the first allocation of the growth loop fails, [LogThread] ends
    by logging the diagnostic in place of the record. *)
Lemma LogThread_allocation_fails :
  (forall size, TRI_Allocate amb size = false) ->
  2048 - len <= total < maxSize ->
  exists bytes,
    2048 <= bytes <= total + len /\
    LogThread st amb at_ level severity fmt (Some b) =
    Some (Again TRI_LOG_LEVEL_ERROR TRI_LOG_SEVERITY_HUMAN
            "log message is too large (%d bytes)"
            (Some ("log message is too large (" +:+ fmt_d bytes
                     +:+ " bytes)")%string)).
Proof.
  intros Halloc Htotal. pose proof (slen_nonneg (time_prefix amb)) as Hlen.
  unfold LogThread.
  rewrite (wrap64_small (2048 - len)) by lia.
  rewrite to_int_small by lia.
  destruct (GenerateMessage_rendered st at_ level (pid amb) (thread amb) b
              (2048 - len)) as [_ Hshort]; [lia|].
  fold (required_size st amb at_ level b) in Hshort.
  specialize (Hshort (proj1 Htotal)).
  set (n := ret (GenerateMessage st (2048 - len) at_ level
                   (pid amb) (thread amb) (Some b))) in *.
  exists (n + len). split; [lia|].
  destruct (Z.eqb_spec n (-1)); [lia|].
  destruct (Z.ltb_spec n (2048 - len)); [lia|].
  replace (Z.to_nat maxSize) with (S (Z.to_nat (maxSize - 1)))
    by (unfold maxSize; lia).
  cbn [LogThread_grow].
  destruct (Z.ltb_spec n maxSize); [|lia].
  by rewrite Halloc.
Qed.

End Growth.

Lemma filler_length (n : nat) : String.length (Engine.filler n) = n.
Proof. induction n as [|n IH]; simpl; [done | by rewrite IH]. Qed.




(** ** Logging while inactive *)

(** C1 (as the code has it). While the active flag is false, a record
    that reaches [OutputMessage] is printed to stderr, in red for FATAL
    and ERROR, in yellow for WARNING and plain otherwise, and nothing
    else changes; a call of [TRI_Log], the entry point, returns before
    anything is formatted and leaves the state, stderr included, as it
    was. *)
Theorem inactive_OutputMessage_writes_stderr
    (st : Engine.state) (amb : Engine.ambient) :
  Engine.LoggingActive st = false ->
  (forall level severity message length offset,
     Engine.OutputMessage amb level severity message length offset st =
     Some (Engine.set_err
             (Engine.err st
              ++ [(if (level =? Level.TRI_LOG_LEVEL_FATAL)
                      || (level =? Level.TRI_LOG_LEVEL_ERROR)
                   then Engine.RED
                   else if level =? Level.TRI_LOG_LEVEL_WARNING
                        then Engine.YELLOW else Engine.PLAIN,
                   c_str message)])
             st))
  /\ (forall fuel at_ level severity fmt body,
        Engine.TRI_Log (S fuel) amb at_ level severity fmt body st = Some st).
Proof.
  intros Hinactive. split.
  - intros level severity message length offset.
    unfold Engine.OutputMessage. rewrite Hinactive. cbn [negb].
    unfold Engine.WriteStderr.
    destruct ((level =? Level.TRI_LOG_LEVEL_FATAL)
              || (level =? Level.TRI_LOG_LEVEL_ERROR)); [done|].
    by destruct (level =? Level.TRI_LOG_LEVEL_WARNING).
  - intros fuel at_ level severity fmt body.
    cbn [Engine.TRI_Log]. by rewrite Hinactive.
Qed.

(** An ERROR record before initialisation: handed to [OutputMessage] it
    appears on stderr in red. *)
Lemma inactive_OutputMessage_writes_stderr_witness :
  let st := Engine.mkState false false [] [] Buffer.initial None false 0
              [] [] in
  let amb := Engine.mkAmbient 1451606400 "2016-01-01T00:00:00Z " 42 7
               (fun _ => true) "" in
  Engine.err <$> Engine.OutputMessage amb 2 Level.TRI_LOG_SEVERITY_HUMAN
                   "no config" 9 0 st
  = Some [(Engine.RED, "no config"%string)].
Proof.
  intros st amb.
  destruct (inactive_OutputMessage_writes_stderr st amb) as [Hout _];
    [reflexivity|].
  rewrite Hout. reflexivity.
Defined.

(** The same record logged through [TRI_Log] before initialisation: the
    call returns and stderr is still empty. *)
Lemma TRI_Log_inactive_silent :
  let st := Engine.mkState false false [] [] Buffer.initial None false 0
              [] [] in
  let amb := Engine.mkAmbient 1451606400 "2016-01-01T00:00:00Z " 42 7
               (fun _ => true) "" in
  let at_ := Engine.mkSite "main" "arangod.cpp" 10 in
  Engine.err <$> Engine.TRI_Log 1 amb at_ 2 Level.TRI_LOG_SEVERITY_HUMAN
                   "%s" (Some "no config"%string) st
  = Some [].
Proof. reflexivity. Qed.

(** ** Delivery: synchronous, queued and by the worker *)

Section Delivery.
Import Level Appender Engine Runs.

(** Dispatching with the recording [logMessage] appends the calls for
    the message to [delivered] and changes nothing else. *)
Lemma dispatch_delivers msg appenders severity message st :
  dispatch (logMessage msg) appenders severity message st =
  set_delivered
    (delivered st ++ ((fun i => (i, msg)) <$> invoked appenders severity message))
    st.
Proof.
  unfold dispatch. rewrite dispatch_from_calls.
  assert (Hvalid : Forall (fun k => is_Some (appenders !! (k - 0)%nat))
                          (invoked appenders severity message)).
  { apply Forall_forall. intros k Hk. rewrite Nat.sub_0_r.
    apply (dispatch_from_record_elem severity message 0) in Hk
      as (it & Hit & _). by eexists. }
  unfold invoked, dispatch in *.
  generalize dependent (dispatch_from
    (fun (i : nat) (_ : TRI_log_appender_t) calls => calls ++ [i])
    0 appenders severity message []).
  intros l Hvalid. revert st.
  induction l as [|k l IH]; intros st.
  - simpl. rewrite app_nil_r. by destruct st.
  - apply Forall_cons in Hvalid as [[it Hit] Hvalid].
    simpl. rewrite Hit. rewrite IH by done.
    unfold logMessage, set_delivered. simpl.
    by rewrite <- app_assoc.
Qed.

(** The worker's loop over a swapped-out batch. *)
Lemma deliver_batch buffer st :
  foldl (fun st msg =>
           dispatch (logMessage msg) (Appenders st)
                    (_severity msg) (_message msg) st)
        st buffer =
  set_delivered
    (delivered st ++ concat (calls_of (Appenders st) <$> buffer)) st.
Proof.
  revert st. induction buffer as [|msg buffer IH]; intros st.
  - simpl. rewrite app_nil_r. by destruct st.
  - simpl. rewrite dispatch_delivers, IH.
    unfold set_delivered, calls_of. simpl. by rewrite <- app_assoc.
Qed.

End Delivery.

(** What one iteration of the worker does to the state. *)
Lemma iteration_effect (st : Engine.state) (sl : Z) :
  (Engine.MessageQueueWorker_iteration st sl).1.1 =
  Engine.set_delivered
    (Engine.delivered st
     ++ concat (Runs.calls_of (Engine.Appenders st)
                  <$> Engine.LogMessageQueue st))
    (Engine.set_queue [] st).
Proof.
  unfold Engine.MessageQueueWorker_iteration.
  destruct (Engine.LogMessageQueue st) as [|msg q] eqn:Hq.
  - simpl. rewrite app_nil_r. by destruct st.
  - by rewrite deliver_batch.
Qed.


Section EmissionRuns.
Import Level Appender Engine Runs.

(** A run of emissions while logging is active and appenders are
    registered: the HUMAN records go to the ring buffers, and all records
    go to the queue in threaded mode and to the appenders otherwise. *)
Lemma OutputMessage_all_active amb emissions st :
  LoggingActive st = true -> Appenders st <> [] ->
  OutputMessage_all amb emissions st =
  b' ← Buffer.StoreOutput_all (stores_of (now amb) emissions) (Buffers st);
  Some (if ThreadedLogging st
        then set_queue (LogMessageQueue st ++ (message_of <$> emissions))
                       (set_buffers b' st)
        else set_delivered
               (delivered st
                ++ concat (calls_of (Appenders st)
                             <$> (message_of <$> emissions)))
               (set_buffers b' st)).
Proof.
  revert st. induction emissions as [|e rest IH]; intros st Hactive Happ.
  - destruct st as [act thr apps q b pre sti sln e d].
    cbn. rewrite !app_nil_r. by destruct thr.
  - assert (Hstores : stores_of (now amb) (e :: rest) =
            if bool_decide (e_severity e = TRI_LOG_SEVERITY_HUMAN)
            then Buffer.mkCall (e_level e) (now amb) (buffered_text e)
                 :: stores_of (now amb) rest
            else stores_of (now amb) rest).
    { unfold stores_of. rewrite filter_cons.
      destruct (decide (e_severity e = TRI_LOG_SEVERITY_HUMAN)).
      - by rewrite bool_decide_true.
      - by rewrite bool_decide_false. }
    rewrite Hstores. clear Hstores.
    cbn [OutputMessage_all]. unfold OutputMessage at 1.
    rewrite Hactive. cbn [negb]. fold (buffered_text e).
    assert (Hstep : forall b1,
      (match Appenders (set_buffers b1 st) with
       | [] => Some (WriteStderr (e_level e) (e_message e) (set_buffers b1 st))
       | _ :: _ =>
           if ThreadedLogging (set_buffers b1 st)
           then Some (set_queue (LogMessageQueue (set_buffers b1 st)
                                   ++ [message_of e]) (set_buffers b1 st))
           else Some (dispatch (logMessage (message_of e))
                        (Appenders (set_buffers b1 st)) (e_severity e)
                        (e_message e) (set_buffers b1 st))
       end ≫= λ st', OutputMessage_all amb rest st') =
      b' ← Buffer.StoreOutput_all (stores_of (now amb) rest) b1;
      Some (if ThreadedLogging st
            then set_queue (LogMessageQueue st
                              ++ (message_of <$> e :: rest))
                           (set_buffers b' st)
            else set_delivered
                   (delivered st
                    ++ concat (calls_of (Appenders st)
                                 <$> (message_of <$> e :: rest)))
                   (set_buffers b' st))).
    { intros b1. cbn [set_buffers Appenders ThreadedLogging LogMessageQueue].
      destruct (Appenders st) as [|a apps] eqn:Happs; [done|].
      rewrite <- Happs.
      destruct (ThreadedLogging st) eqn:Hthreaded; cbn [mbind option_bind].
      - rewrite IH by (simpl; congruence). simpl.
        destruct (Buffer.StoreOutput_all _ b1) as [b'|]; [|done].
        cbn [mbind option_bind]. rewrite Hthreaded.
        unfold set_queue, set_buffers. simpl. by rewrite <- app_assoc.
      - rewrite dispatch_delivers.
        rewrite IH by (simpl; congruence). simpl.
        destruct (Buffer.StoreOutput_all _ b1) as [b'|]; [|done].
        cbn [mbind option_bind]. rewrite Hthreaded.
        unfold set_delivered, set_buffers, calls_of. simpl.
        by rewrite <- app_assoc. }
    destruct (bool_decide (e_severity e = TRI_LOG_SEVERITY_HUMAN)).
    + cbn [Buffer.StoreOutput_all Buffer.call_level
           Buffer.call_timestamp Buffer.call_text].
      destruct (Buffer.StoreOutput (e_level e) (now amb) (buffered_text e)
                  (Buffers st)) as [b1|]; [|done].
      cbn [mbind option_bind]. apply Hstep.
    + cbn [mbind option_bind].
      rewrite <- (Hstep (Buffers st)). by destruct st.
Qed.

End EmissionRuns.

(** X2. Threaded and synchronous delivery agree. From a state with
    logging active, appenders registered, an empty queue and well-formed
    ring buffers, a run of emissions goes through in either mode; in
    threaded mode nothing reaches an appender before the worker runs and
    the queue holds the records in emission order; after one iteration
    of the worker the calls of [logMessage], the ring buffers and stderr
    are the same as after the synchronous run, and the queue is empty.
    (The copy of the text that a queued message keeps is taken to be
    allocated.) *)
Theorem threaded_delivery_matches_synchronous
    (amb : Engine.ambient) (emissions : list Runs.emission)
    (st : Engine.state) :
  Engine.LoggingActive st = true ->
  Engine.Appenders st <> [] ->
  Engine.LogMessageQueue st = [] ->
  Buffer.wf (Engine.Buffers st) ->
  exists sync queued,
    Runs.OutputMessage_all amb emissions (Runs.set_threaded false st)
      = Some sync
    /\ Runs.OutputMessage_all amb emissions (Runs.set_threaded true st)
      = Some queued
    /\ Engine.delivered queued = Engine.delivered st
    /\ Engine.LogMessageQueue queued = Runs.message_of <$> emissions
    /\ forall sl,
         let worked := (Engine.MessageQueueWorker_iteration queued sl).1.1 in
         Engine.delivered worked = Engine.delivered sync
         /\ Engine.Buffers worked = Engine.Buffers sync
         /\ Engine.err worked = Engine.err sync
         /\ Engine.LogMessageQueue worked = [].
Proof.
  intros Hactive Happ Hqueue Hwf.
  destruct (StoreOutput_all_oldest_first
              (Runs.stores_of (Engine.now amb) emissions)
              (Engine.Buffers st) Hwf) as (b' & Hstores & _).
  eexists. eexists.
  rewrite !OutputMessage_all_active by done. simpl.
  rewrite Hstores. simpl. rewrite Hqueue.
  split; [reflexivity|]. split; [reflexivity|].
  split; [done|]. split; [done|].
  intros sl. rewrite iteration_effect. simpl. done.
Qed.

(** Two records, one for the history and one USAGE record, logged with a
    single catch-all appender registered: queued in threaded mode, and
    after one round of the worker delivered as in synchronous mode. *)
Lemma threaded_delivery_matches_synchronous_witness :
  let st := Engine.mkState true false
              [Appender.mkAppender Appender.APPENDER_TYPE_FILE None
                 Level.TRI_LOG_SEVERITY_UNKNOWN false]
              [] Buffer.initial None false 0 [] [] in
  let amb := Engine.mkAmbient 1451606400 "2016-01-01T00:00:00Z " 42 7
               (fun _ => true) "" in
  let emissions :=
    [Runs.mkEmission 4 Level.TRI_LOG_SEVERITY_HUMAN
       "2016-01-01T00:00:00Z [42] INFO started" 38 31;
     Runs.mkEmission 4 Level.TRI_LOG_SEVERITY_USAGE
       "2016-01-01T00:00:00Z [42] INFO GET /" 36 31] in
  exists sync queued,
    Runs.OutputMessage_all amb emissions (Runs.set_threaded false st)
      = Some sync
    /\ Runs.OutputMessage_all amb emissions (Runs.set_threaded true st)
      = Some queued
    /\ Engine.delivered queued = []
    /\ Engine.delivered
         (Engine.MessageQueueWorker_iteration queued 100).1.1
       = Engine.delivered sync.
Proof.
  intros st amb emissions.
  destruct (threaded_delivery_matches_synchronous amb emissions st)
    as (sync & queued & Hsync & Hqueued & Hnone & _ & Hworked).
  - reflexivity.
  - discriminate.
  - reflexivity.
  - exact initial_wf.
  - exists sync, queued. split; [exact Hsync|]. split; [exact Hqueued|].
    split; [exact Hnone|]. exact (proj1 (Hworked 100)).
Defined.

(** ** The text a ring slot keeps *)

Section StoredText.
Import Buffer.

Lemma substring_length (n : nat) (s : string) :
  String.length (String.substring 0 n s) = Nat.min n (String.length s).
Proof.
  revert s. induction n as [|n IH]; intros [|c s]; simpl; try done.
  by rewrite IH.
Qed.

Lemma substring_app_l (a b : string) :
  String.substring 0 (String.length a) (a +:+ b) = a.
Proof.
  induction a as [|c a IH]; simpl.
  - by destruct b.
  - by rewrite IH.
Qed.

Lemma substring_app_r (a b : string) (n : nat) :
  String.substring (String.length a) n (a +:+ b) = String.substring 0 n b.
Proof. induction a as [|c a IH]; [done|]. simpl. exact IH. Qed.

Lemma stored_text_short (text : string) :
  (String.length text <= 256)%nat -> stored_text text = text.
Proof.
  intros Hshort. unfold stored_text, OUTPUT_MAX_LENGTH.
  destruct (Z.ltb_spec 256 (Z.of_nat (String.length text))); [lia|done].
Qed.

Lemma stored_text_long (text : string) :
  (256 < String.length text)%nat ->
  stored_text text = (String.substring 0 252 text +:+ " ...")%string
  /\ String.length (String.substring 0 252 text) = 252%nat.
Proof.
  intros Hlong. unfold stored_text, OUTPUT_MAX_LENGTH, str_take.
  destruct (Z.ltb_spec 256 (Z.of_nat (String.length text))); [|lia].
  change (Z.to_nat (256 - 4)) with 252%nat. split; [done|].
  rewrite substring_length. lia.
Qed.

Lemma stored_text_length (text : string) :
  (String.length (stored_text text) <= 256)%nat.
Proof.
  destruct (decide (String.length text <= 256)%nat) as [Hshort|Hlong].
  - by rewrite stored_text_short.
  - destruct (stored_text_long text) as [-> Hlen]; [lia|].
    rewrite string_length_app, Hlen. simpl. lia.
Qed.

End StoredText.

(** X3. A call of [StoreOutput] for one of the six rings, on well-formed
    buffers, moves the ring's cursor one slot on and writes there an
    entry with the current lid, the level, the timestamp and a copy of
    the text. A text of up to 256 bytes is kept as it is; a longer one
    is cut to exactly 256 bytes, its first 252 followed by [" ..."]. *)
Theorem StoreOutput_truncates_long_text
    (st : Buffer.buffers) (level timestamp : Z) (text : string) :
  Buffer.wf st ->
  wrap64 level < Buffer.OUTPUT_LOG_LEVELS ->
  exists st' t,
    Buffer.StoreOutput level timestamp text st = Some st'
    /\ Buffer.cursor_at st' (wrap64 level) =
       (Buffer.cursor_at st (wrap64 level) + 1) mod Buffer.OUTPUT_BUFFER_SIZE
    /\ Buffer.ring_at st' (wrap64 level)
         !! Z.to_nat (Buffer.cursor_at st' (wrap64 level))
       = Some {| Buffer._lid := Buffer.BufferLID st; Buffer._level := level;
                 Buffer._timestamp := timestamp; Buffer._text := Some t |}
    /\ (String.length t <= 256)%nat
    /\ ((String.length text <= 256)%nat -> t = text)
    /\ ((256 < String.length text)%nat ->
        String.length t = 256%nat
        /\ String.substring 0 252 t = String.substring 0 252 text
        /\ String.substring 252 4 t = " ..."%string).
Proof.
  intros Hwf Hlevel.
  assert (Hpos : 0 <= wrap64 level < Buffer.OUTPUT_LOG_LEVELS).
  { split; [|done]. unfold wrap64, wrap. apply Z.mod_pos_bound. lia. }
  destruct (StoreOutput_effect level timestamp text st Hwf Hlevel)
    as (st' & Hrun & Hwf' & _ & Hcur & Hring & _).
  destruct (wf_ring_at st _ Hwf Hpos) as [_ Hlen].
  destruct (wf_cursor_at st' _ Hwf' Hpos) as [_ Hrange].
  exists st', (Buffer.stored_text text).
  split; [done|]. split; [done|]. split.
  - rewrite Hring, <- Hcur. apply list_lookup_insert_eq.
    rewrite Hlen. unfold Buffer.OUTPUT_BUFFER_SIZE in *. lia.
  - split; [apply stored_text_length|]. split; [apply stored_text_short|].
    intros Hlong. destruct (stored_text_long text Hlong) as [-> Hlen252].
    split; [rewrite string_length_app, Hlen252; simpl; lia|]. split.
    + rewrite <- Hlen252 at 1. apply substring_app_l.
    + rewrite <- Hlen252 at 1. by rewrite substring_app_r.
Qed.

(** An INFO message of 300 bytes stored in the initial buffers. *)
Lemma StoreOutput_truncates_long_text_witness :
  exists st' t,
    Buffer.StoreOutput 4 7 (Engine.filler 300) Buffer.initial = Some st'
    /\ Buffer.ring_at st' 4 !! 1%nat
       = Some {| Buffer._lid := 1; Buffer._level := 4;
                 Buffer._timestamp := 7; Buffer._text := Some t |}
    /\ String.length t = 256%nat
    /\ String.substring 252 4 t = " ..."%string.
Proof.
  destruct (StoreOutput_truncates_long_text Buffer.initial 4 7
              (Engine.filler 300))
    as (st' & t & Hrun & Hcur & Hslot & _ & _ & Hlong).
  - exact initial_wf.
  - vm_compute. reflexivity.
  - exists st', t. split; [exact Hrun|].
    rewrite Hcur in Hslot. split; [exact Hslot|].
    destruct Hlong as (Hlen & _ & Htail).
    + rewrite filler_length. lia.
    + split; [exact Hlen | exact Htail].
Defined.

(** ** Where the entries of a query come from *)

Section History.
Import Buffer.

Lemma c_str_length (s : string) :
  (String.length (c_str s) <= String.length s)%nat.
Proof.
  induction s as [|c s IH]; simpl; [done|].
  destruct (Ascii.eqb c NUL); simpl; lia.
Qed.

Lemma entries_of_origin lid calls e :
  e ∈ entries_of lid calls ->
  exists c, c ∈ calls /\ wrap64 (call_level c) < OUTPUT_LOG_LEVELS /\
    _level e = call_level c /\ _timestamp e = call_timestamp c /\
    _text e = Some (stored_text (call_text c)).
Proof.
  revert lid. induction calls as [|c rest IH]; intros lid; simpl.
  - by intros ?%elem_of_nil.
  - destruct (Z.leb_spec OUTPUT_LOG_LEVELS (wrap64 (call_level c))).
    + intros (c' & Hin & Hrest)%IH. exists c'.
      split; [apply elem_of_cons; by right | done].
    + intros [->|Hin]%elem_of_cons.
      * exists c. split; [apply elem_of_cons; by left | done].
      * destruct (IH _ Hin) as (c' & Hin' & Hrest). exists c'.
        split; [apply elem_of_cons; by right | done].
Qed.

(** After a run from the initial state a slot of ring [pos] is either
    still empty or holds an entry that the run made for that ring. *)
Lemma ring_member calls st pos buf :
  StoreOutput_all calls initial = Some st ->
  0 <= pos < OUTPUT_LOG_LEVELS ->
  buf ∈ ring_at st pos ->
  buf = empty_slot \/ (buf ∈ entries_of 1 calls /\ in_ring pos buf = true).
Proof.
  intros Hrun Hpos Hin.
  destruct (StoreOutput_all_oldest_first calls initial initial_wf)
    as (st' & Hrun' & _ & _ & Hview).
  rewrite Hrun in Hrun'. injection Hrun' as <-.
  assert (Hold : buf ∈ oldest_first st pos).
  { unfold oldest_first. by apply elem_of_rotate. }
  rewrite (Hview pos Hpos) in Hold.
  apply subseteq_drop in Hold. apply elem_of_app in Hold as [Hold|Hold].
  - left. by apply (initial_slots pos).
  - right. apply list_elem_of_filter in Hold. by destruct Hold.
Qed.

Lemma merged_rings_elem level useUpto st buf :
  buf ∈ merged_rings level useUpto st ->
  exists i, (if useUpto then 0 else query_pos level) <= i <= query_pos level
            /\ buf ∈ ring_at st i.
Proof.
  unfold merged_rings. intros Hin.
  apply list_elem_of_In, in_concat in Hin as (ring & Hring & Hbuf).
  apply list_elem_of_In, list_elem_of_fmap in Hring as (i & -> & Hi).
  apply elem_of_seqZ in Hi. exists i.
  split; [lia | by apply list_elem_of_In].
Qed.

End History.

(** X4. After any run of [StoreOutput] calls from the initial buffers a
    history query succeeds, and every entry it returns stems from one of
    the calls: it carries that call's level and timestamp, its lid is at
    least [start], its ring lies in the range the query reads (so no
    entry of level TRACE or beyond is ever returned), and its text is the
    call's text as [StoreOutput] kept it, read up to its first NUL:
    non-empty and at most 256 bytes long. *)
Theorem TRI_BufferLogging_returns_stored_entries
    (calls : list Buffer.store_call) (st : Buffer.buffers)
    (level start : Z) (useUpto : bool) :
  Buffer.StoreOutput_all calls Buffer.initial = Some st ->
  exists result,
    Buffer.TRI_BufferLogging level start useUpto st = Some result
    /\ Forall (fun e =>
         start <= Buffer._lid e
         /\ (if useUpto then 0 else Buffer.query_pos level)
            <= wrap64 (Buffer._level e) <= Buffer.query_pos level
         /\ wrap64 (Buffer._level e) < Buffer.OUTPUT_LOG_LEVELS
         /\ exists c t,
              c ∈ calls
              /\ Buffer._level e = Buffer.call_level c
              /\ Buffer._timestamp e = Buffer.call_timestamp c
              /\ Buffer._text e = Some t
              /\ t = c_str (Buffer.stored_text (Buffer.call_text c))
              /\ t <> EmptyString
              /\ (String.length t <= 256)%nat) result.
Proof.
  intros Hrun.
  assert (Hwf : Buffer.wf st).
  { destruct (StoreOutput_all_oldest_first calls Buffer.initial initial_wf)
      as (st' & Hrun' & Hwf & _).
    rewrite Hrun in Hrun'. by injection Hrun' as <-. }
  destruct (TRI_BufferLogging_entries level start useUpto st Hwf)
    as (result & Hquery & Hperm).
  exists result. split; [done|].
  apply Forall_forall. intros e He.
  rewrite Hperm in He.
  apply list_elem_of_fmap in He as (buf & -> & Hbuf).
  apply list_elem_of_filter in Hbuf as [Hsel Hmerged].
  apply merged_rings_elem in Hmerged as (i & Hi & Hring).
  pose proof (query_pos_range level) as Hrange.
  assert (Hi' : 0 <= i < Buffer.OUTPUT_LOG_LEVELS) by (destruct useUpto; lia).
  unfold Buffer.selected in Hsel.
  apply andb_true_iff in Hsel as [Hstart Htext]. apply Z.leb_le in Hstart.
  destruct (ring_member calls st i buf Hrun Hi' Hring) as [->|[Hmade Hin]].
  { by simpl in Htext. }
  unfold Buffer.in_ring in Hin. apply Z.eqb_eq in Hin.
  destruct (entries_of_origin _ _ _ Hmade)
    as (c & Hc & _ & Hlevel & Htime & Hkept).
  simpl. split; [done|]. split; [lia|]. split; [lia|].
  exists c, (c_str (Buffer.stored_text (Buffer.call_text c))).
  split; [done|]. split; [done|]. split; [done|].
  split; [by rewrite Hkept|]. split; [done|]. split.
  - rewrite Hkept in Htext.
    destruct (Buffer.stored_text (Buffer.call_text c)) as [|ch r]; [done|].
    simpl. by destruct (Ascii.eqb ch NUL).
  - pose proof (c_str_length (Buffer.stored_text (Buffer.call_text c))).
    pose proof (stored_text_length (Buffer.call_text c)). lia.
Qed.

(** An ERROR, a TRACE and an INFO message, then the query for everything
    up to level TRACE: no returned entry lies beyond ring 5. *)
Lemma TRI_BufferLogging_returns_stored_entries_witness :
  let calls := [Buffer.mkCall 2 10 "disk full"; Buffer.mkCall 6 11 "tick";
                Buffer.mkCall 4 12 "started"] in
  exists st result,
    Buffer.StoreOutput_all calls Buffer.initial = Some st
    /\ Buffer.TRI_BufferLogging 6 0 true st = Some result
    /\ Forall (fun e => wrap64 (Buffer._level e) < 6) result.
Proof.
  intros calls.
  destruct (StoreOutput_all_oldest_first calls Buffer.initial initial_wf)
    as (st & Hrun & _).
  destruct (TRI_BufferLogging_returns_stored_entries calls st 6 0 true Hrun)
    as (result & Hquery & Hall).
  exists st, result. split; [exact Hrun|]. split; [exact Hquery|].
  eapply Forall_impl; [exact Hall|].
  intros e (_ & _ & Hring & _). exact Hring.
Defined.

(** ** Store, then query *)

Section RoundTrip.
Import Buffer.

Lemma filter_concat {A} (P : A -> Prop) `{forall x, Decision (P x)}
    (ls : list (list A)) :
  filter P (concat ls) = concat (filter P <$> ls).
Proof.
  induction ls as [|l ls IH]; [done|].
  simpl. by rewrite filter_app, IH.
Qed.

(** Two predicates that exclude each other split a filter in two. *)
Lemma filter_split {A} (P Q R : A -> Prop)
    `{forall x, Decision (P x)} `{forall x, Decision (Q x)}
    `{forall x, Decision (R x)} (l : list A) :
  (forall x, R x <-> P x \/ Q x) -> (forall x, P x -> Q x -> False) ->
  filter P l ++ filter Q l ≡ₚ filter R l.
Proof.
  intros Hor Hdisjoint. induction l as [|x l IH]; [done|].
  rewrite !filter_cons.
  pose proof (Hor x) as Hx. pose proof (Hdisjoint x) as Hx'.
  destruct (decide (P x)) as [HP|HP], (decide (Q x)) as [HQ|HQ],
           (decide (R x)) as [HR|HR];
    try (exfalso; tauto).
  - simpl. by rewrite IH.
  - rewrite <- Permutation_middle. by rewrite IH.
  - done.
Qed.

(** The entries made for the rings [b .. b + n - 1], ring by ring, are
    the entries made for that range of rings. *)
Lemma rings_partition start (l : list TRI_log_buffer_t) (b : Z) (n : nat) :
  concat ((fun i => filter (fun buf => selected start buf = true)
                      (filter (fun e => in_ring i e = true) l))
          <$> seqZ b (Z.of_nat n))
  ≡ₚ filter (fun e => selected start e = true /\
                      b <= wrap64 (_level e) < b + Z.of_nat n) l.
Proof.
  induction n as [|n IH].
  - simpl. symmetry. apply Permutation_nil_r.
    apply filter_none, Forall_forall. intros e _ [_ ?]. lia.
  - rewrite seqZ_S, fmap_app, concat_app, IH. simpl. rewrite app_nil_r.
    rewrite list_filter_filter.
    apply filter_split.
    + intros e. unfold in_ring. rewrite Z.eqb_eq, Nat2Z.inj_succ.
      split.
      * intros [Hsel Hrange].
        destruct (decide (wrap64 (_level e) = b + Z.of_nat n));
          [right | left]; (split; [done | lia]).
      * intros [[Hsel Hrange]|[Hsel Hrange]]; (split; [done | lia]).
    + intros e [_ ?] [_ Hin]. unfold in_ring in Hin.
      apply Z.eqb_eq in Hin. lia.
Qed.

(** A list in ascending order of lids that is a rearrangement of a list
    in strictly ascending order is that list. *)
Lemma sorted_rearrangement (l1 l2 : list TRI_log_buffer_t) :
  Sorted lid_le l1 ->
  StronglySorted (fun a b => _lid a < _lid b) l2 ->
  l1 ≡ₚ l2 -> l1 = l2.
Proof.
  intros Hsorted.
  assert (Htrans : Transitive lid_le).
  { intros a b c Hab Hbc. unfold lid_le in *. lia. }
  apply (Sorted_StronglySorted lid_le) in Hsorted.
  revert l2. induction Hsorted as [|x l1 Hrest IH Hmin]; intros l2 Hstrict Hperm.
  - by apply Permutation_nil in Hperm.
  - destruct Hstrict as [|y l2 Hrest2 Hmin2].
    { symmetry in Hperm. by apply Permutation_nil_cons in Hperm. }
    assert (x = y) as ->.
    { assert (Hx : x ∈ y :: l2) by (rewrite <- Hperm; apply elem_of_cons; by left).
      assert (Hy : y ∈ x :: l1) by (rewrite Hperm; apply elem_of_cons; by left).
      apply elem_of_cons in Hx as [->|Hx]; [done|].
      apply elem_of_cons in Hy as [->|Hy]; [done|].
      rewrite Forall_forall in Hmin, Hmin2.
      specialize (Hmin _ Hy). specialize (Hmin2 _ Hx).
      unfold lid_le in Hmin. lia. }
    f_equal. apply IH; [done|]. by apply Permutation_cons_inv in Hperm.
Qed.

(** While no ring has overflowed, the selected slots of a ring are the
    selected entries made for it. *)
Lemma selected_without_overflow calls st start pos :
  StoreOutput_all calls initial = Some st ->
  0 <= pos < OUTPUT_LOG_LEVELS ->
  (length (filter (fun e => in_ring pos e = true) (entries_of 1 calls))
   <= Z.to_nat OUTPUT_BUFFER_SIZE)%nat ->
  filter (fun buf => selected start buf = true) (ring_at st pos)
  ≡ₚ filter (fun buf => selected start buf = true)
       (filter (fun e => in_ring pos e = true) (entries_of 1 calls)).
Proof.
  intros Hrun Hpos Hfits.
  destruct (StoreOutput_all_oldest_first calls initial initial_wf)
    as (st' & Hrun' & _ & _ & Hview).
  rewrite Hrun in Hrun'. injection Hrun' as <-.
  assert (Hrot : ring_at st pos ≡ₚ oldest_first st pos).
  { unfold oldest_first. symmetry. apply rotate_Permutation. }
  rewrite Hrot, (Hview pos Hpos).
  pose proof (wf_oldest_first_length initial pos initial_wf Hpos) as Hlen.
  change (BufferLID initial) with 1.
  set (made := filter (fun e => in_ring pos e = true) (entries_of 1 calls)) in *.
  rewrite length_app, Hlen.
  replace (Z.to_nat OUTPUT_BUFFER_SIZE + length made - Z.to_nat OUTPUT_BUFFER_SIZE)%nat
    with (length made) by lia.
  rewrite drop_app_le by lia.
  rewrite filter_app.
  rewrite (filter_none (fun buf => selected start buf = true)); [done|].
  apply Forall_drop, initial_unselected.
Qed.

Lemma selected_rings_without_overflow calls st start (idx : list Z) :
  StoreOutput_all calls initial = Some st ->
  (forall pos, 0 <= pos < OUTPUT_LOG_LEVELS ->
     (length (filter (fun e => in_ring pos e = true) (entries_of 1 calls))
      <= Z.to_nat OUTPUT_BUFFER_SIZE)%nat) ->
  Forall (fun i => 0 <= i < OUTPUT_LOG_LEVELS) idx ->
  filter (fun buf => selected start buf = true) (concat (ring_at st <$> idx))
  ≡ₚ concat ((fun i => filter (fun buf => selected start buf = true)
                         (filter (fun e => in_ring i e = true)
                                 (entries_of 1 calls))) <$> idx).
Proof.
  intros Hrun Hfits Hidx. induction Hidx as [|i idx Hi Hidx IH]; [done|].
  simpl. rewrite filter_app, IH.
  by rewrite (selected_without_overflow calls st start i Hrun Hi (Hfits i Hi)).
Qed.

End RoundTrip.

(** The query after a run that has overflowed no ring. *)
Lemma store_then_query
    (calls : list Buffer.store_call) (level start : Z) (useUpto : bool) :
  Z.of_nat (length calls) < 2 ^ 31 - 1 ->
  (forall pos, 0 <= pos < Buffer.OUTPUT_LOG_LEVELS ->
     (length (filter (fun e => Buffer.in_ring pos e = true)
                     (Buffer.entries_of 1 calls))
      <= Z.to_nat Buffer.OUTPUT_BUFFER_SIZE)%nat) ->
  exists st,
    Buffer.StoreOutput_all calls Buffer.initial = Some st
    /\ Buffer.TRI_BufferLogging level start useUpto st =
       Some (Buffer.duplicate <$>
             filter (fun e =>
                       Buffer.selected start e = true /\
                       (if useUpto then 0 else Buffer.query_pos level)
                       <= wrap64 (Buffer._level e) <= Buffer.query_pos level)
                    (Buffer.entries_of 1 calls)).
Proof.
  intros Hfew Hfits.
  destruct (StoreOutput_all_oldest_first calls Buffer.initial initial_wf)
    as (st & Hrun & _).
  exists st. split; [done|].
  destruct (TRI_BufferLogging_sorted_early calls st level start useUpto
              Hrun Hfew) as (result & -> & Hperm & Hsorted).
  f_equal. apply sorted_rearrangement; [done| |].
  - apply (StronglySorted_fmap _ (fun a b => Buffer._lid a < Buffer._lid b));
      [done|].
    apply StronglySorted_filter, entries_of_lid_sorted; lia.
  - rewrite Hperm. apply fmap_Permutation.
    pose proof (query_pos_range level) as Hrange.
    set (pos := Buffer.query_pos level) in *.
    set (begin := if useUpto then 0 else pos).
    assert (Hbegin : 0 <= begin <= pos) by (unfold begin; destruct useUpto; lia).
    unfold Buffer.merged_rings. fold pos. fold begin.
    rewrite (selected_rings_without_overflow calls st start _ Hrun Hfits).
    2:{ apply Forall_forall. intros i Hi%elem_of_seqZ. lia. }
    replace (pos - begin + 1) with (Z.of_nat (Z.to_nat (pos - begin + 1)))
      by lia.
    rewrite rings_partition.
    apply Permutation_refl'. apply list_filter_iff. intros e.
    rewrite Z2Nat.id by lia. clearbody begin pos.
    split; (intros [Hsel Hin]; split; [done | lia]).
Qed.

(** X5. Store, then query. After a run of fewer than [2 ^ 31 - 1]
    [StoreOutput] calls from the initial buffers in which no ring has
    received more than 1024 entries, a history query returns exactly the
    entries the run made, in the order of the calls, that lie in the
    rings the query reads, have a lid of at least [start] and a
    non-empty text; each text is cut at its first NUL. *)
Theorem TRI_BufferLogging_round_trip
    (calls : list Buffer.store_call) (level start : Z) (useUpto : bool) :
  Z.of_nat (length calls) < 2 ^ 31 - 1 ->
  (forall pos, 0 <= pos < Buffer.OUTPUT_LOG_LEVELS ->
     (length (filter (fun e => Buffer.in_ring pos e = true)
                     (Buffer.entries_of 1 calls))
      <= Z.to_nat Buffer.OUTPUT_BUFFER_SIZE)%nat) ->
  exists st,
    Buffer.StoreOutput_all calls Buffer.initial = Some st
    /\ Buffer.TRI_BufferLogging level start useUpto st =
       Some (Buffer.duplicate <$>
             filter (fun e =>
                       Buffer.selected start e = true /\
                       (if useUpto then 0 else Buffer.query_pos level)
                       <= wrap64 (Buffer._level e) <= Buffer.query_pos level)
                    (Buffer.entries_of 1 calls)).
Proof. exact (store_then_query calls level start useUpto). Qed.

(** An ERROR, an INFO and a DEBUG message, one with an empty text in
    between, then the query for everything up to INFO from lid 1 on. *)
Lemma TRI_BufferLogging_round_trip_witness :
  let calls := [Buffer.mkCall 2 10 "disk full"; Buffer.mkCall 4 11 "";
                Buffer.mkCall 5 12 "tick"; Buffer.mkCall 4 13 "started"] in
  exists st,
    Buffer.StoreOutput_all calls Buffer.initial = Some st
    /\ Buffer.TRI_BufferLogging 4 1 true st =
       Some [Buffer.mkBuf 1 2 10 (Some "disk full"%string);
             Buffer.mkBuf 4 4 13 (Some "started"%string)].
Proof.
  intros calls.
  destruct (TRI_BufferLogging_round_trip calls 4 1 true)
    as (st & Hrun & Hquery).
  - vm_compute. reflexivity.
  - intros pos _. etransitivity; [apply length_filter|].
    vm_compute. lia.
  - exists st. split; [exact Hrun|]. rewrite Hquery. vm_compute. reflexivity.
Defined.

(** ** The file appender: rotation, closing and the write loop *)

Section Rotation.
Import FileAppender.

(** The file operations of a reopen whose [TRI_CREATE] succeeds. *)
Lemma rotated_names (filename : string) (ret : Z) (w : os) :
  0 <= ret ->
  let backup := (filename +:+ ".old")%string in
  let w1 := TRI_RenameFile filename backup (TRI_UnlinkFile backup w) in
  let w2 := (TRI_CREATE filename ret w1).2 in
  (TRI_CREATE filename ret w1).1 = ret /\
  names w2 = <[filename := next_inode w]>
               (match names w !! filename with
                | Some i => <[backup := i]> (delete filename (names w))
                | None => delete backup (names w)
                end) /\
  open_fds w2 = <[ret := next_inode w]> (open_fds w) /\
  next_inode w2 = S (next_inode w).
Proof.
  intros Hret backup w1 w2.
  pose proof (backup_name_differs filename) as Hne. fold backup in Hne.
  assert (Hne' : backup <> filename) by (intros Heq; by apply Hne).
  assert (Hgone : names w1 !! filename = None).
  { subst w1. unfold TRI_RenameFile, TRI_UnlinkFile. simpl.
    rewrite lookup_delete_ne by done.
    destruct (names w !! filename) as [i|] eqn:Hfile; simpl.
    - rewrite lookup_insert_ne by done. apply lookup_delete_eq.
    - by rewrite lookup_delete_ne. }
  subst w2. unfold TRI_CREATE.
  replace (ret <? 0) with false by (symmetry; apply Z.ltb_ge; lia).
  rewrite Hgone. simpl. split; [done|].
  subst w1. unfold TRI_RenameFile, TRI_UnlinkFile. simpl.
  rewrite lookup_delete_ne by done.
  destruct (names w !! filename) as [i|] eqn:Hfile; simpl; [|done].
  repeat split. f_equal.
  apply map_eq. intros p.
  destruct (decide (p = backup)) as [->|Hpb].
  - by rewrite !lookup_insert_eq.
  - rewrite !lookup_insert_ne by done.
    destruct (decide (p = filename)) as [->|Hp].
    + by rewrite !lookup_delete_eq.
    + by rewrite !lookup_delete_ne by done.
Qed.

End Rotation.

(** X6. Rotation. When a file appender with a file name and a descriptor
    above stderr is reopened and the new file can be opened, the file
    that was the log is from then on found under the name with [.old]
    appended (a backup of that name that existed before is gone), the
    log's own name refers to a newly created file, the appender writes
    to the new descriptor and its old descriptor is closed; the
    appender's filters and every other name and descriptor stay as they
    were. *)
Theorem reopenLog_rotates
    (a : FileAppender.log_appender_file_t) (w : FileAppender.os) (ret : Z) :
  FileAppender._filename a <> EmptyString ->
  FileAppender.STDERR_FILENO < FileAppender._fd a ->
  0 <= ret ->
  ret <> FileAppender._fd a ->
  let backup := (FileAppender._filename a +:+ ".old")%string in
  let a' := (FileAppender.reopenLog ret a w).1 in
  let w' := (FileAppender.reopenLog ret a w).2 in
  FileAppender._fd a' = ret
  /\ FileAppender._filename a' = FileAppender._filename a
  /\ FileAppender.base a' = FileAppender.base a
  /\ FileAppender._fatal2stderr a' = FileAppender._fatal2stderr a
  /\ FileAppender.names w' !! backup =
     FileAppender.names w !! FileAppender._filename a
  /\ FileAppender.names w' !! FileAppender._filename a =
     Some (FileAppender.next_inode w)
  /\ FileAppender.open_fds w' !! ret = Some (FileAppender.next_inode w)
  /\ FileAppender.open_fds w' !! FileAppender._fd a = None
  /\ FileAppender.next_inode w' = S (FileAppender.next_inode w)
  /\ (forall path, path <> backup -> path <> FileAppender._filename a ->
      FileAppender.names w' !! path = FileAppender.names w !! path)
  /\ (forall fd, fd <> ret -> fd <> FileAppender._fd a ->
      FileAppender.open_fds w' !! fd = FileAppender.open_fds w !! fd).
Proof.
  intros Hname Hfd Hret Hfresh backup a' w'.
  pose proof (backup_name_differs (FileAppender._filename a)) as Hne.
  fold backup in Hne.
  assert (Hne' : backup <> FileAppender._filename a)
    by (intros Heq; by apply Hne).
  subst a' w'. unfold FileAppender.reopenLog.
  rewrite bool_decide_false by done.
  replace (FileAppender._fd a <=? FileAppender.STDERR_FILENO) with false
    by (symmetry; apply Z.leb_gt; lia).
  pose proof (rotated_names (FileAppender._filename a) ret w Hret)
    as (Hfst & Hnames & Hfds & Hnext).
  fold backup in Hfst, Hnames, Hfds, Hnext. fold backup.
  destruct (FileAppender.TRI_CREATE _ ret _) as [fd w1] eqn:Hcreate.
  simpl in Hfst, Hnames, Hfds, Hnext. subst fd.
  replace (ret <? 0) with false by (symmetry; apply Z.ltb_ge; lia).
  simpl. rewrite Hnames, Hfds, Hnext.
  split; [done|]. split; [done|]. split; [done|]. split; [done|].
  split.
  { rewrite lookup_insert_ne by (intros Heq; by apply Hne).
    destruct (FileAppender.names w !! FileAppender._filename a) as [i|].
    - by rewrite lookup_insert_eq.
    - by rewrite lookup_delete_eq. }
  split; [by rewrite lookup_insert_eq|].
  split; [rewrite lookup_delete_ne by done; by rewrite lookup_insert_eq|].
  split; [by rewrite lookup_delete_eq|]. split; [done|]. split.
  - intros path Hpath Hpath'. rewrite lookup_insert_ne by done.
    destruct (FileAppender.names w !! FileAppender._filename a) as [i|].
    + rewrite lookup_insert_ne by done. by rewrite lookup_delete_ne.
    + by rewrite lookup_delete_ne.
  - intros fd Hfd1 Hfd2. rewrite lookup_delete_ne by done.
    by rewrite lookup_insert_ne.
Qed.

(** A reopen of an appender writing to [/var/log/db.log] on descriptor 5
    that obtains descriptor 6, while an older backup exists. *)
Lemma reopenLog_rotates_witness :
  let a := FileAppender.mkFileAppender
             (Appender.mkAppender Appender.APPENDER_TYPE_FILE None
                Level.TRI_LOG_SEVERITY_UNKNOWN false)
             "/var/log/db.log" 5 true in
  let w := FileAppender.mkOs
             (<["/var/log/db.log.old"%string := 3%nat]>
                (<["/var/log/db.log"%string := 7%nat]> ∅))
             (<[5 := 7%nat]> ∅) 8 in
  FileAppender._fd (FileAppender.reopenLog 6 a w).1 = 6
  /\ FileAppender.names (FileAppender.reopenLog 6 a w).2
       !! "/var/log/db.log.old"%string = Some 7%nat
  /\ FileAppender.names (FileAppender.reopenLog 6 a w).2
       !! "/var/log/db.log"%string = Some 8%nat
  /\ FileAppender.open_fds (FileAppender.reopenLog 6 a w).2 !! 6 = Some 8%nat
  /\ FileAppender.open_fds (FileAppender.reopenLog 6 a w).2 !! 5 = None.
Proof.
  intros a w.
  destruct (reopenLog_rotates a w 6)
    as (Hfd & _ & _ & _ & Hbackup & Hlog & Hnew & Hold & _).
  - discriminate.
  - reflexivity.
  - discriminate.
  - discriminate.
  - split; [exact Hfd|]. split; [exact Hbackup|]. split; [exact Hlog|].
    split; [exact Hnew | exact Hold].
Defined.

(** X7. Closing. [closeLog] marks the appender as closed and closes its
    descriptor unless that is stdin, stdout or stderr; it touches no
    file name and no other descriptor. Closing twice is the same as
    closing once, and a reopen after the close changes nothing, whatever
    [TRI_CREATE] would have returned. *)
Theorem closeLog_is_final
    (a : FileAppender.log_appender_file_t) (w : FileAppender.os) :
  let a' := (FileAppender.closeLog a w).1 in
  let w' := (FileAppender.closeLog a w).2 in
  FileAppender._fd a' = -1
  /\ FileAppender._filename a' = FileAppender._filename a
  /\ FileAppender.base a' = FileAppender.base a
  /\ FileAppender.names w' = FileAppender.names w
  /\ (FileAppender._fd a <= FileAppender.STDERR_FILENO -> w' = w)
  /\ (FileAppender.STDERR_FILENO < FileAppender._fd a ->
      FileAppender.open_fds w' !! FileAppender._fd a = None)
  /\ (forall fd, fd <> FileAppender._fd a ->
      FileAppender.open_fds w' !! fd = FileAppender.open_fds w !! fd)
  /\ FileAppender.closeLog a' w' = (a', w')
  /\ (forall ret, FileAppender.reopenLog ret a' w' = (a', w')).
Proof.
  intros a' w'. subst a' w'. unfold FileAppender.closeLog.
  destruct (Z.ltb_spec FileAppender.STDERR_FILENO (FileAppender._fd a))
    as [Hfd|Hfd]; simpl.
  - split; [done|]. split; [done|]. split; [done|]. split; [done|].
    split; [intros; lia|]. split; [intros _; apply lookup_delete_eq|].
    split; [intros fd Hne; by apply lookup_delete_ne|].
    split; [done|]. intros ret. unfold FileAppender.reopenLog. simpl.
    by destruct (bool_decide _).
  - split; [done|]. split; [done|]. split; [done|]. split; [done|].
    split; [done|]. split; [intros; lia|]. split; [done|].
    split; [done|]. intros ret. unfold FileAppender.reopenLog. simpl.
    by destruct (bool_decide _).
Qed.

Section ShortWrites.
Import FileAppender Transfer.

(** While the writes make progress and bytes remain, the loop goes on. *)
Lemma writeLogFile_loop_prefix (TRI_WRITE : nat -> Z) (len : Z)
    (k fuel : nat) :
  (forall i, (i < k)%nat -> 0 < TRI_WRITE i) ->
  (forall i, (i < k)%nat -> transferred TRI_WRITE i < len) ->
  writeLogFile_loop (k + fuel) TRI_WRITE 0 len false =
  writeLogFile_loop fuel TRI_WRITE k (len - transferred TRI_WRITE k) false.
Proof.
  revert fuel. induction k as [|k IH]; intros fuel Hprogress Hleft.
  - simpl. by rewrite Z.sub_0_r.
  - replace (S k + fuel)%nat with (k + S fuel)%nat by lia.
    rewrite IH; [|intros i Hi; apply Hprogress; lia
                  |intros i Hi; apply Hleft; lia].
    pose proof (Hprogress k ltac:(lia)) as Hk.
    pose proof (Hleft k ltac:(lia)) as Hk'.
    cbn [writeLogFile_loop transferred].
    replace (0 <? len - transferred TRI_WRITE k) with true
      by (symmetry; apply Z.ltb_lt; lia).
    replace (TRI_WRITE k <? 0) with false by (symmetry; apply Z.ltb_ge; lia).
    replace (TRI_WRITE k =? 0) with false by (symmetry; apply Z.eqb_neq; lia).
    simpl. f_equal. lia.
Qed.

End ShortWrites.

(** X8. Short writes. As long as every call of [TRI_WRITE] writes at
    least one byte, [writeLogFile] calls it again and again with what is
    left: it returns without a report once the writes add up to [len],
    after exactly as many calls as that takes (none for [len <= 0]). If
    instead a call fails while bytes are left, the loop ends at once
    with one report on stderr and the rest of the buffer is dropped. *)
Theorem writeLogFile_short_writes
    (TRI_WRITE : nat -> Z) (len : Z) (k fuel : nat) :
  (forall i, (i < k)%nat -> 0 < TRI_WRITE i) ->
  (forall i, (i < k)%nat -> Transfer.transferred TRI_WRITE i < len) ->
  (k < fuel)%nat ->
  (len <= Transfer.transferred TRI_WRITE k ->
     FileAppender.writeLogFile fuel TRI_WRITE len =
     Some {| FileAppender.calls := k;
             FileAppender.remaining := len - Transfer.transferred TRI_WRITE k;
             FileAppender.reported := false |})
  /\ (Transfer.transferred TRI_WRITE k < len -> TRI_WRITE k < 0 ->
     FileAppender.writeLogFile fuel TRI_WRITE len =
     Some {| FileAppender.calls := S k;
             FileAppender.remaining := len - Transfer.transferred TRI_WRITE k;
             FileAppender.reported := true |}).
Proof.
  intros Hprogress Hleft Hfuel.
  unfold FileAppender.writeLogFile.
  replace fuel with (k + S (fuel - S k))%nat by lia.
  rewrite writeLogFile_loop_prefix by done.
  split.
  - intros Hdone. cbn [FileAppender.writeLogFile_loop].
    by replace (0 <? len - Transfer.transferred TRI_WRITE k) with false
      by (symmetry; apply Z.ltb_ge; lia).
  - intros Hmore Hfail. cbn [FileAppender.writeLogFile_loop].
    replace (0 <? len - Transfer.transferred TRI_WRITE k) with true
      by (symmetry; apply Z.ltb_lt; lia).
    by replace (TRI_WRITE k <? 0) with true by (symmetry; by apply Z.ltb_lt).
Qed.

(** Ten bytes written in pieces of three, three, three and one; and ten
    bytes of which the first write takes four before the second fails. *)
Lemma writeLogFile_short_writes_witness :
  FileAppender.writeLogFile 5
       (fun i => if decide (i = 3%nat) then 1 else 3) 10 =
    Some {| FileAppender.calls := 4; FileAppender.remaining := 0;
            FileAppender.reported := false |}
  /\ FileAppender.writeLogFile 5
       (fun i => if decide (i = 0%nat) then 4 else -1) 10 =
    Some {| FileAppender.calls := 2; FileAppender.remaining := 6;
            FileAppender.reported := true |}.
Proof.
  split.
  - destruct (writeLogFile_short_writes
                (fun i => if decide (i = 3%nat) then 1 else 3) 10 4 5)
      as [Hdone _].
    + intros i Hi.
      destruct i as [|[|[|[|i]]]]; [reflexivity .. | lia].
    + intros i Hi.
      destruct i as [|[|[|[|i]]]]; [reflexivity .. | lia].
    + lia.
    + apply Hdone. vm_compute. discriminate.
  - destruct (writeLogFile_short_writes
                (fun i => if decide (i = 0%nat) then 4 else -1) 10 1 5)
      as [_ Hfail].
    + intros i Hi. assert (i = 0%nat) as -> by lia. reflexivity.
    + intros i Hi. assert (i = 0%nat) as -> by lia. reflexivity.
    + lia.
    + apply Hfail; reflexivity.
Defined.

(** ** Format strings that cannot be rendered *)

Section Disarm.
Import Level Engine.

Lemma DisarmFormatString_get (s : string) (i : nat) :
  String.get i (DisarmFormatString s) =
  (fun c => if Ascii.eqb c "%" then "^"%char else c) <$> String.get i s.
Proof.
  revert i. induction s as [|c s IH]; intros [|i]; simpl; done.
Qed.

Lemma c_str_get (s : string) (i : nat) (c : ascii) :
  String.get i (c_str s) = Some c -> String.get i s = Some c.
Proof.
  revert i. induction s as [|d s IH]; intros i; simpl; [done|].
  destruct (Ascii.eqb d NUL); [by destruct i|].
  destruct i as [|i]; simpl; [done|]. apply IH.
Qed.

Lemma DisarmFormatString_no_percent (s : string) (i : nat) :
  String.get i (DisarmFormatString s) <> Some "%"%char.
Proof.
  rewrite DisarmFormatString_get.
  destruct (String.get i s) as [c|]; simpl; [|done].
  destruct (Ascii.eqb c "%") eqn:Hc; [done|].
  intros [= ->]. by rewrite Ascii.eqb_refl in Hc.
Qed.

(** [GenerateMessage] on a format that cannot be rendered, in a buffer
    that has room for the prefix. *)
Lemma GenerateMessage_corrupt st at_ level currentProcessId threadNumber
    (size : Z) :
  0 <= size < 2 ^ 31 ->
  slen (message_prefix st at_ level currentProcessId threadNumber) < size ->
  ret (GenerateMessage st size at_ level currentProcessId threadNumber None)
  = -1.
Proof.
  intros Hsize. unfold GenerateMessage, message_prefix.
  set (s0 := match OutputPrefix st with
             | Some (String c r) => (String c r +:+ " ")%string
             | _ => EmptyString
             end).
  set (s1 := if ShowThreadIdentifier st then _ else _).
  set (s2 := (level_name level +:+ " ")%string).
  set (sln := (0 <? ShowLineNumber st) || (level =? TRI_LOG_LEVEL_DEBUG)
              || (level =? TRI_LOG_LEVEL_TRACE)).
  set (s3 := if sln then _ else _).
  rewrite to_int_small by lia.
  rewrite !slen_app.
  pose proof (slen_nonneg s0). pose proof (slen_nonneg s1).
  pose proof (slen_nonneg s2). pose proof (slen_nonneg s3).
  intros Hfit.
  destruct (Z.leb_spec size (slen s0)); [lia|].
  destruct (Z.leb_spec size (slen s0 + slen s1)); [lia|].
  destruct (Z.leb_spec size (slen s0 + slen s1 + slen s2)); [lia|].
  destruct sln; simpl; [|done].
  by destruct (Z.leb_spec size (slen s0 + slen s1 + slen s2 + slen s3));
    [lia|].
Qed.

(** One unfolding of [TRI_Log]. *)
Lemma TRI_Log_unfold fuel amb at_ level severity fmt body st :
  TRI_Log (S fuel) amb at_ level severity fmt body st =
  if negb (LoggingActive st) then Some st
  else
    a ← LogThread st amb at_ level severity fmt body;
    match a with
    | Emit level severity message length offset =>
        OutputMessage amb level severity message length offset st
    | Again level severity fmt body =>
        TRI_Log fuel amb at_ level severity fmt body st
    | Return => Some st
    end.
Proof. reflexivity. Qed.

End Disarm.

(** X9. [DisarmFormatString] replaces every ['%'] by ['^'] and leaves
    every other byte where it is: the result has the length of the
    argument, holds no ['%'] at any position, and disarming it again
    changes nothing. *)
Theorem DisarmFormatString_replaces_percent (s : string) :
  String.length (Engine.DisarmFormatString s) = String.length s
  /\ (forall i,
        String.get i (Engine.DisarmFormatString s) =
        (fun c => if Ascii.eqb c "%" then "^"%char else c)
          <$> String.get i s)
  /\ (forall i, String.get i (Engine.DisarmFormatString s) <> Some "%"%char)
  /\ Engine.DisarmFormatString (Engine.DisarmFormatString s) =
     Engine.DisarmFormatString s.
Proof.
  split; [|split; [apply DisarmFormatString_get|
           split; [apply DisarmFormatString_no_percent|]]].
  - induction s as [|c s IH]; simpl; [done | by rewrite IH].
  - induction s as [|c s IH]; simpl; [done|]. rewrite IH. f_equal.
    destruct (Ascii.eqb c "%") eqn:Hc; [done | by rewrite Hc].
Qed.

(** X10. A format string that [vsnprintf] cannot render. While logging
    is active a call of [TRI_Log] with such a format never emits the
    record; when the prefix fits the stack buffer it logs in its place,
    formatted like any other message, a WARNING of severity HUMAN that
    quotes the format with every ['%'] replaced by ['^'] (and drops that
    one, too, should it reach the ceiling of the formatter). *)
Theorem TRI_Log_corrupt_format_warns
    (st : Engine.state) (amb : Engine.ambient) (at_ : Engine.site)
    (level : Z) (severity : Level.TRI_log_severity_e) (fmt : string)
    (fuel : nat) :
  Engine.LoggingActive st = true ->
  Engine.slen (Engine.time_prefix amb) <= 31 ->
  (forall size, Engine.TRI_Allocate amb size = true) ->
  Engine.slen (Engine.message_prefix st at_ level (Engine.pid amb)
                 (Engine.thread amb))
    < 2048 - Engine.slen (Engine.time_prefix amb) ->
  let warning :=
    c_str (Engine.DisarmFormatString
             ("format string is corrupt: [" +:+ fmt
                +:+ "] - GenerateMessage failed" +:+ Engine.backtrace amb)) in
  let len := Engine.slen (Engine.time_prefix amb) in
  let total :=
    Engine.required_size st amb at_ Level.TRI_LOG_LEVEL_WARNING warning in
  Engine.TRI_Log (S (S fuel)) amb at_ level severity fmt None st =
    (if total <? Engine.maxSize
     then Engine.OutputMessage amb Level.TRI_LOG_LEVEL_WARNING
            Level.TRI_LOG_SEVERITY_HUMAN
            (Engine.complete_message st amb at_ Level.TRI_LOG_LEVEL_WARNING
               warning)
            (total + len)
            (Engine.slen (Engine.message_prefix st at_
                            Level.TRI_LOG_LEVEL_WARNING (Engine.pid amb)
                            (Engine.thread amb)) + len)
            st
     else Some st)
  /\ (forall i, String.get i warning <> Some "%"%char).
Proof.
  intros Hactive Htime Halloc Hprefix warning len total.
  pose proof (slen_nonneg (Engine.time_prefix amb)) as Hlen.
  split.
  - rewrite TRI_Log_unfold, Hactive. cbn [negb].
    assert (Hthread :
      Engine.LogThread st amb at_ level severity fmt None =
      Some (Engine.corrupt_format amb fmt "] - GenerateMessage failed")).
    { unfold Engine.LogThread.
      rewrite (wrap64_small (2048 - _)) by lia.
      by rewrite GenerateMessage_corrupt by (done || lia). }
    rewrite Hthread. cbn [mbind option_bind]. unfold Engine.corrupt_format.
    fold warning.
    by rewrite (TRI_Log_result st amb at_ Level.TRI_LOG_LEVEL_WARNING
                  Level.TRI_LOG_SEVERITY_HUMAN _ warning Htime fuel
                  Hactive Halloc).
  - intros i Hget. subst warning. apply c_str_get in Hget.
    by apply DisarmFormatString_no_percent in Hget.
Qed.

(** A call with the format ["%n%"] that cannot be rendered. *)
Lemma TRI_Log_corrupt_format_warns_witness :
  let st := Engine.mkState true false
              [Appender.mkAppender Appender.APPENDER_TYPE_FILE None
                 Level.TRI_LOG_SEVERITY_UNKNOWN false]
              [] Buffer.initial None false 0 [] [] in
  let amb := Engine.mkAmbient 1451606400 "2016-01-01T00:00:00Z " 42 7
               (fun _ => true) "" in
  let at_ := Engine.mkSite "main" "arangod.cpp" 10 in
  Engine.TRI_Log 2 amb at_ 4 Level.TRI_LOG_SEVERITY_USAGE "%n%" None st =
  Engine.OutputMessage amb 3 Level.TRI_LOG_SEVERITY_HUMAN
    ("2016-01-01T00:00:00Z [42] WARNING "
     +:+ "format string is corrupt: [^n^] - GenerateMessage failed")
    90 34 st.
Proof.
  intros st amb at_.
  destruct (TRI_Log_corrupt_format_warns st amb at_ 4
              Level.TRI_LOG_SEVERITY_USAGE "%n%" 0) as [Hlog _].
  - reflexivity.
  - vm_compute. discriminate.
  - reflexivity.
  - vm_compute. reflexivity.
  - exact Hlog.
Defined.

(** ** What the history keeps of a log call *)

Section Body.
Import Level Appender Engine.

(** What an emission does to the ring buffers while logging is active. *)
Lemma OutputMessage_buffers amb level severity message length offset st :
  LoggingActive st = true ->
  Buffers <$> OutputMessage amb level severity message length offset st =
  if bool_decide (severity = TRI_LOG_SEVERITY_HUMAN)
  then Buffer.StoreOutput level (now amb)
         (String.substring (Z.to_nat offset)
                           (Z.to_nat (wrap64 (length - offset))) message)
         (Buffers st)
  else Some (Buffers st).
Proof.
  intros Hactive. unfold OutputMessage. rewrite Hactive. cbn [negb].
  assert (Hrest : forall st0 : state,
    Buffers <$> match Appenders st0 with
                | [] => Some (WriteStderr level message st0)
                | _ :: _ =>
                    if ThreadedLogging st0
                    then Some (set_queue
                                 (LogMessageQueue st0
                                  ++ [{| _level := level;
                                         _severity := severity;
                                         _message := message;
                                         _length := length |}]) st0)
                    else Some (dispatch
                                 (logMessage
                                    {| _level := level;
                                       _severity := severity;
                                       _message := message;
                                       _length := length |})
                                 (Appenders st0) severity message st0)
                end = Some (Buffers st0)).
  { intros st0. destruct (Appenders st0) as [|a apps]; [done|].
    destruct (ThreadedLogging st0); [done|].
    by rewrite dispatch_delivers. }
  destruct (bool_decide (severity = TRI_LOG_SEVERITY_HUMAN)).
  - destruct (Buffer.StoreOutput _ _ _ _) as [b'|]; [|done].
    cbn [mbind option_bind]. by rewrite Hrest.
  - cbn [mbind option_bind]. by rewrite Hrest.
Qed.

Lemma substring_all (s : string) :
  String.substring 0 (String.length s) s = s.
Proof. by apply str_take_all. Qed.

End Body.

(** What a log call does to the ring buffers. *)
Lemma TRI_Log_buffers
    (st : Engine.state) (amb : Engine.ambient) (at_ : Engine.site)
    (level : Z) (severity : Level.TRI_log_severity_e) (fmt b : string)
    (fuel : nat) :
  Engine.LoggingActive st = true ->
  Engine.slen (Engine.time_prefix amb) <= 31 ->
  (forall size, Engine.TRI_Allocate amb size = true) ->
  Engine.required_size st amb at_ level b < Engine.maxSize ->
  Engine.Buffers
    <$> Engine.TRI_Log (S fuel) amb at_ level severity fmt (Some b) st =
  if bool_decide (severity = Level.TRI_LOG_SEVERITY_HUMAN)
  then Buffer.StoreOutput level (Engine.now amb) b (Engine.Buffers st)
  else Some (Engine.Buffers st).
Proof.
  intros Hactive Htime Halloc Hbelow.
  rewrite (TRI_Log_result st amb at_ level severity fmt b Htime fuel
             Hactive Halloc).
  replace (Engine.required_size st amb at_ level b <? Engine.maxSize)
    with true by (symmetry; by apply Z.ltb_lt).
  rewrite OutputMessage_buffers by done.
  destruct (bool_decide (severity = Level.TRI_LOG_SEVERITY_HUMAN)); [|done].
  f_equal.
  set (pre := Engine.message_prefix st at_ level (Engine.pid amb)
                (Engine.thread amb)).
  pose proof (slen_nonneg pre) as Hpre.
  pose proof (slen_nonneg b) as Hb.
  pose proof (slen_nonneg (Engine.time_prefix amb)) as Hlen.
  unfold Engine.required_size, Engine.complete_message. fold pre.
  replace (Engine.slen pre + Engine.slen b + Engine.slen (Engine.time_prefix amb)
           - (Engine.slen pre + Engine.slen (Engine.time_prefix amb)))
    with (Engine.slen b) by lia.
  unfold Engine.maxSize, Engine.required_size in Hbelow. fold pre in Hbelow.
  rewrite wrap64_small by lia.
  rewrite <- string_app_assoc.
  replace (Z.to_nat (Engine.slen pre + Engine.slen (Engine.time_prefix amb)))
    with (String.length (Engine.time_prefix amb +:+ pre)).
  2:{ rewrite string_length_app. unfold Engine.slen. lia. }
  rewrite substring_app_r. unfold Engine.slen. rewrite Nat2Z.id.
  apply substring_all.
Qed.

(** X11. The history keeps the caller's text only. While logging is
    active, a call of [TRI_Log] of severity HUMAN whose complete
    rendering stays below the ceiling of the formatter hands to
    [StoreOutput] the rendered text of the call alone: the time stamp,
    the process number, the level name and the place of the call are
    not part of it. A call of any other severity leaves the ring
    buffers as they are. *)
Theorem TRI_Log_history_keeps_body
    (st : Engine.state) (amb : Engine.ambient) (at_ : Engine.site)
    (level : Z) (severity : Level.TRI_log_severity_e) (fmt b : string)
    (fuel : nat) :
  Engine.LoggingActive st = true ->
  Engine.slen (Engine.time_prefix amb) <= 31 ->
  (forall size, Engine.TRI_Allocate amb size = true) ->
  Engine.required_size st amb at_ level b < Engine.maxSize ->
  Engine.Buffers
    <$> Engine.TRI_Log (S fuel) amb at_ level severity fmt (Some b) st =
  if bool_decide (severity = Level.TRI_LOG_SEVERITY_HUMAN)
  then Buffer.StoreOutput level (Engine.now amb) b (Engine.Buffers st)
  else Some (Engine.Buffers st).
Proof. exact (TRI_Log_buffers st amb at_ level severity fmt b fuel). Qed.

(** An INFO message: the slot of ring 4 holds ["hello"]. *)
Lemma TRI_Log_history_keeps_body_witness :
  let st := Engine.mkState true false
              [Appender.mkAppender Appender.APPENDER_TYPE_FILE None
                 Level.TRI_LOG_SEVERITY_UNKNOWN false]
              [] Buffer.initial None false 0 [] [] in
  let amb := Engine.mkAmbient 1451606400 "2016-01-01T00:00:00Z " 42 7
               (fun _ => true) "" in
  let at_ := Engine.mkSite "main" "arangod.cpp" 10 in
  Engine.Buffers
    <$> Engine.TRI_Log 1 amb at_ 4 Level.TRI_LOG_SEVERITY_HUMAN "%s"
          (Some "hello"%string) st =
  Buffer.StoreOutput 4 1451606400 "hello" Buffer.initial.
Proof.
  intros st amb at_.
  apply (TRI_Log_history_keeps_body st amb at_ 4
           Level.TRI_LOG_SEVERITY_HUMAN "%s" "hello" 0).
  - reflexivity.
  - vm_compute. discriminate.
  - reflexivity.
  - vm_compute. reflexivity.
Defined.

(** ** The life cycle *)

Section LifeCycle.
Import Level Appender FileAppender Engine Lifecycle.

Lemma iteration_continue st sl :
  (MessageQueueWorker_iteration st sl).2 = LoggingActive st.
Proof.
  unfold MessageQueueWorker_iteration.
  destruct (LogMessageQueue st) as [|msg q] eqn:Hq.
  - simpl. by destruct (LoggingActive st).
  - rewrite deliver_batch. simpl. by destruct (LoggingActive st).
Qed.

(** Once logging is inactive the worker leaves its loop at the end of
    the iteration it is in, with everything delivered. *)
Lemma MessageQueueWorker_finish_inactive fuel st sl :
  LoggingActive st = false ->
  MessageQueueWorker_finish (S fuel) st sl =
  Some (set_delivered
          (delivered st
           ++ concat (Runs.calls_of (Appenders st) <$> LogMessageQueue st))
          (set_queue [] st)).
Proof.
  intros Hinactive. cbn [MessageQueueWorker_finish].
  pose proof (iteration_continue st sl) as Hcontinue.
  pose proof (iteration_effect st sl) as Heffect.
  destruct (MessageQueueWorker_iteration st sl) as [[st' sl'] continue].
  simpl in Hcontinue, Heffect. subst continue st'.
  rewrite Hinactive. by destruct st.
Qed.

Lemma StoreOutput_wf level timestamp text b :
  Buffer.wf b ->
  exists b', Buffer.StoreOutput level timestamp text b = Some b'
             /\ Buffer.wf b'.
Proof.
  intros Hwf.
  destruct (Z.lt_ge_cases (wrap64 level) Buffer.OUTPUT_LOG_LEVELS)
    as [Hin|Hout].
  - destruct (StoreOutput_effect level timestamp text b Hwf Hin)
      as (b' & Hrun & Hwf' & _). by exists b'.
  - exists b. split; [by apply StoreOutput_outside | done].
Qed.

(** An emission on well-formed buffers returns; it keeps the flags and
    the registry, and it enqueues only in threaded mode while logging
    is active. *)
Lemma OutputMessage_step amb level severity message length offset st :
  Buffer.wf (Buffers st) ->
  exists st',
    OutputMessage amb level severity message length offset st = Some st'
    /\ LoggingActive st' = LoggingActive st
    /\ ThreadedLogging st' = ThreadedLogging st
    /\ Appenders st' = Appenders st
    /\ Buffer.wf (Buffers st')
    /\ (LogMessageQueue st' = LogMessageQueue st
        \/ (LoggingActive st = true /\ ThreadedLogging st = true)).
Proof.
  intros Hwf. unfold OutputMessage.
  destruct (LoggingActive st) eqn:Hactive; cbn [negb].
  2:{ eexists. split; [done|]. simpl. repeat (split; [done|]). by left. }
  assert (Hstored : exists b',
    (if bool_decide (severity = TRI_LOG_SEVERITY_HUMAN)
     then Buffer.StoreOutput level (now amb)
            (String.substring (Z.to_nat offset)
               (Z.to_nat (wrap64 (length - offset))) message) (Buffers st)
          ≫= λ b, Some (set_buffers b st)
     else Some st) = Some (set_buffers b' st) /\ Buffer.wf b').
  { destruct (bool_decide (severity = TRI_LOG_SEVERITY_HUMAN)).
    - destruct (StoreOutput_wf level (now amb)
                  (String.substring (Z.to_nat offset)
                     (Z.to_nat (wrap64 (length - offset))) message)
                  (Buffers st) Hwf) as (b' & -> & Hwf').
      by exists b'.
    - exists (Buffers st). split; [by destruct st | done]. }
  destruct Hstored as (b' & -> & Hwf'). cbn [mbind option_bind].
  cbn [set_buffers Appenders ThreadedLogging LogMessageQueue].
  destruct (Appenders st) as [|a apps] eqn:Happs.
  { eexists. split; [done|]. simpl. repeat (split; [done|]). by left. }
  destruct (ThreadedLogging st) eqn:Hthreaded.
  - eexists. split; [done|]. simpl. repeat (split; [done|]). by right.
  - rewrite dispatch_delivers. eexists. split; [done|]. simpl.
    repeat (split; [done|]). by left.
Qed.

Lemma reopenLog_base ret a w : base (reopenLog ret a w).1 = base a.
Proof.
  unfold reopenLog.
  destruct (bool_decide (_filename a = EmptyString)); [done|].
  destruct (_fd a <=? STDERR_FILENO); [done|].
  destruct (TRI_CREATE _ ret _) as [fd w1].
  by destruct (fd <? 0).
Qed.

Lemma reopen_from_bases rets i objs w :
  base_of <$> (reopen_from rets i objs w).1 = base_of <$> objs.
Proof.
  revert i w. induction objs as [|o objs IH]; intros i w; [done|].
  cbn [reopen_from].
  destruct (reopenLog_object (rets i) o w) as [o' w1] eqn:Ho.
  specialize (IH (S i) w1).
  destruct (reopen_from rets (S i) objs w1) as [rest w2].
  cbn [fst] in *. rewrite !fmap_cons, IH. f_equal.
  destruct o as [a|a]; simpl in Ho.
  - pose proof (reopenLog_base (rets i) a w) as Hbase.
    destruct (reopenLog (rets i) a w) as [a' w']. simpl in Hbase.
    injection Ho as <- <-. done.
  - by injection Ho as <- <-.
Qed.

(** Every call keeps the statics consistent, and returns. *)
Lemma run_call_consistent fuel c p :
  consistent p ->
  exists p', run_call (S fuel) c p = Some p' /\ consistent p'.
Proof.
  intros Hp.
  pose proof Hp
    as (Hreg & Hinit & Hactive & Hexit & Hhandler & Hthread & Hqueue & Hwf).
  destruct c as [threaded|sl clearBuffers
                |ret filename contentFilter severityFilter consume fatal2stderr
                |contentFilter severityFilter consume|rets|amb e|sl];
    cbn [run_call].
  - (* Initialize *)
    eexists. split; [done|]. unfold TRI_InitializeLogging.
    destruct Hinit as [H0|H1].
    + rewrite H0 in *. simpl in *. unfold consistent. simpl.
      rewrite Hthread.
      split; [done|]. split; [by right|]. split; [done|].
      split; [destruct (ShutdownInitalized p); by rewrite Hexit|].
      split; [done|].
      split; [by destruct threaded|]. split; [|done].
      destruct threaded; [done|]. intros _. by apply Hqueue.
    + rewrite H1. simpl. exact Hp.
  - (* Shutdown *)
    unfold TRI_ShutdownLogging.
    destruct Hinit as [H0|H1].
    + rewrite H0. simpl. by exists p.
    + rewrite H1. cbn [Z.eqb Pos.eqb negb].
      cbn [set_active ThreadedLogging].
      assert (Hfinish : exists e,
        (if ThreadedLogging (engine p)
         then MessageQueueWorker_finish (S fuel)
                (set_active false (engine p)) sl
         else Some (set_active false (engine p))) = Some e
        /\ LogMessageQueue e = []
        /\ Buffers e = Buffers (engine p)
        /\ ThreadedLogging e = ThreadedLogging (engine p)
        /\ LoggingActive e = false).
      { destruct (ThreadedLogging (engine p)) eqn:Hthreaded.
        - rewrite MessageQueueWorker_finish_inactive by done.
          eexists. split; [done|]. by simpl.
        - eexists. split; [done|]. simpl. split; [|done].
          apply Hqueue. rewrite Hthread. by rewrite andb_false_r. }
      destruct Hfinish as (e & -> & Hempty & Hbuffers & Hsame & Hoff).
      cbn [mbind option_bind]. eexists. split; [done|].
      unfold consistent, CloseLogging. cbn.
      split; [by destruct clearBuffers|]. split; [by left|].
      split; [destruct clearBuffers; by cbn|].
      split; [done|]. split; [done|].
      split; [rewrite Hsame, Hthread;
              destruct (ThreadedLogging (engine p));
              [done | apply andb_false_r]|].
      split; [intros _; destruct clearBuffers; by cbn|].
      destruct clearBuffers; cbn; rewrite Hbuffers;
        [by apply clear_buffers_wf | done].
  - (* CreateFile *)
    unfold TRI_CreateLogAppenderFile.
    destruct (c_str <$> filename) as [[|ch name]|];
      [by exists p | | by exists p].
    set (b := {| type := APPENDER_TYPE_FILE;
                 _contentFilter := c_str <$> contentFilter;
                 _severityFilter := severityFilter; _consume := consume |}).
    match goal with
    | |- context [match ?made with Some _ => _ | None => _ end] =>
        destruct made as [[a w]|] eqn:Hmade
    end; [|by exists p].
    eexists. split; [done|]. unfold consistent. cbn.
    rewrite fmap_app, <- Hreg. cbn.
    assert (Hbase : base a = b).
    { destruct (String.eqb (String ch name) "+"); [by injection Hmade as <- _|].
      destruct (String.eqb (String ch name) "-"); [by injection Hmade as <- _|].
      destruct (TRI_CREATE _ ret _) as [fd w1].
      destruct (fd <? 0); [done|]. by injection Hmade as <- _. }
    rewrite Hbase. repeat (split; [done|]). done.
  - (* CreateSyslog *)
    eexists. split; [done|]. unfold consistent. cbn.
    rewrite fmap_app, <- Hreg. repeat (split; [done|]). done.
  - (* Reopen *)
    unfold TRI_ReopenLogging.
    pose proof (reopen_from_bases rets 0 (objects p) (system p)) as Hbases.
    destruct (reopen_from rets 0 (objects p) (system p)) as [objs w].
    eexists. split; [done|]. unfold consistent. cbn. simpl in Hbases.
    rewrite Hbases. repeat (split; [done|]). done.
  - (* Emission *)
    destruct (OutputMessage_step amb (Runs.e_level e) (Runs.e_severity e)
                (Runs.e_message e) (Runs.e_length e) (Runs.e_offset e)
                (engine p) Hwf)
      as (e' & -> & Hact & Hthr & Happ & Hwf' & Hq).
    cbn [mbind option_bind]. eexists. split; [done|].
    unfold consistent. cbn. rewrite Hact, Hthr, Happ.
    repeat (split; [done|]). split; [|done].
    intros Hnone. destruct Hq as [->|[Hon Hth]]; [by apply Hqueue|].
    rewrite Hthread, <- Hactive, Hon, Hth in Hnone. done.
  - (* Work *)
    eexists. split; [done|].
    destruct (LoggingThreadActive p) eqn:Hworker;
      [|exact Hp].
    rewrite iteration_effect. unfold consistent. cbn. rewrite Hworker.
    repeat (split; [done|]). done.
Qed.

Lemma run_consistent fuel calls p :
  consistent p ->
  exists p', run (S fuel) calls p = Some p' /\ consistent p'.
Proof.
  revert p. induction calls as [|c rest IH]; intros p Hp.
  - by exists p.
  - destruct (run_call_consistent fuel c p Hp) as (p1 & Hcall & Hp1).
    destruct (IH p1 Hp1) as (p' & Hrest & Hp').
    exists p'. split; [|done].
    cbn [run]. rewrite Hcall. exact Hrest.
Qed.

Lemma boot_consistent w : consistent (boot w).
Proof.
  unfold consistent. simpl. split; [done|]. split; [by left|].
  repeat (split; [done|]). apply initial_wf.
Qed.

End LifeCycle.


(** ** Shutdown *)

Section Shutdown.
Import Level Appender FileAppender Engine Lifecycle.

Local Abbreviation close_all :=
  (foldl (fun w o => (closeLog_object o w).2)).

Lemma closeLog_object_names o w :
  names (closeLog_object o w).2 = names w.
Proof.
  destruct o as [a|a]; [|done]. simpl. unfold closeLog.
  by destruct (STDERR_FILENO <? _fd a).
Qed.

Lemma closeLog_object_fds o w fd :
  open_fds (closeLog_object o w).2 !! fd =
  match o with
  | FileObject a =>
      if bool_decide (STDERR_FILENO < _fd a /\ fd = _fd a) then None
      else open_fds w !! fd
  | SyslogObject _ => open_fds w !! fd
  end.
Proof.
  destruct o as [a|a]; [|done]. simpl. unfold closeLog.
  destruct (Z.ltb_spec STDERR_FILENO (_fd a)) as [Hfd|Hfd]; simpl.
  - destruct (decide (fd = _fd a)) as [->|Hne].
    + rewrite bool_decide_true by done. apply lookup_delete_eq.
    + rewrite bool_decide_false by (intros [_ ?]; done).
      by apply lookup_delete_ne.
  - rewrite bool_decide_false by (intros [? _]; lia). done.
Qed.

Lemma close_all_names objs w : names (close_all w objs) = names w.
Proof.
  revert w. induction objs as [|o objs IH]; intros w; [done|].
  simpl. by rewrite IH, closeLog_object_names.
Qed.

Lemma close_all_closed objs w fd :
  open_fds w !! fd = None -> open_fds (close_all w objs) !! fd = None.
Proof.
  revert w. induction objs as [|o objs IH]; intros w Hnone; [done|].
  simpl. apply IH. rewrite closeLog_object_fds.
  destruct o as [a|a]; [|done]. by destruct (bool_decide _).
Qed.

Lemma close_all_fds objs w a :
  FileObject a ∈ objs -> STDERR_FILENO < _fd a ->
  open_fds (close_all w objs) !! _fd a = None.
Proof.
  revert w. induction objs as [|o objs IH]; intros w Hin Hfd.
  - by apply elem_of_nil in Hin.
  - simpl. apply elem_of_cons in Hin as [<-|Hin]; [|by apply IH].
    apply close_all_closed. rewrite closeLog_object_fds.
    by rewrite bool_decide_true.
Qed.

Lemma close_all_standard objs w fd :
  fd <= STDERR_FILENO ->
  open_fds (close_all w objs) !! fd = open_fds w !! fd.
Proof.
  revert w. induction objs as [|o objs IH]; intros w Hfd; [done|].
  simpl. rewrite IH by done. rewrite closeLog_object_fds.
  destruct o as [a|a]; [|done].
  by rewrite bool_decide_false by (intros [? ->]; lia).
Qed.

(** The state that a shutdown of the initialised component leaves. *)
Lemma TRI_ShutdownLogging_result fuel sl clearBuffers p :
  Initialized p = 1 ->
  (ThreadedLogging (engine p) = false -> LogMessageQueue (engine p) = []) ->
  TRI_ShutdownLogging (S fuel) sl clearBuffers p =
  Some (ThreadedLogging (engine p),
        {| engine :=
             {| LoggingActive := false;
                ThreadedLogging := ThreadedLogging (engine p);
                Appenders := [];
                LogMessageQueue := [];
                Buffers := if clearBuffers
                           then Buffer.clear_buffers (Buffers (engine p))
                           else Buffers (engine p);
                OutputPrefix := None;
                ShowThreadIdentifier := ShowThreadIdentifier (engine p);
                ShowLineNumber := ShowLineNumber (engine p);
                err := err (engine p);
                delivered :=
                  delivered (engine p)
                  ++ concat (Runs.calls_of (Appenders (engine p))
                               <$> LogMessageQueue (engine p)) |};
           objects := [];
           system := close_all (system p) (objects p);
           Initialized := 0;
           ShutdownInitalized := ShutdownInitalized p;
           atexit := atexit p;
           LogfileName := None;
           LoggingThreadActive :=
             if ThreadedLogging (engine p) then false
             else LoggingThreadActive p;
           written := written p;
           syslogged := syslogged p |}).
Proof.
  intros Hinit Hqueue.
  destruct p as [[act thr apps q bufs pre sti sln er del]
                 objs w ini sh ax lf lta wr sy].
  simpl in Hinit, Hqueue. subst ini. unfold TRI_ShutdownLogging.
  cbn [Initialized Z.eqb Pos.eqb negb engine set_active ThreadedLogging].
  destruct thr.
  - rewrite MessageQueueWorker_finish_inactive by done.
    destruct clearBuffers; reflexivity.
  - specialize (Hqueue eq_refl). subst q. cbn [mbind option_bind].
    destruct clearBuffers; cbn; by rewrite app_nil_r.
Qed.

End Shutdown.





(** ** Creating, reopening and flushing *)

(** X15. The outcomes of [TRI_CreateLogAppenderFile]. A null or empty
    file name is refused with [TRI_ERROR_INTERNAL]; a file that cannot
    be opened is reported as [TRI_ERROR_OUT_OF_MEMORY]; in both cases
    nothing at all has changed. Every other call succeeds and appends
    one appender at the end of the registry, with the filters given:
    for the name ["+"] it writes to stdout and for ["-"] to stderr,
    without a file name and without opening anything; otherwise it
    holds the descriptor that [TRI_CREATE] returned. The name that
    [TRI_GetFilenameLogging] returns is that of the first appender
    created, ["+"] and ["-"] included, and later calls do not change
    it. *)
Theorem TRI_CreateLogAppenderFile_outcomes
    (ret : Z) (filename contentFilter : option string)
    (severityFilter : Level.TRI_log_severity_e) (consume fatal2stderr : bool)
    (p : Lifecycle.process) :
  let r := Lifecycle.TRI_CreateLogAppenderFile ret filename contentFilter
             severityFilter consume fatal2stderr p in
  let name := default EmptyString (c_str <$> filename) in
  (r.1 <> Lifecycle.TRI_ERROR_NO_ERROR -> r.2 = p)
  /\ (r.1 = Lifecycle.TRI_ERROR_INTERNAL <-> name = EmptyString)
  /\ (r.1 = Lifecycle.TRI_ERROR_OUT_OF_MEMORY <->
      name <> EmptyString /\ name <> "+"%string /\ name <> "-"%string
      /\ ret < 0)
  /\ (r.1 = Lifecycle.TRI_ERROR_NO_ERROR ->
      exists a,
        Lifecycle.objects r.2 =
          Lifecycle.objects p ++ [Lifecycle.FileObject a]
        /\ Engine.Appenders (Lifecycle.engine r.2) =
           Engine.Appenders (Lifecycle.engine p) ++ [FileAppender.base a]
        /\ FileAppender.base a =
           Appender.mkAppender Appender.APPENDER_TYPE_FILE
             (c_str <$> contentFilter) severityFilter consume
        /\ FileAppender._fatal2stderr a = fatal2stderr
        /\ (name = "+"%string ->
            FileAppender._fd a = FileAppender.STDOUT_FILENO
            /\ FileAppender._filename a = EmptyString
            /\ Lifecycle.system r.2 = Lifecycle.system p)
        /\ (name = "-"%string ->
            FileAppender._fd a = FileAppender.STDERR_FILENO
            /\ FileAppender._filename a = EmptyString
            /\ Lifecycle.system r.2 = Lifecycle.system p)
        /\ (name <> "+"%string -> name <> "-"%string ->
            FileAppender._fd a = ret /\ 0 <= ret
            /\ FileAppender._filename a = name
            /\ Lifecycle.system r.2 =
               (FileAppender.TRI_CREATE name ret (Lifecycle.system p)).2)
        /\ Lifecycle.TRI_GetFilenameLogging r.2 =
           Some (default name (Lifecycle.LogfileName p))).
Proof.
  intros r name. subst r name.
  unfold Lifecycle.TRI_CreateLogAppenderFile.
  destruct (c_str <$> filename) as [[|ch rest]|]; cbn [default];
    [by repeat split; try done; intros (? & _) | |
     by repeat split; try done; intros (? & _)].
  set (name := String ch rest).
  destruct (String.eqb_spec name "+") as [Hplus|Hplus].
  { cbn. split; [done|]. split; [done|].
    split; [split; [done | by intros (_ & ? & _)]|].
    intros _. eexists. split; [done|]. cbn.
    repeat (split; [done|]).
    split; [by rewrite Hplus|]. split; [done|].
    by destruct (Lifecycle.LogfileName p). }
  destruct (String.eqb_spec name "-") as [Hminus|Hminus].
  { cbn. split; [done|]. split; [done|].
    split; [split; [done | by intros (_ & _ & ? & _)]|].
    intros _. eexists. split; [done|]. cbn.
    repeat (split; [done|]).
    by destruct (Lifecycle.LogfileName p). }
  assert (Hfd : (FileAppender.TRI_CREATE name ret (Lifecycle.system p)).1
                = ret).
  { unfold FileAppender.TRI_CREATE. destruct (ret <? 0); [done|].
    by destruct (FileAppender.names _ !! name). }
  destruct (FileAppender.TRI_CREATE name ret (Lifecycle.system p))
    as [fd w'] eqn:Hcreate.
  simpl in Hfd. subst fd.
  destruct (Z.ltb_spec ret 0) as [Hret|Hret]; cbn.
  - split; [done|]. split; [done|]. split; [|done].
    split; [by intros _ | done].
  - split; [done|]. split; [done|].
    split; [split; [done | intros (_ & _ & _ & ?); lia]|].
    intros _. eexists. split; [done|]. cbn.
    repeat (split; [done|]).
    split; [intros _ _; by rewrite Hcreate|].
    by destruct (Lifecycle.LogfileName p).
Qed.

Section Flush.
Import Engine Lifecycle.

Lemma flush_loop_bounded (empty : nat -> bool) (fuel k : nat) :
  (500 <= fuel + k)%nat -> (k <= 499)%nat ->
  exists n,
    flush_loop fuel (Z.of_nat k) empty k = Some n
    /\ (k <= n <= 499)%nat
    /\ (forall j, (k <= j < n)%nat -> empty j = false)
    /\ ((n < 499)%nat -> empty n = true).
Proof.
  revert k. induction fuel as [|fuel IH]; intros k Hfuel Hk; [lia|].
  cbn [flush_loop]. rewrite to_int_small by lia.
  destruct (Z.ltb_spec (Z.of_nat k + 1) 500) as [Hlt|Hge].
  - destruct (empty k) eqn:Hempty.
    + exists k. split; [done|]. split; [lia|]. split; [intros j; lia | done].
    + replace (Z.of_nat k + 1) with (Z.of_nat (S k)) by lia.
      destruct (IH (S k)) as (n & -> & Hn & Hbefore & Hlast); [lia..|].
      exists n. split; [done|]. split; [lia|]. split; [|done].
      intros j Hj. destruct (decide (j = k)) as [->|Hne]; [done|].
      apply Hbefore. lia.
  - exists k. split; [done|]. split; [lia|]. split; intros; lia.
Qed.

End Flush.

(** X16. [TRI_FlushLogging] waits only so long. With threaded logging
    initialised the caller looks at the queue, sleeps 10 ms when it is
    not empty, and looks again; it returns as soon as it finds the
    queue empty and in any case after 499 sleeps, whether the queue has
    been emptied or not. Without threaded logging, or when the
    component is not initialised, it returns at once. *)
Theorem TRI_FlushLogging_gives_up
    (fuel : nat) (empty : nat -> bool) (p : Lifecycle.process) :
  (500 <= fuel)%nat ->
  exists n,
    Lifecycle.TRI_FlushLogging fuel empty p = Some n
    /\ (n <= 499)%nat
    /\ (forall k, (k < n)%nat -> empty k = false)
    /\ ((n < 499)%nat -> Lifecycle.Initialized p = 1 ->
        Engine.ThreadedLogging (Lifecycle.engine p) = true ->
        empty n = true)
    /\ (Lifecycle.Initialized p <> 1
        \/ Engine.ThreadedLogging (Lifecycle.engine p) = false ->
        n = 0%nat).
Proof.
  intros Hfuel. unfold Lifecycle.TRI_FlushLogging.
  destruct (Z.eqb_spec (Lifecycle.Initialized p) 1) as [Hinit|Hinit];
    cbn [negb].
  2:{ exists 0%nat. split; [done|]. split; [lia|].
      split; [intros; lia|]. split; [done|]. done. }
  destruct (Engine.ThreadedLogging (Lifecycle.engine p)) eqn:Hthreaded.
  2:{ exists 0%nat. split; [done|]. split; [lia|].
      split; [intros; lia|]. split; [done|]. done. }
  destruct (flush_loop_bounded empty fuel 0) as (n & Hrun & Hn & Hbefore & Hlast);
    [lia..|].
  exists n. split; [exact Hrun|]. split; [lia|].
  split; [intros k Hk; apply Hbefore; lia|].
  split; [intros Hlt _ _; by apply Hlast|]. by intros [?|?].
Qed.

(** A queue that is found empty at the third look, and one that never
    is. *)
Lemma TRI_FlushLogging_gives_up_witness :
  let p := Lifecycle.mkProcess
             (Engine.mkState true true [] [] Buffer.initial None false 0
                [] [])
             [] (FileAppender.mkOs ∅ ∅ 0) 1 true 1 None true [] [] in
  Lifecycle.TRI_FlushLogging 500 (fun k => bool_decide (k = 2%nat)) p
    = Some 2%nat
  /\ exists n, Lifecycle.TRI_FlushLogging 500 (fun _ => false) p = Some n
               /\ (n <= 499)%nat.
Proof.
  intros p. split.
  - destruct (TRI_FlushLogging_gives_up 500
                (fun k => bool_decide (k = 2%nat)) p)
      as (n & Hrun & _); [lia|].
    rewrite Hrun. vm_compute in Hrun. symmetry. exact Hrun.
  - destruct (TRI_FlushLogging_gives_up 500 (fun _ => false) p)
      as (n & Hrun & Hn & _); [lia|].
    exists n. split; [exact Hrun | exact Hn].
Defined.

Section ReopenAll.
Import Appender FileAppender Lifecycle.

(** What a reopen makes of the appender does not depend on the files. *)
Lemma reopenLog_appender ret a w :
  (reopenLog ret a w).1 =
  if bool_decide (_filename a = EmptyString) || (_fd a <=? STDERR_FILENO)
     || (ret <? 0)
  then a
  else {| base := base a; _filename := _filename a; _fd := ret;
          _fatal2stderr := _fatal2stderr a |}.
Proof.
  unfold reopenLog.
  destruct (bool_decide (_filename a = EmptyString)); [done|].
  destruct (_fd a <=? STDERR_FILENO); [done|]. cbn [orb].
  unfold TRI_CREATE.
  destruct (ret <? 0) eqn:Hret; [by rewrite Hret|].
  destruct (names _ !! _filename a); by rewrite Hret.
Qed.

Lemma reopen_from_lookup rets i objs w k :
  (reopen_from rets i objs w).1 !! k =
  (fun o => match o with
            | FileObject a =>
                FileObject (reopenLog (rets (i + k)%nat) a w).1
            | SyslogObject _ => o
            end) <$> objs !! k.
Proof.
  revert i w k. induction objs as [|o objs IH]; intros i w k; [done|].
  cbn [reopen_from].
  destruct (reopenLog_object (rets i) o w) as [o' w1] eqn:Ho.
  specialize (IH (S i) w1).
  destruct (reopen_from rets (S i) objs w1) as [rest w2].
  cbn [fst] in *. destruct k as [|k]; cbn.
  - rewrite Nat.add_0_r. destruct o as [a|a]; simpl in Ho.
    + destruct (reopenLog (rets i) a w) as [a' w'].
      by injection Ho as <- _.
    + by injection Ho as <- _.
  - rewrite IH. replace (S i + k)%nat with (i + S k)%nat by lia.
    destruct (objs !! k) as [[a|a]|]; cbn; try done.
    by rewrite !reopenLog_appender.
Qed.

End ReopenAll.

(** X17. [TRI_ReopenLogging] goes through the whole registry, and each
    appender is treated on its own: a file appender with a file name
    and a descriptor above stderr ends with the new descriptor when its
    file could be opened and is left as it was when not, whatever
    happened to the appenders before it; appenders for stdout and
    stderr and syslog appenders are left alone. The statics of the
    emission, the order of the appenders and their filters stay as they
    were. *)
Theorem TRI_ReopenLogging_each_appender
    (rets : nat -> Z) (p : Lifecycle.process) :
  let p' := Lifecycle.TRI_ReopenLogging rets p in
  Lifecycle.engine p' = Lifecycle.engine p
  /\ Lifecycle.base_of <$> Lifecycle.objects p' =
     Lifecycle.base_of <$> Lifecycle.objects p
  /\ (forall i a, Lifecycle.objects p !! i = Some (Lifecycle.SyslogObject a) ->
      Lifecycle.objects p' !! i = Some (Lifecycle.SyslogObject a))
  /\ (forall i a, Lifecycle.objects p !! i = Some (Lifecycle.FileObject a) ->
      Lifecycle.objects p' !! i =
      Some (Lifecycle.FileObject
              (if bool_decide (FileAppender._filename a = EmptyString)
                  || (FileAppender._fd a <=? FileAppender.STDERR_FILENO)
                  || (rets i <? 0)
               then a
               else {| FileAppender.base := FileAppender.base a;
                       FileAppender._filename := FileAppender._filename a;
                       FileAppender._fd := rets i;
                       FileAppender._fatal2stderr :=
                         FileAppender._fatal2stderr a |}))).
Proof.
  intros p'. subst p'. unfold Lifecycle.TRI_ReopenLogging.
  pose proof (reopen_from_bases rets 0 (Lifecycle.objects p)
                (Lifecycle.system p)) as Hbases.
  pose proof (reopen_from_lookup rets 0 (Lifecycle.objects p)
                (Lifecycle.system p)) as Hlookup.
  destruct (Lifecycle.reopen_from rets 0 (Lifecycle.objects p)
              (Lifecycle.system p)) as [objs w].
  cbn [fst] in *. cbn.
  split; [done|]. split; [done|]. split.
  - intros i a Hi. by rewrite Hlookup, Hi.
  - intros i a Hi. rewrite Hlookup, Hi. cbn.
    by rewrite reopenLog_appender.
Qed.

(** ** What the appenders do with a message *)

Section Sinks.
Import Level Appender FileAppender Engine Lifecycle.

(** The hints that follow a fatal message on stderr. *)
Lemma details_lines (objs : list appender_object) (e : state) :
  foldl (fun e it =>
           let d := details it in
           if bool_decide (d = EmptyString) then e
           else WriteStderr TRI_LOG_LEVEL_INFO d e) e objs =
  set_err (err e
           ++ ((fun d => (PLAIN, c_str d))
                 <$> filter (fun d => d <> EmptyString) (details <$> objs)))
          e.
Proof.
  revert e. induction objs as [|o objs IH]; intros e.
  - simpl. rewrite app_nil_r. by destruct e.
  - cbn [foldl]. rewrite IH. rewrite fmap_cons, filter_cons.
    destruct (decide (details o <> EmptyString)) as [Hd|Hd].
    + rewrite bool_decide_false by done.
      rewrite fmap_cons. unfold WriteStderr, set_err. cbn.
      by rewrite <- app_assoc.
    + rewrite bool_decide_true by (by destruct (decide (details o = EmptyString))).
      done.
Qed.

Lemma strchr_after (pre rest : string) :
  no_bracket pre = true ->
  strchr (pre +:+ String "]" rest) "]" = Some (String "]" rest).
Proof.
  induction pre as [|c pre IH]; intros Hpre; [done|].
  cbn in Hpre. apply andb_true_iff in Hpre as [Hc Hpre].
  apply andb_true_iff in Hc as [Hnul Hbracket].
  apply negb_true_iff in Hnul, Hbracket.
  cbn [strchr String.append]. simpl.
  rewrite Hnul, Hbracket. by apply IH.
Qed.

Lemma strchr_none (s : string) :
  no_bracket s = true -> strchr s "]" = None.
Proof.
  induction s as [|c s IH]; intros Hs; [done|].
  cbn in Hs. apply andb_true_iff in Hs as [Hc Hs].
  apply andb_true_iff in Hc as [Hnul Hbracket].
  apply negb_true_iff in Hnul, Hbracket.
  simpl. rewrite Hnul, Hbracket. by apply IH.
Qed.

End Sinks.


Section SyslogText.
Import Level Engine Lifecycle.

Lemma no_bracket_app (a b : string) :
  no_bracket (a +:+ b) = no_bracket a && no_bracket b.
Proof.
  induction a as [|c a IH]; [done|].
  change (no_bracket (String c (a +:+ b)) = no_bracket (String c a) && no_bracket b).
  cbn [no_bracket]. rewrite IH. by rewrite !andb_assoc.
Qed.

Lemma no_bracket_c_str (s : string) : no_bracket s = true -> c_str s = s.
Proof.
  induction s as [|c s IH]; intros Hs; [done|].
  cbn in Hs. apply andb_true_iff in Hs as [Hc Hs].
  apply andb_true_iff in Hc as [Hnul _]. apply negb_true_iff in Hnul.
  simpl. rewrite Hnul. by rewrite IH.
Qed.

End SyslogText.

(** X19. What the syslog appender sends. The text is the message from
    behind its first [']'] on, the byte that follows the bracket being
    dropped with it. Of a record as the formatter makes it, without
    output prefix and thread number and with a time stamp and a process
    number that hold no bracket, syslog therefore receives the level
    name and what follows it, but neither the time stamp nor the
    process number. A message without [']'] is sent whole, and one that
    ends in its first [']'] is sent from that bracket on. *)
Theorem syslog_text_strips_prefix
    (st : Engine.state) (amb : Engine.ambient) (at_ : Engine.site)
    (level : Z) (b : string) :
  Engine.OutputPrefix st = None ->
  Engine.ShowThreadIdentifier st = false ->
  Lifecycle.no_bracket (Engine.time_prefix amb) = true ->
  Lifecycle.no_bracket (Engine.fmt_llu (Engine.pid amb)) = true ->
  Lifecycle.syslog_text (Engine.complete_message st amb at_ level b) =
    c_str (Engine.level_name level +:+ " "
           +:+ (if (0 <? Engine.ShowLineNumber st)
                   || (level =? Level.TRI_LOG_LEVEL_DEBUG)
                   || (level =? Level.TRI_LOG_LEVEL_TRACE)
                then "[" +:+ Engine.file at_ +:+ ":"
                     +:+ Engine.fmt_d (Engine.line at_) +:+ "] "
                else EmptyString)
           +:+ b)
  /\ (forall msg, Lifecycle.no_bracket msg = true ->
        Lifecycle.syslog_text msg = msg
        /\ Lifecycle.syslog_text (msg +:+ "]") = "]"%string
        /\ forall d rest, Ascii.eqb d NUL = false ->
             Lifecycle.syslog_text (msg +:+ String "]" (String d rest)) =
             c_str rest).
Proof.
  intros Hprefix Hthread Htime Hpid.
  assert (Hgeneral : forall msg, Lifecycle.no_bracket msg = true ->
            Lifecycle.syslog_text msg = msg
            /\ Lifecycle.syslog_text (msg +:+ "]") = "]"%string
            /\ forall d rest, Ascii.eqb d NUL = false ->
                 Lifecycle.syslog_text (msg +:+ String "]" (String d rest)) =
                 c_str rest).
  { intros msg Hmsg. unfold Lifecycle.syslog_text. split; [|split].
    - rewrite strchr_none by done. by apply no_bracket_c_str.
    - by rewrite strchr_after.
    - intros d rest Hd. rewrite strchr_after by done. by rewrite Hd. }
  split; [|exact Hgeneral].
  set (s3 := if (0 <? Engine.ShowLineNumber st)
                || (level =? Level.TRI_LOG_LEVEL_DEBUG)
                || (level =? Level.TRI_LOG_LEVEL_TRACE)
             then ("[" +:+ Engine.file at_ +:+ ":"
                   +:+ Engine.fmt_d (Engine.line at_) +:+ "] ")%string
             else EmptyString).
  set (pre := (Engine.time_prefix amb
               +:+ "[" +:+ Engine.fmt_llu (Engine.pid amb))%string).
  assert (Hshape :
    Engine.complete_message st amb at_ level b =
    (pre +:+ String "]" (String " "
               (Engine.level_name level +:+ " " +:+ s3 +:+ b)))%string).
  { unfold Engine.complete_message, Engine.message_prefix.
    rewrite Hprefix, Hthread. fold s3. subst pre.
    rewrite !string_app_assoc. reflexivity. }
  rewrite Hshape.
  destruct (Hgeneral pre) as (_ & _ & Hcut).
  { subst pre. rewrite !no_bracket_app, Htime, Hpid. reflexivity. }
  by apply Hcut.
Qed.

(** An INFO record of process 42. *)
Lemma syslog_text_strips_prefix_witness :
  let st := Engine.mkState true false [] [] Buffer.initial None false 0
              [] [] in
  let amb := Engine.mkAmbient 1451606400 "2016-01-01T00:00:00Z " 42 7
               (fun _ => true) "" in
  let at_ := Engine.mkSite "main" "arangod.cpp" 10 in
  Lifecycle.syslog_text "2016-01-01T00:00:00Z [42] INFO started"
  = "INFO started"%string.
Proof.
  intros st amb at_.
  destruct (syslog_text_strips_prefix st amb at_ 4 "started")
    as [Hrecord _]; [reflexivity .. |].
  exact Hrecord.
Defined.

(** X20. The level gate is monotone. Whatever passes the gate at some
    threshold passes it at every higher one, and when a level passes,
    every more severe level (one with a smaller value) passes as well;
    this holds for the global gate and for the gate of a topic. A topic
    whose level has been set follows that level alone, and one that has
    been set back to DEFAULT follows the global level again. *)
Theorem isEnabled_monotone
    (glob glob' L L' : Logger.LogLevel) (T : Logger.LogTopic) :
  Logger.level_int L' <= Logger.level_int L ->
  Logger.level_int glob <= Logger.level_int glob' ->
  (Logger.isEnabled glob L = true -> Logger.isEnabled glob' L' = true)
  /\ (Logger.isEnabled_topic glob L T = true ->
      Logger.isEnabled_topic glob L' T = true)
  /\ (Logger.isEnabled_topic glob L T = true ->
      Logger.isEnabled_topic glob' L T = true)
  /\ (forall l, l <> Logger.DEFAULT ->
        Logger.isEnabled_topic glob L (Logger.setLogLevel T l) =
        Logger.isEnabled l L)
  /\ Logger.isEnabled_topic glob L (Logger.setLogLevel T Logger.DEFAULT) =
     Logger.isEnabled glob L
  /\ Logger.isEnabled glob Logger.DEFAULT = true.
Proof.
  intros HL Hglob. unfold Logger.isEnabled, Logger.isEnabled_topic.
  split; [|split; [|split; [|split; [|split]]]].
  - rewrite !Z.leb_le. lia.
  - rewrite !Z.leb_le. lia.
  - destruct (decide (Logger.topic_level T = Logger.DEFAULT));
      rewrite !Z.leb_le; lia.
  - intros l Hl. simpl. by destruct (decide (l = Logger.DEFAULT)).
  - simpl. by destruct (decide (Logger.DEFAULT = Logger.DEFAULT)).
  - apply Z.leb_le. by destruct glob.
Qed.

(** ERROR passes wherever INFO does. *)
Lemma isEnabled_monotone_witness :
  Logger.isEnabled Logger.DEBUG Logger.ERR = true.
Proof.
  destruct (isEnabled_monotone Logger.INFO Logger.DEBUG Logger.INFO
              Logger.ERR (Logger.mkTopic 0 "requests" Logger.DEFAULT))
    as [Hpasses _].
  - vm_compute. discriminate.
  - vm_compute. discriminate.
  - apply Hpasses. reflexivity.
Defined.

(** ** The formatter: buffers, termination and recursion *)

Section FormatterBounds.
Import Level Engine.

Lemma string_app_nil_r (s : string) : (s +:+ EmptyString)%string = s.
Proof.
  induction s as [|c s IH]; [done|].
  change (String c (s +:+ EmptyString) = String c s). by rewrite IH.
Qed.

Lemma str_take_prefix (n : nat) (s : string) :
  exists rest, s = (str_take n s +:+ rest)%string.
Proof.
  unfold str_take. revert s. induction n as [|n IH]; intros s.
  - exists s. by destruct s.
  - destruct s as [|c s]; [by exists EmptyString|].
    destruct (IH s) as (rest & Hrest). exists rest.
    change (String c s
            = String c (String.substring 0 n s +:+ rest)%string).
    by rewrite <- Hrest.
Qed.

Lemma stored_length (size : Z) (s : string) :
  1 <= size -> slen (stored size s) = Z.min (size - 1) (slen s).
Proof.
  intros Hsize. unfold stored, str_take, slen.
  rewrite substring_length. lia.
Qed.

(** What [snprintf] leaves in the buffer begins the complete output and
    whatever is appended to it. *)
Lemma stored_prefix (size : Z) (full partial more : string) :
  full = (partial +:+ more)%string ->
  exists rest, full = (stored size partial +:+ rest)%string.
Proof.
  intros ->. unfold stored.
  destruct (str_take_prefix (Z.to_nat (size - 1)) partial) as (rest & Hrest).
  exists (rest +:+ more)%string.
  rewrite <- string_app_assoc. by rewrite <- Hrest.
Qed.

(** The growth loop comes to an end whatever the allocator and
    [vsnprintf] do. *)
Lemma LogThread_grow_total st amb at_ level severity fmt body len
    (fuel : nat) (n : Z) :
  (Z.to_nat (maxSize - n) < fuel)%nat ->
  exists a,
    LogThread_grow fuel st amb at_ level severity fmt body len n = Some a
    /\ match a with
       | Emit level' severity' _ _ _ => level' = level /\ severity' = severity
       | Again level' severity' _ body' =>
           severity' = TRI_LOG_SEVERITY_HUMAN
           /\ (level' = TRI_LOG_LEVEL_WARNING \/ level' = TRI_LOG_LEVEL_ERROR)
           /\ is_Some body'
       | Return => True
       end.
Proof.
  revert n. induction fuel as [|fuel IH]; intros n Hfuel; [lia|].
  cbn [LogThread_grow].
  destruct (Z.ltb_spec n maxSize) as [Hbelow|Hreached];
    [|by exists Return].
  destruct (TRI_Allocate amb (wrap64 (n + len + 2))); cbn [negb].
  2:{ eexists. split; [done|]. split; [done|]. split; [by right | by eexists]. }
  destruct (ret (GenerateMessage st (wrap64 (n + 1)) at_ level (pid amb)
                   (thread amb) body) =? -1).
  { eexists. split; [done|]. unfold corrupt_format.
    split; [done|]. split; [by left | by eexists]. }
  destruct (Z.ltb_spec n (ret (GenerateMessage st (wrap64 (n + 1)) at_ level
                                 (pid amb) (thread amb) body)))
    as [Hmore|Hfits].
  { apply IH. lia. }
  destruct (0 <? wrap64 _); [|by exists Return].
  eexists. by split.
Qed.

End FormatterBounds.

(** X21. [GenerateMessage] stays inside its buffer. For a buffer of at
    least one byte it never leaves more than [size - 1] bytes behind,
    and what it leaves is the beginning of the complete record (the
    prefix followed by the rendered text). With the [snprintf] calls
    for the prefix taken not to fail, it returns -1 exactly when the
    prefix fitted and [vsnprintf] failed; any other result below [size]
    means that the record is complete in the buffer and is its length,
    and a result of [size] or more that the buffer is full. *)
Theorem GenerateMessage_stays_in_buffer
    (st : Engine.state) (size : Z) (at_ : Engine.site) (level : Z)
    (currentProcessId threadNumber : Z) (body : option string) :
  1 <= size < 2 ^ 31 ->
  let g := Engine.GenerateMessage st size at_ level currentProcessId
             threadNumber body in
  let pre := Engine.message_prefix st at_ level currentProcessId
               threadNumber in
  let full := (pre +:+ default EmptyString body)%string in
  Engine.slen (Engine.written g) <= size - 1
  /\ (exists rest, full = (Engine.written g +:+ rest)%string)
  /\ (Engine.ret g = -1 <-> body = None /\ Engine.slen pre < size)
  /\ (Engine.ret g <> -1 -> Engine.ret g < size ->
      Engine.written g = full /\ Engine.ret g = Engine.slen full
      /\ Engine.offset g = Engine.slen pre)
  /\ (size <= Engine.ret g -> Engine.slen (Engine.written g) = size - 1).
Proof.
  intros Hsize g pre full. subst g pre full.
  unfold Engine.GenerateMessage, Engine.message_prefix.
  set (s0 := match Engine.OutputPrefix st with
             | Some (String c r) => (String c r +:+ " ")%string
             | _ => EmptyString
             end).
  set (s1 := if Engine.ShowThreadIdentifier st then _ else _).
  set (s2 := (Engine.level_name level +:+ " ")%string).
  set (sln := (0 <? Engine.ShowLineNumber st)
              || (level =? Level.TRI_LOG_LEVEL_DEBUG)
              || (level =? Level.TRI_LOG_LEVEL_TRACE)).
  set (s3 := if sln then _ else _).
  set (b := default EmptyString body).
  rewrite to_int_small by lia.
  pose proof (slen_nonneg s0). pose proof (slen_nonneg s1).
  pose proof (slen_nonneg s2). pose proof (slen_nonneg s3).
  pose proof (slen_nonneg b).
  assert (Hs3 : sln = false -> Engine.slen s3 = 0)
    by (intros Hf; subst s3; by rewrite Hf).
  destruct (Z.leb_spec size (Engine.slen s0)); cbn.
  { rewrite stored_length, !slen_app by lia.
    split; [lia|]. split; [|lia].
    apply (stored_prefix _ _ _ ((s1 +:+ s2 +:+ s3) +:+ b)).
    by rewrite !string_app_assoc. }
  destruct (Z.leb_spec size (Engine.slen s0 + Engine.slen s1)); cbn.
  { rewrite stored_length, !slen_app by lia.
    split; [lia|]. split; [|lia].
    apply (stored_prefix _ _ _ ((s2 +:+ s3) +:+ b)).
    by rewrite !string_app_assoc. }
  destruct (Z.leb_spec size (Engine.slen s0 + Engine.slen s1
                             + Engine.slen s2)); cbn.
  { rewrite stored_length, !slen_app by lia.
    split; [lia|]. split; [|lia].
    apply (stored_prefix _ _ _ (s3 +:+ b)).
    by rewrite !string_app_assoc. }
  destruct sln eqn:Hsln; cbn [andb].
  - destruct (Z.leb_spec size (Engine.slen s0 + Engine.slen s1
                               + Engine.slen s2 + Engine.slen s3)); cbn.
    { rewrite stored_length, !slen_app by lia.
      split; [lia|]. split; [|lia].
      apply (stored_prefix _ _ _ b). by rewrite !string_app_assoc. }
    destruct body as [text|]; subst b; cbn [default] in *; cbn.
    + pose proof (slen_nonneg text).
      rewrite stored_length, !slen_app by lia.
      split; [lia|]. split.
      { apply (stored_prefix _ _ _ EmptyString).
        by rewrite !string_app_assoc, !string_app_nil_r. }
      split; [split; [lia | by intros [? _]]|].
      split; [|lia]. intros _ Hfits.
      rewrite stored_all by (rewrite !slen_app; lia).
      split; [by rewrite !string_app_assoc | lia].
    + rewrite stored_length, !slen_app by lia.
      split; [lia|]. split.
      { apply (stored_prefix _ _ _ EmptyString).
        by rewrite !string_app_assoc, !string_app_nil_r. }
      split; [split; [intros _; split; [done | lia] | done]|].
      split; [done | lia].
  - specialize (Hs3 eq_refl).
    destruct body as [text|]; subst b; cbn [default] in *; cbn.
    + pose proof (slen_nonneg text).
      rewrite stored_length, !slen_app by lia.
      split; [lia|]. split.
      { apply (stored_prefix _ _ _ EmptyString).
        by rewrite !string_app_assoc, !string_app_nil_r. }
      split; [split; [lia | by intros [? _]]|].
      split; [|lia]. intros _ Hfits.
      rewrite stored_all by (rewrite !slen_app; lia).
      split; [by rewrite !string_app_assoc | lia].
    + rewrite stored_length, !slen_app by lia.
      split; [lia|]. split.
      { apply (stored_prefix _ _ _ EmptyString).
        by rewrite !string_app_assoc, !string_app_nil_r. }
      split; [split; [intros _; split; [done | lia] | done]|].
      split; [done | lia].
Qed.

(** A buffer of 16 bytes for a record of 15 bytes and more. *)
Lemma GenerateMessage_stays_in_buffer_witness :
  let st := Engine.mkState true false [] [] Buffer.initial None false 0
              [] [] in
  let at_ := Engine.mkSite "main" "arangod.cpp" 10 in
  let g := Engine.GenerateMessage st 16 at_ 4 42 7 (Some "started"%string) in
  Engine.slen (Engine.written g) <= 15
  /\ Engine.written g = "[42] INFO start"%string.
Proof.
  intros st at_ g.
  destruct (GenerateMessage_stays_in_buffer st 16 at_ 4 42 7
              (Some "started"%string)) as (Hbound & _); [lia|].
  split; [exact Hbound | reflexivity].
Defined.



(** X23. A recursion without end. When the output prefix alone fills
    the stack buffer of the formatter (and stays below its ceiling) and
    no memory can be allocated, [LogThread] answers every call with a
    call of [TRI_Log] for the message ["log message is too large"],
    which meets the same fate: while logging is active, a call of
    [TRI_Log] then never returns, however deep the calls are followed,
    and neither the record nor the diagnostic is ever put out. *)
Theorem TRI_Log_recursion_without_end
    (st : Engine.state) (amb : Engine.ambient) (at_ : Engine.site)
    (c : ascii) (r : string) :
  Engine.LoggingActive st = true ->
  Engine.OutputPrefix st = Some (String c r) ->
  Engine.slen (Engine.time_prefix amb) <= 31 ->
  2048 - Engine.slen (Engine.time_prefix amb)
    <= Engine.slen (String c r) + 1 < Engine.maxSize ->
  (forall size, Engine.TRI_Allocate amb size = false) ->
  forall fuel level severity fmt body,
    Engine.TRI_Log fuel amb at_ level severity fmt body st = None.
Proof.
  intros Hactive Hprefix Htime Hlong Halloc.
  pose proof (slen_nonneg (Engine.time_prefix amb)) as Hlen.
  assert (Hthread : forall level severity fmt body,
    exists fmt' body',
      Engine.LogThread st amb at_ level severity fmt body =
      Some (Engine.Again Level.TRI_LOG_LEVEL_ERROR
              Level.TRI_LOG_SEVERITY_HUMAN fmt' body')).
  { intros level severity fmt body. unfold Engine.LogThread.
    rewrite (wrap64_small (2048 - _)) by lia.
    unfold Engine.GenerateMessage. rewrite Hprefix.
    rewrite !to_int_small by lia. rewrite slen_app.
    change (Engine.slen " ") with 1.
    destruct (Z.leb_spec (2048 - Engine.slen (Engine.time_prefix amb))
                (Engine.slen (String c r) + 1)) as [_|?]; [|lia].
    cbn [Engine.ret].
    destruct (Z.eqb_spec (Engine.slen (String c r) + 1) (-1)) as [?|_];
      [pose proof (slen_nonneg (String c r)); lia|].
    destruct (Z.ltb_spec (Engine.slen (String c r) + 1)
                (2048 - Engine.slen (Engine.time_prefix amb))) as [?|_];
      [lia|].
    unfold Engine.maxSize in *.
    change (Z.to_nat (100 * 1024)) with (S (Z.to_nat (100 * 1024 - 1))).
    cbn [Engine.LogThread_grow]. unfold Engine.maxSize.
    destruct (Z.ltb_spec (Engine.slen (String c r) + 1) (100 * 1024))
      as [_|?]; [|lia].
    rewrite Halloc. cbn [negb]. by eexists; eexists. }
  induction fuel as [|fuel IH]; intros level severity fmt body; [done|].
  rewrite TRI_Log_unfold, Hactive. cbn [negb].
  destruct (Hthread level severity fmt body) as (fmt' & body' & ->).
  cbn [mbind option_bind]. apply IH.
Qed.

(** An output prefix of 2100 bytes and an allocator that fails. *)
Lemma TRI_Log_recursion_without_end_witness :
  let st := Engine.mkState true false
              [Appender.mkAppender Appender.APPENDER_TYPE_FILE None
                 Level.TRI_LOG_SEVERITY_UNKNOWN false]
              [] Buffer.initial (Some (Engine.filler 2100)) false 0 [] [] in
  let amb := Engine.mkAmbient 1451606400 "2016-01-01T00:00:00Z " 42 7
               (fun _ => false) "" in
  let at_ := Engine.mkSite "main" "arangod.cpp" 10 in
  Engine.TRI_Log 1000 amb at_ 4 Level.TRI_LOG_SEVERITY_HUMAN "%s"
    (Some "started"%string) st = None.
Proof.
  intros st amb at_.
  apply (TRI_Log_recursion_without_end st amb at_ "x" (Engine.filler 2099)).
  - reflexivity.
  - reflexivity.
  - vm_compute. discriminate.
  - vm_compute. split; [discriminate | reflexivity].
  - reflexivity.
Defined.

(** ** A log call from end to end *)



(** X25. What is logged can be queried. From the initial ring buffers,
    a call of [TRI_Log] of severity HUMAN at one of the levels 0 to 5,
    with an allocator that does not fail and a record below the ceiling
    of the formatter, returns, and the history query for that level
    then returns exactly one entry: lid 1, the level and the time of
    the call, and as its text the rendered text of the call, cut after
    256 bytes and at its first NUL; nothing is returned when the query
    starts beyond lid 1 or the text begins with a NUL or is empty. *)
Theorem TRI_Log_then_query
    (st : Engine.state) (amb : Engine.ambient) (at_ : Engine.site)
    (level start : Z) (fmt b : string) (fuel : nat) :
  Engine.LoggingActive st = true ->
  Engine.slen (Engine.time_prefix amb) <= 31 ->
  (forall size, Engine.TRI_Allocate amb size = true) ->
  Engine.required_size st amb at_ level b < Engine.maxSize ->
  Engine.Buffers st = Buffer.initial ->
  0 <= level < Buffer.OUTPUT_LOG_LEVELS ->
  exists st',
    Engine.TRI_Log (S fuel) amb at_ level Level.TRI_LOG_SEVERITY_HUMAN fmt
      (Some b) st = Some st'
    /\ Buffer.TRI_BufferLogging level start false (Engine.Buffers st') =
       Some (if Buffer.selected start
                  (Buffer.entry_of 1 level (Engine.now amb) b)
             then [ {| Buffer._lid := 1; Buffer._level := level;
                       Buffer._timestamp := Engine.now amb;
                       Buffer._text :=
                         Some (c_str (Buffer.stored_text b)) |} ]
             else []).
Proof.
  intros Hactive Htime Halloc Hbelow Hinitial Hlevel.
  pose proof (TRI_Log_buffers st amb at_ level Level.TRI_LOG_SEVERITY_HUMAN
                fmt b fuel Hactive Htime Halloc Hbelow) as Hbuffers.
  rewrite bool_decide_true in Hbuffers by done. rewrite Hinitial in Hbuffers.
  destruct (store_then_query [Buffer.mkCall level (Engine.now amb) b]
              level start false) as (bufs & Hstore & Hquery).
  { simpl. lia. }
  { intros pos _. etransitivity; [apply length_filter|].
    etransitivity; [apply entries_of_length_le|]. simpl.
    unfold Buffer.OUTPUT_BUFFER_SIZE. lia. }
  cbn [Buffer.StoreOutput_all Buffer.call_level Buffer.call_timestamp
       Buffer.call_text] in Hstore.
  destruct (Buffer.StoreOutput level (Engine.now amb) b Buffer.initial)
    as [bufs'|] eqn:Hone; [|done].
  cbn [mbind option_bind] in Hstore. injection Hstore as ->.
  destruct (Engine.TRI_Log (S fuel) amb at_ level
              Level.TRI_LOG_SEVERITY_HUMAN fmt (Some b) st) as [st'|];
    [|done].
  cbn in Hbuffers. injection Hbuffers as Hbuffers.
  exists st'. split; [done|]. rewrite Hbuffers, Hquery. f_equal.
  assert (Hpos : wrap64 level = level).
  { apply wrap64_small. unfold Buffer.OUTPUT_LOG_LEVELS in Hlevel. lia. }
  assert (Hquery_pos : Buffer.query_pos level = level).
  { unfold Buffer.query_pos. rewrite Hpos.
    by destruct (Z.leb_spec Buffer.OUTPUT_LOG_LEVELS level); [lia|]. }
  cbn [Buffer.entries_of Buffer.call_level Buffer.call_timestamp
       Buffer.call_text]. rewrite Hpos.
  destruct (Z.leb_spec Buffer.OUTPUT_LOG_LEVELS level); [lia|].
  rewrite filter_cons, filter_nil. rewrite Hquery_pos.
  change (wrap64 (Buffer._level
                    (Buffer.entry_of 1 level (Engine.now amb) b)))
    with (wrap64 level).
  rewrite Hpos.
  destruct (Buffer.selected start
              (Buffer.entry_of 1 level (Engine.now amb) b)) eqn:Hsel.
  - rewrite decide_True by (split; [done | lia]). done.
  - rewrite decide_False by (intros [? _]; done). done.
Qed.

(** An INFO message, then the query for level INFO from lid 0 on. *)
Lemma TRI_Log_then_query_witness :
  let st := Engine.mkState true false
              [Appender.mkAppender Appender.APPENDER_TYPE_FILE None
                 Level.TRI_LOG_SEVERITY_UNKNOWN false]
              [] Buffer.initial None false 0 [] [] in
  let amb := Engine.mkAmbient 1451606400 "2016-01-01T00:00:00Z " 42 7
               (fun _ => true) "" in
  let at_ := Engine.mkSite "main" "arangod.cpp" 10 in
  exists st',
    Engine.TRI_Log 1 amb at_ 4 Level.TRI_LOG_SEVERITY_HUMAN "%s"
      (Some "hello"%string) st = Some st'
    /\ Buffer.TRI_BufferLogging 4 0 false (Engine.Buffers st') =
       Some [Buffer.mkBuf 1 4 1451606400 (Some "hello"%string)].
Proof.
  intros st amb at_.
  destruct (TRI_Log_then_query st amb at_ 4 0 "%s" "hello" 0)
    as (st' & Hrun & Hquery).
  - reflexivity.
  - vm_compute. discriminate.
  - reflexivity.
  - vm_compute. reflexivity.
  - reflexivity.
  - vm_compute. split; [discriminate | reflexivity].
  - exists st'. split; [exact Hrun | exact Hquery].
Defined.
